(** * advanced-vector: RawMemory<T> and Vector<T> (vector.h)

    A shallow embedding of the two class templates of
    [advanced-vector/vector.h] over an explicit store:

    - the free store is a finite map from block addresses to blocks; a
      block is a list of slots, each slot being raw storage or a
      constructed object of the element type [T];
    - [Vector] objects live in an object store indexed by their identity
      (the value of [this]), so that two references may alias;
    - every special member function of [T] that the container calls is
      recorded in a trace, the way an instrumented element type counts
      its copies, moves and destructions;
    - [assert] is modelled with checks enabled; what the C++ standard
      leaves undefined (access outside a block, use of raw storage as an
      object) is an explicit error.

    Storage is counted in elements, as [RawMemory] itself does: a
    request for [n] elements stands for the [n * sizeof(T)] bytes that
    [Allocate] asks [operator new] for.  The two agree as long as that
    product does not exceed [PTRDIFF_MAX]: there the [size_t] product
    does not wrap and the request is not refused for its size.  Every
    statement about an element count that the caller chooses assumes it.
    The executions covered are those in which no element operation
    throws. *)

From stdpp Require Import gmap list.
From Stdlib Require Import ZArith Lia.

Local Open Scope Z_scope.

(** ** Machine integers and pointers *)

(** [size_t] is a 64-bit unsigned integer: arithmetic wraps around. *)
Definition SIZE_MODULUS : Z := 18446744073709551616.
Definition size_t (z : Z) : Z := z mod SIZE_MODULUS.

(** No object is larger than [PTRDIFF_MAX]; [operator new] refuses more. *)
Definition PTRDIFF_MAX : Z := 9223372036854775807.

Definition addr := positive.
Definition objid := positive.

(** A [T*]: the block it points into (none for a null pointer) and the
    element offset inside that block.  Pointer arithmetic is total on
    this representation; an offset outside the block is detected when the
    pointer is used. *)
Record ptr := Ptr { base : option addr; off : Z }.

Global Instance ptr_eq_dec : EqDecision ptr.
Proof. solve_decision. Defined.

Definition nullptr : ptr := Ptr None 0.
Definition ptr_add (p : ptr) (k : Z) : ptr := Ptr (base p) (off p + k).

Inductive error :=
| AssertionFailed        (* an [assert] of vector.h does not hold *)
| UndefinedBehaviour     (* the C++ abstract machine gives no meaning *)
| BadAlloc.              (* [operator new] throws std::bad_alloc *)

Global Instance error_eq_dec : EqDecision error.
Proof. solve_decision. Defined.

Declare Scope M_scope.
Delimit Scope M_scope with M.

(** What the container asks of its element type.  [moved_from v] is the
    value left in an object holding [v] once it has been the source of a
    move construction or a move assignment; [value_init] is [T()]; the
    two booleans are [std::is_nothrow_move_constructible_v<T>] and
    [std::is_copy_constructible_v<T>]; [sizeof_T] is [sizeof(T)], which
    is at least 1. *)
Class Element (T : Type) := {
  moved_from : T → T;
  value_init : T;
  is_nothrow_move_constructible : bool;
  is_copy_constructible : bool;
  sizeof_T : Z;
  sizeof_T_pos : 0 < sizeof_T
}.

Section Vector.

Context {T : Type} `{!Element T}.

(** ** Store *)

Inductive slot :=
| Raw                    (* uninitialised storage *)
| Obj (v : T).           (* a constructed element holding [v] *)

(** Calls of the element type's special member functions. *)
Inductive event :=
| Construct (p : ptr) (v : T)       (* new (p) T(args...) *)
| ValueConstruct (p : ptr)          (* new (p) T() *)
| CopyConstruct (dst src : ptr)     (* copy constructor at dst, from src *)
| MoveConstruct (dst src : ptr)     (* move constructor at dst, from src *)
| CopyAssign (dst src : ptr)        (* copy assignment dst := src *)
| MoveAssign (dst src : ptr)        (* move assignment dst := src *)
| Destroy (p : ptr).                (* destructor of the object at p *)

Record RawMemory := mkRawMemory { buffer_ : ptr; capacity_ : Z }.
Record Vector := mkVector { data_ : RawMemory; size_ : Z }.

Record state := mkState {
  objs : gmap objid Vector;
  heap : gmap addr (list slot);
  trace : list event
}.

Definition set_objs (f : gmap objid Vector → gmap objid Vector) (σ : state) : state :=
  mkState (f (objs σ)) (heap σ) (trace σ).
Definition set_heap (f : gmap addr (list slot) → gmap addr (list slot)) (σ : state) : state :=
  mkState (objs σ) (f (heap σ)) (trace σ).
Definition add_event (e : event) (σ : state) : state :=
  mkState (objs σ) (heap σ) (trace σ ++ [e]).

Definition empty_state : state := mkState ∅ ∅ [].

(** ** The monad of C++ statements: a state transformer that may fail *)

Inductive result (A : Type) :=
| Ok (a : A) (σ : state)
| Err (e : error).
Arguments Ok {A} a σ.
Arguments Err {A} e.

Definition M (A : Type) : Type := state → result A.

Definition ret {A} (a : A) : M A := λ σ, Ok a σ.
Definition bind {A B} (m : M A) (k : A → M B) : M B :=
  λ σ, match m σ with
       | Ok a σ' => k a σ'
       | Err e => Err e
       end.
Definition fail {A} (e : error) : M A := λ _, Err e.
Definition modify (f : state → state) : M unit := λ σ, Ok tt (f σ).
Definition assert (b : bool) : M unit :=
  if b then ret tt else fail AssertionFailed.

Notation "x ← y ; z" := (bind y (λ x : _, z))
  (at level 20, y at level 100, z at level 200, only parsing) : M_scope.
Notation "x ;; z" := (bind x (λ _, z))
  (at level 100, z at level 200, only parsing, right associativity) : M_scope.
Local Open Scope M_scope.

(** ** Slots of the free store *)

Definition load (h : gmap addr (list slot)) (p : ptr) : option slot :=
  match base p with
  | Some a =>
      match h !! a with
      | Some blk => if decide (0 ≤ off p) then blk !! Z.to_nat (off p) else None
      | None => None
      end
  | None => None
  end.

Definition store (p : ptr) (s : slot) (h : gmap addr (list slot)) : gmap addr (list slot) :=
  match base p with
  | Some a => alter (λ blk, <[Z.to_nat (off p) := s]> blk) a h
  | None => h
  end.

(** Reading or writing a slot that is not inside a live block is undefined. *)
Definition read_slot (p : ptr) : M slot :=
  λ σ, match load (heap σ) p with
       | Some s => Ok s σ
       | None => Err UndefinedBehaviour
       end.

Definition write_slot (p : ptr) (s : slot) : M unit :=
  λ σ, match load (heap σ) p with
       | Some _ => Ok tt (set_heap (store p s) σ)
       | None => Err UndefinedBehaviour
       end.

(** The value of the object at [p]; raw storage holds no object. *)
Definition read_obj (p : ptr) : M T :=
  s ← read_slot p;
  match s with
  | Obj v => ret v
  | Raw => fail UndefinedBehaviour
  end.

(** ** The element type's operations on storage *)

(** [new (p) T(args...)], where the constructor call yields [v]. *)
Definition construct_at (p : ptr) (v : T) : M unit :=
  write_slot p (Obj v);; modify (add_event (Construct p v)).

Definition value_construct_at (p : ptr) : M unit :=
  write_slot p (Obj value_init);; modify (add_event (ValueConstruct p)).

Definition copy_construct_at (dst src : ptr) : M unit :=
  v ← read_obj src;
  write_slot dst (Obj v);;
  modify (add_event (CopyConstruct dst src)).

Definition move_construct_at (dst src : ptr) : M unit :=
  v ← read_obj src;
  write_slot src (Obj (moved_from v));;
  write_slot dst (Obj v);;
  modify (add_event (MoveConstruct dst src)).

Definition copy_assign_at (dst src : ptr) : M unit :=
  v ← read_obj src;
  _ ← read_obj dst;
  write_slot dst (Obj v);;
  modify (add_event (CopyAssign dst src)).

Definition move_assign_at (dst src : ptr) : M unit :=
  v ← read_obj src;
  _ ← read_obj dst;
  write_slot src (Obj (moved_from v));;
  write_slot dst (Obj v);;
  modify (add_event (MoveAssign dst src)).

Definition destroy_at (p : ptr) : M unit :=
  _ ← read_obj p;
  write_slot p Raw;;
  modify (add_event (Destroy p)).

(** ** The <memory> and <algorithm> functions used by vector.h *)

Fixpoint uninitialized_value_construct_n (first : ptr) (n : nat) : M unit :=
  match n with
  | O => ret tt
  | S k => value_construct_at first;;
           uninitialized_value_construct_n (ptr_add first 1) k
  end.

Fixpoint uninitialized_copy_n (first : ptr) (n : nat) (d_first : ptr) : M unit :=
  match n with
  | O => ret tt
  | S k => copy_construct_at d_first first;;
           uninitialized_copy_n (ptr_add first 1) k (ptr_add d_first 1)
  end.

Fixpoint uninitialized_move_n (first : ptr) (n : nat) (d_first : ptr) : M unit :=
  match n with
  | O => ret tt
  | S k => move_construct_at d_first first;;
           uninitialized_move_n (ptr_add first 1) k (ptr_add d_first 1)
  end.

Fixpoint destroy_n (first : ptr) (n : nat) : M unit :=
  match n with
  | O => ret tt
  | S k => destroy_at first;; destroy_n (ptr_add first 1) k
  end.

(** [last - first] for two pointers into the same array. *)
Definition ptr_diff (last first : ptr) : M Z :=
  if decide (base last = base first) then ret (off last - off first)
  else fail UndefinedBehaviour.

(** The number of steps of a loop [while (first != last) ++first]: the
    range must not be reversed. *)
Definition distance (first last : ptr) : M nat :=
  d ← ptr_diff last first;
  if decide (0 ≤ d) then ret (Z.to_nat d) else fail UndefinedBehaviour.

Fixpoint copy_loop (first : ptr) (n : nat) (d_first : ptr) : M unit :=
  match n with
  | O => ret tt
  | S k => copy_assign_at d_first first;;
           copy_loop (ptr_add first 1) k (ptr_add d_first 1)
  end.

(** [std::copy(first, last, d_first)] *)
Definition std_copy (first last d_first : ptr) : M unit :=
  n ← distance first last; copy_loop first n d_first.

Fixpoint move_loop (first : ptr) (n : nat) (d_first : ptr) : M unit :=
  match n with
  | O => ret tt
  | S k => move_assign_at d_first first;;
           move_loop (ptr_add first 1) k (ptr_add d_first 1)
  end.

(** [std::move(first, last, d_first)] *)
Definition std_move (first last d_first : ptr) : M unit :=
  n ← distance first last; move_loop first n d_first.

(** The loop of [std::move_backward]: while [first != last], step both
    [last] and [d_last] back and move-assign the former's element to the
    latter's. *)
Fixpoint move_backward_loop (last : ptr) (n : nat) (d_last : ptr) : M unit :=
  match n with
  | O => ret tt
  | S k => move_assign_at (ptr_add d_last (-1)) (ptr_add last (-1));;
           move_backward_loop (ptr_add last (-1)) k (ptr_add d_last (-1))
  end.

(** [std::move_backward(first, last, d_last)] *)
Definition std_move_backward (first last d_last : ptr) : M unit :=
  n ← distance first last; move_backward_loop last n d_last.

(** ** RawMemory<T> *)

(** [operator new]: a fresh block of [n] raw slots, unless the request
    exceeds what any object may occupy.  The request is counted in
    elements, not in bytes: see the remark on storage at the head of the
    file. *)
Definition operator_new (n : Z) : M ptr :=
  λ σ, if decide (n ≤ PTRDIFF_MAX)
       then let a := fresh (dom (heap σ)) in
            Ok (Ptr (Some a) 0)
               (set_heap (insert a (replicate (Z.to_nat n) Raw)) σ)
       else Err BadAlloc.

(** [operator delete]: a no-op on a null pointer, otherwise the pointer
    must be the start of a live block. *)
Definition operator_delete (buf : ptr) : M unit :=
  match base buf with
  | None => if decide (off buf = 0) then ret tt else fail UndefinedBehaviour
  | Some a =>
      λ σ, match heap σ !! a with
           | Some _ => if decide (off buf = 0)
                       then Ok tt (set_heap (delete a) σ)
                       else Err UndefinedBehaviour
           | None => Err UndefinedBehaviour
           end
  end.

(** [Allocate(n)]: storage for [n] elements, null when [n] is 0. *)
Definition Allocate (n : Z) : M ptr :=
  if decide (n ≠ 0) then operator_new n else ret nullptr.

(** [Deallocate(buf)] *)
Definition Deallocate (buf : ptr) : M unit := operator_delete buf.

(** [RawMemory() = default] *)
Definition RawMemory_default : RawMemory := mkRawMemory nullptr 0.

(** [explicit RawMemory(size_t capacity)] *)
Definition RawMemory_new (capacity : Z) : M RawMemory :=
  b ← Allocate capacity; ret (mkRawMemory b capacity).

(** [RawMemory(RawMemory&& other)]: the constructed object and what is
    left in [other]. *)
Definition RawMemory_move_ctor (other : RawMemory) : RawMemory * RawMemory :=
  (mkRawMemory (buffer_ other) (capacity_ other), mkRawMemory nullptr 0).

(** [operator=(RawMemory&& rhs)] on two distinct objects: the new value of
    the assigned object and what is left in [rhs].  The buffer the
    assigned object held before is overwritten, not released. *)
Definition RawMemory_move_assign (this rhs : RawMemory) : RawMemory * RawMemory :=
  (mkRawMemory (buffer_ rhs) (capacity_ rhs), mkRawMemory nullptr 0).

(** [~RawMemory()] *)
Definition RawMemory_dtor (this : RawMemory) : M unit :=
  Deallocate (buffer_ this).

(** [T* operator+(size_t offset)] *)
Definition RawMemory_plus (this : RawMemory) (offset : Z) : M ptr :=
  assert (bool_decide (offset ≤ capacity_ this));;
  ret (ptr_add (buffer_ this) offset).

(** [T& operator[](size_t index)]: the reference is the slot's address. *)
Definition RawMemory_index (this : RawMemory) (index : Z) : M ptr :=
  assert (bool_decide (index < capacity_ this));;
  ret (ptr_add (buffer_ this) index).

(** [Swap(RawMemory& other)]: the new values of [*this] and of [other]. *)
Definition RawMemory_Swap (this other : RawMemory) : RawMemory * RawMemory :=
  (mkRawMemory (buffer_ other) (capacity_ other),
   mkRawMemory (buffer_ this) (capacity_ this)).

(** [GetAddress()] *)
Definition GetAddress (this : RawMemory) : ptr := buffer_ this.

(** ** Vector<T>: access to the object store *)

(** The object a reference designates; a reference to no object is not
    usable. *)
Definition get_obj (this : objid) : M Vector :=
  λ σ, match objs σ !! this with
       | Some v => Ok v σ
       | None => Err UndefinedBehaviour
       end.

(** A constructor runs on storage that holds no object yet. *)
Definition new_obj (this : objid) (v : Vector) : M unit :=
  λ σ, match objs σ !! this with
       | None => Ok tt (set_objs (insert this v) σ)
       | Some _ => Err UndefinedBehaviour
       end.

(** Assignments to the members [data_] and [size_], and the end of an
    object's lifetime. *)
Definition set_data (this : objid) (d : RawMemory) : M unit :=
  v ← get_obj this;
  modify (set_objs (insert this (mkVector d (size_ v)))).

Definition set_size (this : objid) (n : Z) : M unit :=
  v ← get_obj this;
  modify (set_objs (insert this (mkVector (data_ v) n))).

Definition delete_obj (this : objid) : M unit :=
  _ ← get_obj this; modify (set_objs (delete this)).

(** ** Vector<T>: private helpers *)

(** [MoveElements]: the [if constexpr] on the two type traits selects
    [std::uninitialized_move_n] or [std::uninitialized_copy_n]; then the
    sources are destroyed with [std::destroy_n]. *)
Definition MoveElements (data_from_ptr : ptr) (elements_cnt : Z) (new_data_to_ptr : ptr)
  : M unit :=
  (if is_nothrow_move_constructible || negb is_copy_constructible
   then uninitialized_move_n data_from_ptr (Z.to_nat elements_cnt) new_data_to_ptr
   else uninitialized_copy_n data_from_ptr (Z.to_nat elements_cnt) new_data_to_ptr);;
  destroy_n data_from_ptr (Z.to_nat elements_cnt).

(** [begin()] and [end()] *)
Definition begin_ (v : Vector) : ptr := GetAddress (data_ v).
Definition end_ (v : Vector) : ptr := ptr_add (GetAddress (data_ v)) (size_ v).

(** [data_.Swap(new_data)] for a local [new_data]; returns the local's
    new value. *)
Definition data_Swap (this : objid) (new_data : RawMemory) : M RawMemory :=
  v ← get_obj this;
  let '(d, new_data') := RawMemory_Swap (data_ v) new_data in
  set_data this d;;
  ret new_data'.

(** [EmplaceWithReallocation(pos, args...)]; the local [new_data] is
    destroyed on return, after the swap. *)
Definition EmplaceWithReallocation (this : objid) (pos : ptr) (x : T) : M ptr :=
  v ← get_obj this;
  d ← ptr_diff pos (begin_ v);
  let current_pos := size_t d in
  new_data ← RawMemory_new (if decide (size_ v = 0) then 1 else size_t (size_ v * 2));
  new_elem ← RawMemory_plus new_data current_pos;
  construct_at new_elem x;;
  (if decide (size_ v > 0) then
     MoveElements (GetAddress (data_ v)) current_pos (GetAddress new_data);;
     MoveElements (ptr_add (GetAddress (data_ v)) current_pos)
                  (size_t (size_ v - current_pos))
                  (ptr_add (ptr_add (GetAddress new_data) current_pos) 1)
   else ret tt);;
  new_data ← data_Swap this new_data;
  v ← get_obj this;
  set_size this (size_t (size_ v + 1));;
  RawMemory_dtor new_data;;
  ret new_elem.

(** [EmplaceWithoutReallocation(pos, args...)]; [data_ + n] and
    [data_[n]] are the asserting operators of [RawMemory], while
    [begin() + current_pos - 1] and [end() - 1] are plain pointer
    arithmetic. *)
Definition EmplaceWithoutReallocation (this : objid) (pos : ptr) (x : T) : M ptr :=
  v ← get_obj this;
  d ← ptr_diff pos (begin_ v);
  let current_pos := size_t d in
  (if decide (size_ v > 0) then
     if decide (current_pos ≠ size_ v) then
       dst ← RawMemory_plus (data_ v) (size_ v);
       src ← RawMemory_index (data_ v) (size_t (size_ v - 1));
       move_construct_at dst src;;
       std_move_backward (ptr_add (ptr_add (begin_ v) current_pos) (-1))
                         (ptr_add (end_ v) (-1)) (end_ v);;
       p ← RawMemory_plus (data_ v) current_pos;
       destroy_at p
     else ret tt
   else ret tt);;
  new_elem ← RawMemory_plus (data_ v) current_pos;
  construct_at new_elem x;;
  v ← get_obj this;
  set_size this (size_t (size_ v + 1));;
  ret new_elem.

(** ** Vector<T>: public interface *)

(** [Vector()] *)
Definition Vector_default (this : objid) : M unit :=
  d ← RawMemory_new 0;
  new_obj this (mkVector d 0).

(** [explicit Vector(size_t size)] *)
Definition Vector_sized (this : objid) (size : Z) : M unit :=
  d ← RawMemory_new size;
  new_obj this (mkVector d size);;
  uninitialized_value_construct_n (GetAddress d) (Z.to_nat size).

(** [Vector(const Vector& other)] *)
Definition Vector_copy (this other : objid) : M unit :=
  o ← get_obj other;
  d ← RawMemory_new (size_ o);
  new_obj this (mkVector d (size_ o));;
  uninitialized_copy_n (GetAddress (data_ o)) (Z.to_nat (size_ o)) (GetAddress d).

(** [Vector(Vector&& other)]: [data_] is default-initialised, [size_] is
    copied, then [data_] is move-assigned from [other.data_]. *)
Definition Vector_move (this other : objid) : M unit :=
  o ← get_obj other;
  new_obj this (mkVector RawMemory_default (size_ o));;
  v ← get_obj this;
  o ← get_obj other;
  let '(d, od) := RawMemory_move_assign (data_ v) (data_ o) in
  set_data this d;;
  set_data other od.

(** [~Vector()], followed by the destructor of the member [data_]. *)
Definition Vector_dtor (this : objid) : M unit :=
  v ← get_obj this;
  (if decide (GetAddress (data_ v) ≠ nullptr)
   then destroy_n (GetAddress (data_ v)) (Z.to_nat (size_ v))
   else ret tt);;
  RawMemory_dtor (data_ v);;
  delete_obj this.

(** [Size()] and [Capacity()] *)
Definition Size (this : objid) : M Z :=
  v ← get_obj this; ret (size_ v).

Definition Capacity (this : objid) : M Z :=
  v ← get_obj this; ret (capacity_ (data_ v)).

(** [T& operator[](size_t index)], read through: the element's value. *)
Definition at_ (this : objid) (index : Z) : M T :=
  v ← get_obj this;
  assert (bool_decide (index < size_ v));;
  p ← RawMemory_index (data_ v) index;
  read_obj p.

(** [Swap(Vector& other)]: the buffers, then the sizes. *)
Definition Swap (this other : objid) : M unit :=
  v ← get_obj this;
  o ← get_obj other;
  let '(d, od) := RawMemory_Swap (data_ v) (data_ o) in
  set_data this d;;
  set_data other od;;
  v ← get_obj this;
  o ← get_obj other;
  set_size this (size_ o);;
  set_size other (size_ v).

(** [operator=(const Vector& rhs)]; [rhs_copy] is a local object, built in
    storage that no other object occupies and destroyed at the end of its
    block. *)
Definition copy_assign (this rhs : objid) : M unit :=
  if decide (this ≠ rhs) then
    v ← get_obj this;
    r ← get_obj rhs;
    if decide (size_ r > capacity_ (data_ v)) then
      rhs_copy ← (λ σ, Ok (fresh (dom (objs σ))) σ);
      Vector_copy rhs_copy rhs;;
      Swap this rhs_copy;;
      Vector_dtor rhs_copy
    else
      std_copy (GetAddress (data_ r))
               (ptr_add (GetAddress (data_ r)) (Z.min (size_ v) (size_ r)))
               (GetAddress (data_ v));;
      (if decide (size_ r > size_ v) then
         uninitialized_copy_n (ptr_add (GetAddress (data_ r)) (size_ v))
                              (Z.to_nat (size_t (size_ r - size_ v)))
                              (ptr_add (GetAddress (data_ v)) (size_ v))
       else
         destroy_n (ptr_add (GetAddress (data_ v)) (size_ r))
                   (Z.to_nat (size_t (size_ v - size_ r))));;
      set_size this (size_ r)
  else ret tt.

(** [operator=(Vector&& rhs)].  [std::exchange(rhs.data_, {})] move-constructs
    [old_value] from [rhs.data_], move-assigns a default-constructed
    temporary to [rhs.data_] and returns [old_value], which is then
    move-assigned to [data_]; both temporaries are destroyed at the end of
    the full expression. *)
Definition move_assign (this rhs : objid) : M unit :=
  r ← get_obj rhs;
  let '(old_value, rd) := RawMemory_move_ctor (data_ r) in
  set_data rhs rd;;
  r ← get_obj rhs;
  let '(rd, new_value) := RawMemory_move_assign (data_ r) RawMemory_default in
  set_data rhs rd;;
  v ← get_obj this;
  let '(d, old_value) := RawMemory_move_assign (data_ v) old_value in
  set_data this d;;
  RawMemory_dtor old_value;;
  RawMemory_dtor new_value;;
  r ← get_obj rhs;
  set_size this (size_ r).

(** [Reserve(new_capacity)]; the local [new_data] holds the old buffer
    after the swap and releases it on return. *)
Definition Reserve (this : objid) (new_capacity : Z) : M unit :=
  v ← get_obj this;
  if decide (new_capacity ≤ capacity_ (data_ v)) then ret tt
  else
    new_data ← RawMemory_new new_capacity;
    MoveElements (GetAddress (data_ v)) (size_ v) (GetAddress new_data);;
    new_data ← data_Swap this new_data;
    RawMemory_dtor new_data.

(** [Resize(new_size)] *)
Definition Resize (this : objid) (new_size : Z) : M unit :=
  v ← get_obj this;
  (if decide (new_size < size_ v) then
     destroy_n (ptr_add (GetAddress (data_ v)) new_size)
               (Z.to_nat (size_t (size_ v - new_size)))
   else if decide (new_size > size_ v) then
     Reserve this new_size;;
     v ← get_obj this;
     uninitialized_value_construct_n (ptr_add (GetAddress (data_ v)) (size_ v))
                                     (Z.to_nat (size_t (new_size - size_ v)))
   else ret tt);;
  set_size this new_size.

(** [PopBack()]: the address is computed from [GetAddress()] with plain
    pointer arithmetic; there is no assertion. *)
Definition PopBack (this : objid) : M unit :=
  v ← get_obj this;
  destroy_at (ptr_add (ptr_add (GetAddress (data_ v)) (size_ v)) (-1));;
  v ← get_obj this;
  set_size this (size_t (size_ v - 1)).

(** [Emplace(pos, args...)].  The code reads [args] when the constructor
    runs; [x] is the value that [T(args...)] then constructs.  For
    arguments that do not refer to an element of the vector it is the
    value they have at the call. *)
Definition Emplace (this : objid) (pos : ptr) (x : T) : M ptr :=
  v ← get_obj this;
  if decide (size_ v = capacity_ (data_ v))
  then EmplaceWithReallocation this pos x
  else EmplaceWithoutReallocation this pos x.

(** [EmplaceBack(args...)], [PushBack(value)] and [Insert(pos, value)]
    forward to [Emplace]. *)
Definition EmplaceBack (this : objid) (x : T) : M ptr :=
  v ← get_obj this; Emplace this (end_ v) x.

Definition PushBack (this : objid) (value : T) : M unit :=
  _ ← EmplaceBack this value; ret tt.

Definition Insert (this : objid) (pos : ptr) (value : T) : M ptr :=
  Emplace this pos value.

(** [Erase(pos)] *)
Definition Erase (this : objid) (pos : ptr) : M ptr :=
  v ← get_obj this;
  d ← ptr_diff pos (begin_ v);
  let current_pos := ptr_add (begin_ v) d in
  std_move (ptr_add current_pos 1) (end_ v) current_pos;;
  PopBack this;;
  ret current_pos.

(** [begin() + p] *)
Definition iter (this : objid) (p : Z) : M ptr :=
  v ← get_obj this; ret (ptr_add (begin_ v) p).

(** ** Specification vocabulary *)

(** The address of slot [i] of block [a]. *)
Definition slot_ptr (a : addr) (i : nat) : ptr := Ptr (Some a) (Z.of_nat i).

(** The block of a vector holding the values [vs] with capacity [cap]:
    live elements first, raw storage after them. *)
Definition block_of (vs : list T) (cap : Z) : list slot :=
  (Obj <$> vs) ++ replicate (Z.to_nat cap - length vs)%nat Raw.

(** The buffer of capacity [cap] is null when [cap] is 0, and otherwise
    the start of a live block with content [blk]. *)
Definition owns (h : gmap addr (list slot)) (buf : ptr) (cap : Z) (blk : list slot) : Prop :=
  if decide (cap = 0) then buf = nullptr
  else ∃ a, buf = Ptr (Some a) 0 ∧ h !! a = Some blk.

(** The data-model invariant: the object [this] is a vector with buffer
    [buf] and capacity [cap] whose live elements are [vs]. *)
Definition vector_at (σ : state) (this : objid) (buf : ptr) (vs : list T) (cap : Z) : Prop :=
  objs σ !! this = Some (mkVector (mkRawMemory buf cap) (Z.of_nat (length vs)))
  ∧ Z.of_nat (length vs) ≤ cap ≤ PTRDIFF_MAX
  ∧ owns (heap σ) buf cap (block_of vs cap).

(** The same, whatever the buffer is. *)
Definition is_vector (σ : state) (this : objid) (vs : list T) (cap : Z) : Prop :=
  ∃ buf, vector_at σ this buf vs cap.

(** Reading index [i] of [this] through [operator[]] yields [v] and
    changes nothing. *)
Definition element_at (σ : state) (this : objid) (i : nat) (v : T) : Prop :=
  at_ this (Z.of_nat i) σ = Ok v σ.

(** Two buffers do not share a block. *)
Definition separate (buf1 buf2 : ptr) : Prop :=
  base buf1 = base buf2 → base buf1 = None.

(** The events of relocating [n] elements from [first] to [d_first] one
    by one in index order, each with the member function [mk]. *)
Fixpoint relocate_events (mk : ptr → ptr → event) (first : ptr) (n : nat) (d_first : ptr)
  : list event :=
  match n with
  | O => []
  | S k => mk d_first first :: relocate_events mk (ptr_add first 1) k (ptr_add d_first 1)
  end.

(** The events of [std::destroy_n] and of
    [std::uninitialized_value_construct_n]. *)
Fixpoint destroy_events (first : ptr) (n : nat) : list event :=
  match n with
  | O => []
  | S k => Destroy first :: destroy_events (ptr_add first 1) k
  end.

Fixpoint value_construct_events (first : ptr) (n : nat) : list event :=
  match n with
  | O => []
  | S k => ValueConstruct first :: value_construct_events (ptr_add first 1) k
  end.

(** Which member function [MoveElements] relocates with. *)
Definition relocation : ptr → ptr → event :=
  if is_nothrow_move_constructible || negb is_copy_constructible
  then MoveConstruct else CopyConstruct.

(** The capacity that an insertion into a full vector of [n] elements
    asks for. *)
Definition grown (n : Z) : Z := if decide (n = 0) then 1 else 2 * n.

End Vector.

Arguments Ok {T A} a σ.
Arguments Err {T A} e.

Notation "x ← y ; z" := (bind y (λ x : _, z))
  (at level 20, y at level 100, z at level 200, only parsing) : M_scope.
Notation "x ;; z" := (bind x (λ _, z))
  (at level 100, z at level 200, only parsing, right associativity) : M_scope.

Local Open Scope M_scope.

(** * Element types and programs used as concrete inputs *)

(** [int]: trivially copyable; a move leaves the source as it was. *)
#[global] Instance int_element : Element Z :=
  {| moved_from := λ n, n;
     value_init := 0;
     is_nothrow_move_constructible := true;
     is_copy_constructible := true;
     sizeof_T := 4;
     sizeof_T_pos := eq_refl |}.

(** [std::unique_ptr<int>], as the pointee it owns: a move leaves the
    source null, and the type cannot be copied. *)
Inductive unique_ptr := Null | Owner (n : Z).

#[global] Instance unique_ptr_element : Element unique_ptr :=
  {| moved_from := λ _, Null;
     value_init := Null;
     is_nothrow_move_constructible := true;
     is_copy_constructible := false;
     sizeof_T := 8;
     sizeof_T_pos := eq_refl |}.

(** A type whose move constructor may throw and whose copy constructor
    exists. *)
Inductive legacy := Legacy (n : Z).

#[global] Instance legacy_element : Element legacy :=
  {| moved_from := λ x, x;
     value_init := Legacy 0;
     is_nothrow_move_constructible := false;
     is_copy_constructible := true;
     sizeof_T := 8;
     sizeof_T_pos := eq_refl |}.

(** What a run returns, and the state it ends in. *)
Definition outcome {T A} (r : @result T A) : A + error :=
  match r with
  | Ok a _ => inl a
  | Err e => inr e
  end.

(** The pointer a run returns; null when it fails. *)
Definition outcome_ptr {T} (r : @result T ptr) : ptr :=
  match r with
  | Ok q _ => q
  | Err _ => nullptr
  end.

Definition final {T A} (r : @result T A) : @state T :=
  match r with
  | Ok _ σ => σ
  | Err _ => empty_state
  end.

Definition v1 : objid := 1%positive.
Definition v2 : objid := 2%positive.

(** The starts of the first three blocks that [operator new] hands out. *)
Definition block1 : ptr := slot_ptr 1%positive 0.
Definition block2 : ptr := slot_ptr 2%positive 0.
Definition block3 : ptr := slot_ptr 3%positive 0.

(** [Vector<int> v1; v1.PushBack(1); v1.PushBack(2);]: size 2, capacity 2. *)
Definition two_ints : @state Z :=
  final ((Vector_default v1;; PushBack v1 1;; PushBack v1 2) empty_state).

(** [two_ints], then [Vector<int> v2(3);] *)
Definition two_vectors : @state Z :=
  final (Vector_sized v2 3 two_ints).

(** [Vector<int> v1(1);] *)
Definition one_int : @state Z :=
  final (Vector_sized v1 1 empty_state).

(** [Vector<int> v1;] *)
Definition empty_vector : @state Z :=
  final (Vector_default v1 empty_state).

(** [Vector<int> v1(1); Vector<int> v2(std::move(v1));] *)
Definition moved_out : @M Z unit :=
  Vector_sized v1 1;; Vector_move v2 v1.

(** [Vector<int> v1; v1.Reserve(2); v1.PushBack(7);]: size 1, capacity 2. *)
Definition one_of_two : @M Z unit :=
  Vector_default v1;; Reserve v1 2;; PushBack v1 7.

(** A vector of two [unique_ptr] with capacity 4. *)
Definition two_of_four : @M unique_ptr unit :=
  Vector_default v1;; Reserve v1 4;;
  PushBack v1 (Owner 7);; PushBack v1 (Owner 8).

(** [Vector<int> v1; v1.Reserve(4); v1.PushBack(7); v1.PushBack(8);]:
    size 2, capacity 4. *)
Definition two_of_four_ints : @state Z :=
  final ((Vector_default v1;; Reserve v1 4;; PushBack v1 7;; PushBack v1 8)
           empty_state).

(** The first three live elements of [v1]. *)
Definition first_three {T} : @M T (list T) :=
  a ← at_ v1 0; b ← at_ v1 1; c ← at_ v1 2; ret [a; b; c].

Definition first_two {T} : @M T (list T) :=
  a ← at_ v1 0; b ← at_ v1 1; ret [a; b].

(** [for (const T& x : xs) v.PushBack(x);] *)
Fixpoint PushBack_all {T} `{!Element T} (this : objid) (xs : list T) : @M T unit :=
  match xs with
  | [] => ret tt
  | x :: xs' => PushBack this x;; PushBack_all this xs'
  end.


(** * Verification *)

Section VectorProofs.

Context {T : Type} `{!Element T}.

Implicit Types (σ : @state T) (h : gmap addr (list (@slot T))) (blk : list (@slot T)).
Implicit Types (vs ws : list T) (a b : addr) (i j k n : nat).

(** ** Running a sequence of statements *)

Lemma bind_ok {A B} (m : M A) (f : A → M B) σ x σ' :
  m σ = Ok x σ' → bind m f σ = f x σ'.
Proof. unfold bind. by intros ->. Qed.

Lemma bind_eq {A B} (m m' : M A) (f : A → M B) σ :
  m σ = m' σ → bind m f σ = bind m' f σ.
Proof. unfold bind. by intros ->. Qed.

Lemma bind_eq_fun {A B} (m : M A) (f g : A → M B) σ :
  (∀ x σ', f x σ' = g x σ') → bind m f σ = bind m g σ.
Proof. intros Hfg. unfold bind. by destruct (m σ). Qed.

Lemma bind_bind {A B C} (m : M A) (f : A → M B) (g : B → M C) σ :
  bind (bind m f) g σ = bind m (λ x, bind (f x) g) σ.
Proof. unfold bind. by destruct (m σ). Qed.

(** Lookups in a store after a run of insertions and deletions. *)
Ltac map_lookup :=
  repeat first
    [ rewrite lookup_insert_eq
    | rewrite lookup_insert_ne by done
    | rewrite lookup_delete_ne by done
    | rewrite delete_insert_eq
    | rewrite insert_insert_eq ].

Lemma state_eta σ : mkState (objs σ) (heap σ) (trace σ) = σ.
Proof. by destruct σ. Qed.

Lemma ptr_add_slot_ptr a i : ptr_add (slot_ptr a i) 1 = slot_ptr a (S i).
Proof. unfold ptr_add, slot_ptr. simpl. f_equal. lia. Qed.

Lemma ptr_add_slot_ptr_nat a i k :
  ptr_add (slot_ptr a i) (Z.of_nat k) = slot_ptr a (i + k).
Proof. unfold ptr_add, slot_ptr. simpl. f_equal. lia. Qed.

(** ** Slots *)

Lemma load_slot_ptr h a i blk :
  h !! a = Some blk → load h (slot_ptr a i) = blk !! i.
Proof.
  intros Ha. unfold load, slot_ptr. simpl. rewrite Ha.
  rewrite decide_True by lia. by rewrite Nat2Z.id.
Qed.

Lemma store_slot_ptr h a i blk s :
  h !! a = Some blk → store (slot_ptr a i) s h = <[a := <[i := s]> blk]> h.
Proof.
  intros Ha. unfold store, slot_ptr. simpl. rewrite Nat2Z.id.
  apply map_eq. intros k. destruct (decide (a = k)) as [->|Hne].
  - rewrite lookup_alter_eq, lookup_insert_eq, Ha. done.
  - by rewrite lookup_alter_ne, lookup_insert_ne.
Qed.

Lemma read_obj_ok σ a i blk v :
  heap σ !! a = Some blk → blk !! i = Some (Obj v) →
  read_obj (slot_ptr a i) σ = Ok v σ.
Proof.
  intros Ha Hi. unfold read_obj, bind, read_slot.
  by rewrite (load_slot_ptr _ _ _ _ Ha), Hi.
Qed.

Lemma write_slot_ok σ a i blk s :
  heap σ !! a = Some blk → (i < length blk)%nat →
  write_slot (slot_ptr a i) s σ =
    Ok tt (mkState (objs σ) (<[a := <[i := s]> blk]> (heap σ)) (trace σ)).
Proof.
  intros Ha Hi. unfold write_slot. rewrite (load_slot_ptr _ _ _ _ Ha).
  destruct (lookup_lt_is_Some_2 blk i Hi) as [s0 ->].
  unfold set_heap. by rewrite (store_slot_ptr _ _ _ _ _ Ha).
Qed.

(** ** Element operations *)

Lemma construct_at_ok σ a i blk v :
  heap σ !! a = Some blk → (i < length blk)%nat →
  construct_at (slot_ptr a i) v σ =
    Ok tt (mkState (objs σ) (<[a := <[i := Obj v]> blk]> (heap σ))
                   (trace σ ++ [Construct (slot_ptr a i) v])).
Proof.
  intros Ha Hi. unfold construct_at.
  rewrite (bind_ok _ _ _ _ _ (write_slot_ok _ _ _ _ _ Ha Hi)). done.
Qed.

Lemma value_construct_at_ok σ a i blk :
  heap σ !! a = Some blk → (i < length blk)%nat →
  value_construct_at (slot_ptr a i) σ =
    Ok tt (mkState (objs σ) (<[a := <[i := Obj value_init]> blk]> (heap σ))
                   (trace σ ++ [ValueConstruct (slot_ptr a i)])).
Proof.
  intros Ha Hi. unfold value_construct_at.
  rewrite (bind_ok _ _ _ _ _ (write_slot_ok _ _ _ _ _ Ha Hi)). done.
Qed.

Lemma destroy_at_ok σ a i blk v :
  heap σ !! a = Some blk → blk !! i = Some (Obj v) →
  destroy_at (slot_ptr a i) σ =
    Ok tt (mkState (objs σ) (<[a := <[i := Raw]> blk]> (heap σ))
                   (trace σ ++ [Destroy (slot_ptr a i)])).
Proof.
  intros Ha Hi. unfold destroy_at.
  rewrite (bind_ok _ _ _ _ _ (read_obj_ok _ _ _ _ _ Ha Hi)).
  rewrite (bind_ok _ _ _ _ _ (write_slot_ok _ _ _ _ _ Ha (lookup_lt_Some _ _ _ Hi))).
  done.
Qed.

Lemma copy_construct_at_ok σ a i b j blkA blkB v :
  heap σ !! a = Some blkA → blkA !! i = Some (Obj v) →
  heap σ !! b = Some blkB → (j < length blkB)%nat →
  copy_construct_at (slot_ptr b j) (slot_ptr a i) σ =
    Ok tt (mkState (objs σ) (<[b := <[j := Obj v]> blkB]> (heap σ))
                   (trace σ ++ [CopyConstruct (slot_ptr b j) (slot_ptr a i)])).
Proof.
  intros Ha Hi Hb Hj. unfold copy_construct_at.
  rewrite (bind_ok _ _ _ _ _ (read_obj_ok _ _ _ _ _ Ha Hi)).
  rewrite (bind_ok _ _ _ _ _ (write_slot_ok _ _ _ _ _ Hb Hj)). done.
Qed.

Lemma move_construct_at_ok σ a i b j blkA blkB v :
  a ≠ b →
  heap σ !! a = Some blkA → blkA !! i = Some (Obj v) →
  heap σ !! b = Some blkB → (j < length blkB)%nat →
  move_construct_at (slot_ptr b j) (slot_ptr a i) σ =
    Ok tt (mkState (objs σ)
                   (<[b := <[j := Obj v]> blkB]>
                      (<[a := <[i := Obj (moved_from v)]> blkA]> (heap σ)))
                   (trace σ ++ [MoveConstruct (slot_ptr b j) (slot_ptr a i)])).
Proof.
  intros Hab Ha Hi Hb Hj. unfold move_construct_at.
  rewrite (bind_ok _ _ _ _ _ (read_obj_ok _ _ _ _ _ Ha Hi)).
  rewrite (bind_ok _ _ _ _ _ (write_slot_ok _ _ _ _ _ Ha (lookup_lt_Some _ _ _ Hi))).
  erewrite bind_ok;
    last (apply write_slot_ok; simpl; [by rewrite lookup_insert_ne | done]).
  done.
Qed.

Lemma copy_assign_at_ok σ a i b j blkA blkB v w :
  heap σ !! a = Some blkA → blkA !! i = Some (Obj v) →
  heap σ !! b = Some blkB → blkB !! j = Some (Obj w) →
  copy_assign_at (slot_ptr b j) (slot_ptr a i) σ =
    Ok tt (mkState (objs σ) (<[b := <[j := Obj v]> blkB]> (heap σ))
                   (trace σ ++ [CopyAssign (slot_ptr b j) (slot_ptr a i)])).
Proof.
  intros Ha Hi Hb Hj. unfold copy_assign_at.
  rewrite (bind_ok _ _ _ _ _ (read_obj_ok _ _ _ _ _ Ha Hi)).
  rewrite (bind_ok _ _ _ _ _ (read_obj_ok _ _ _ _ _ Hb Hj)).
  rewrite (bind_ok _ _ _ _ _ (write_slot_ok _ _ _ _ _ Hb (lookup_lt_Some _ _ _ Hj))).
  done.
Qed.

(** ** The range algorithms between two distinct blocks *)

Lemma uninitialized_copy_n_ok vs : ∀ σ a i b j blkA blkB,
  a ≠ b → heap σ !! a = Some blkA → heap σ !! b = Some blkB →
  (∀ k v, vs !! k = Some v → blkA !! (i + k)%nat = Some (Obj v)) →
  (j + length vs ≤ length blkB)%nat →
  uninitialized_copy_n (slot_ptr a i) (length vs) (slot_ptr b j) σ =
    Ok tt (mkState (objs σ)
             (<[b := list_inserts j (Obj <$> vs) blkB]> (heap σ))
             (trace σ ++ relocate_events CopyConstruct
                           (slot_ptr a i) (length vs) (slot_ptr b j))).
Proof.
  induction vs as [|v vs IH]; intros σ a i b j blkA blkB Hab Ha Hb Hsrc Hlen; simpl.
  - unfold ret. by rewrite insert_id, app_nil_r, state_eta.
  - assert (blkA !! i = Some (Obj v)) as Hi.
    { rewrite <- (Hsrc 0%nat v eq_refl). f_equal. lia. }
    simpl in Hlen.
    rewrite (bind_ok _ _ _ _ _
               (copy_construct_at_ok _ a i b j blkA blkB v Ha Hi Hb ltac:(lia))).
    rewrite !ptr_add_slot_ptr.
    rewrite (IH _ a (S i) b (S j) blkA (<[j := Obj v]> blkB)); simpl.
    + rewrite insert_insert_eq, list_insert_inserts_lt by lia.
      by rewrite <- app_assoc.
    + done.
    + by rewrite lookup_insert_ne.
    + by rewrite lookup_insert_eq.
    + intros k w Hk. rewrite <- (Hsrc (S k) w Hk). f_equal. lia.
    + rewrite length_insert. lia.
Qed.

Lemma uninitialized_move_n_ok vs : ∀ σ a i b j blkA blkB,
  a ≠ b → heap σ !! a = Some blkA → heap σ !! b = Some blkB →
  (∀ k v, vs !! k = Some v → blkA !! (i + k)%nat = Some (Obj v)) →
  (j + length vs ≤ length blkB)%nat →
  uninitialized_move_n (slot_ptr a i) (length vs) (slot_ptr b j) σ =
    Ok tt (mkState (objs σ)
             (<[b := list_inserts j (Obj <$> vs) blkB]>
                (<[a := list_inserts i (Obj <$> (moved_from <$> vs)) blkA]> (heap σ)))
             (trace σ ++ relocate_events MoveConstruct
                           (slot_ptr a i) (length vs) (slot_ptr b j))).
Proof.
  induction vs as [|v vs IH]; intros σ a i b j blkA blkB Hab Ha Hb Hsrc Hlen; simpl.
  - unfold ret. rewrite (insert_id (heap σ) a) by done.
    by rewrite insert_id, app_nil_r, state_eta.
  - assert (blkA !! i = Some (Obj v)) as Hi.
    { rewrite <- (Hsrc 0%nat v eq_refl). f_equal. lia. }
    simpl in Hlen.
    rewrite (bind_ok _ _ _ _ _
               (move_construct_at_ok _ a i b j blkA blkB v Hab Ha Hi Hb ltac:(lia))).
    rewrite !ptr_add_slot_ptr.
    rewrite (IH _ a (S i) b (S j) (<[i := Obj (moved_from v)]> blkA)
                (<[j := Obj v]> blkB)); simpl.
    + rewrite (insert_insert_ne _ a b) by done.
      rewrite !insert_insert_eq.
      rewrite !list_insert_inserts_lt by lia.
      by rewrite <- app_assoc.
    + done.
    + rewrite lookup_insert_ne by done. by rewrite lookup_insert_eq.
    + by rewrite lookup_insert_eq.
    + intros k w Hk. rewrite list_lookup_insert_ne by lia.
      rewrite <- (Hsrc (S k) w Hk). f_equal. lia.
    + rewrite length_insert. lia.
Qed.

Lemma copy_loop_ok vs : ∀ σ a i b j blkA blkB,
  a ≠ b → heap σ !! a = Some blkA → heap σ !! b = Some blkB →
  (∀ k v, vs !! k = Some v → blkA !! (i + k)%nat = Some (Obj v)) →
  (∀ k, (k < length vs)%nat → ∃ w, blkB !! (j + k)%nat = Some (Obj w)) →
  copy_loop (slot_ptr a i) (length vs) (slot_ptr b j) σ =
    Ok tt (mkState (objs σ)
             (<[b := list_inserts j (Obj <$> vs) blkB]> (heap σ))
             (trace σ ++ relocate_events CopyAssign
                           (slot_ptr a i) (length vs) (slot_ptr b j))).
Proof.
  induction vs as [|v vs IH]; intros σ a i b j blkA blkB Hab Ha Hb Hsrc Hdst; simpl.
  - unfold ret. by rewrite insert_id, app_nil_r, state_eta.
  - assert (blkA !! i = Some (Obj v)) as Hi.
    { rewrite <- (Hsrc 0%nat v eq_refl). f_equal. lia. }
    destruct (Hdst 0%nat ltac:(simpl; lia)) as [w Hj].
    rewrite Nat.add_0_r in Hj.
    rewrite (bind_ok _ _ _ _ _
               (copy_assign_at_ok _ a i b j blkA blkB v w Ha Hi Hb Hj)).
    rewrite !ptr_add_slot_ptr.
    rewrite (IH _ a (S i) b (S j) blkA (<[j := Obj v]> blkB)); simpl.
    + rewrite insert_insert_eq, list_insert_inserts_lt by lia.
      by rewrite <- app_assoc.
    + done.
    + by rewrite lookup_insert_ne.
    + by rewrite lookup_insert_eq.
    + intros k w' Hk. rewrite <- (Hsrc (S k) w' Hk). f_equal. lia.
    + intros k Hk. destruct (Hdst (S k) ltac:(simpl; lia)) as [w' Hw'].
      exists w'. rewrite list_lookup_insert_ne by lia.
      rewrite <- Hw'. f_equal. lia.
Qed.

(** ** The range algorithms inside one block *)

Lemma destroy_n_ok n : ∀ σ a i blk,
  heap σ !! a = Some blk →
  (∀ k, (k < n)%nat → ∃ w, blk !! (i + k)%nat = Some (Obj w)) →
  destroy_n (slot_ptr a i) n σ =
    Ok tt (mkState (objs σ)
             (<[a := list_inserts i (replicate n Raw) blk]> (heap σ))
             (trace σ ++ destroy_events (slot_ptr a i) n)).
Proof.
  induction n as [|n IH]; intros σ a i blk Ha Hobj; simpl.
  - unfold ret. by rewrite insert_id, app_nil_r, state_eta.
  - destruct (Hobj 0%nat ltac:(lia)) as [w Hi]. rewrite Nat.add_0_r in Hi.
    rewrite (bind_ok _ _ _ _ _ (destroy_at_ok _ a i blk w Ha Hi)).
    rewrite !ptr_add_slot_ptr.
    rewrite (IH _ a (S i) (<[i := Raw]> blk)); simpl.
    + rewrite insert_insert_eq, list_insert_inserts_lt by lia.
      by rewrite <- app_assoc.
    + by rewrite lookup_insert_eq.
    + intros k Hk. destruct (Hobj (S k) ltac:(lia)) as [w' Hw'].
      exists w'. rewrite list_lookup_insert_ne by lia.
      rewrite <- Hw'. f_equal. lia.
Qed.

Lemma uninitialized_value_construct_n_ok n : ∀ σ a i blk,
  heap σ !! a = Some blk → (i + n ≤ length blk)%nat →
  uninitialized_value_construct_n (slot_ptr a i) n σ =
    Ok tt (mkState (objs σ)
             (<[a := list_inserts i (replicate n (Obj value_init)) blk]> (heap σ))
             (trace σ ++ value_construct_events (slot_ptr a i) n)).
Proof.
  induction n as [|n IH]; intros σ a i blk Ha Hlen; simpl.
  - unfold ret. by rewrite insert_id, app_nil_r, state_eta.
  - rewrite (bind_ok _ _ _ _ _ (value_construct_at_ok _ a i blk Ha ltac:(lia))).
    rewrite !ptr_add_slot_ptr.
    rewrite (IH _ a (S i) (<[i := Obj value_init]> blk)); simpl.
    + rewrite insert_insert_eq, list_insert_inserts_lt by lia.
      by rewrite <- app_assoc.
    + by rewrite lookup_insert_eq.
    + rewrite length_insert. lia.
Qed.

(** ** Lists of slots *)

Lemma list_inserts_overwrite {A} (k1 k2 l : list A) i :
  length k1 = length k2 →
  list_inserts i k1 (list_inserts i k2 l) = list_inserts i k1 l.
Proof.
  intros Hlen. apply list_eq. intros x.
  destruct (decide (x < i)%nat).
  { by rewrite !list_lookup_inserts_lt by lia. }
  destruct (decide (i + length k1 ≤ x)%nat).
  { rewrite !list_lookup_inserts_ge by lia. done. }
  destruct (decide (x < length l)%nat).
  - rewrite !list_lookup_inserts by (rewrite ?length_inserts; lia). done.
  - rewrite !lookup_ge_None_2 by (rewrite ?length_inserts; lia). done.
Qed.

Lemma block_of_length vs cap :
  Z.of_nat (length vs) ≤ cap → length (block_of vs cap) = Z.to_nat cap.
Proof.
  intros. unfold block_of. rewrite length_app, length_fmap, length_replicate. lia.
Qed.

Lemma block_of_lookup_obj vs cap k v :
  vs !! k = Some v → block_of vs cap !! k = Some (Obj v).
Proof.
  intros Hk. unfold block_of.
  rewrite lookup_app_l by (rewrite length_fmap; eauto using lookup_lt_Some).
  by rewrite list_lookup_fmap, Hk.
Qed.

Lemma block_of_lookup_raw vs cap k :
  (length vs ≤ k)%nat → Z.of_nat k < cap → block_of vs cap !! k = Some Raw.
Proof.
  intros Hk Hcap. unfold block_of.
  rewrite lookup_app_r by (rewrite length_fmap; lia).
  rewrite length_fmap. apply lookup_replicate_2. lia.
Qed.

Lemma block_of_nil n : block_of (@nil T) (Z.of_nat n) = replicate n Raw.
Proof. unfold block_of. simpl. f_equal. lia. Qed.

(** Filling the start of raw storage yields the block of a vector. *)
Lemma relocated_block vs n :
  (length vs ≤ n)%nat →
  list_inserts 0 (Obj <$> vs) (replicate n Raw) = block_of vs (Z.of_nat n).
Proof.
  intros Hn. unfold block_of.
  replace n with (length (Obj <$> vs) + (n - length vs))%nat at 1
    by (rewrite length_fmap; lia).
  rewrite replicate_add.
  rewrite list_inserts_0_r by (by rewrite length_replicate).
  do 2 f_equal. lia.
Qed.

(** ** Free store and object store *)

Lemma fresh_block σ : heap σ !! fresh (dom (heap σ)) = None.
Proof. apply not_elem_of_dom, is_fresh. Qed.

Lemma fresh_block_ne σ a blk : heap σ !! a = Some blk → fresh (dom (heap σ)) ≠ a.
Proof. intros Ha Heq. rewrite <- Heq, fresh_block in Ha. done. Qed.

Lemma Allocate_zero σ : Allocate 0 σ = Ok nullptr σ.
Proof. done. Qed.

Lemma Allocate_ok σ (sz : Z) :
  0 < sz ≤ PTRDIFF_MAX →
  Allocate sz σ =
    Ok (slot_ptr (fresh (dom (heap σ))) 0)
       (mkState (objs σ)
          (<[fresh (dom (heap σ)) := replicate (Z.to_nat sz) Raw]> (heap σ))
          (trace σ)).
Proof.
  intros Hn. unfold Allocate, operator_new.
  rewrite decide_True by lia. rewrite decide_True by lia. done.
Qed.

Lemma Deallocate_null σ : Deallocate nullptr σ = Ok tt σ.
Proof. done. Qed.

Lemma Deallocate_ok σ a blk :
  heap σ !! a = Some blk →
  Deallocate (slot_ptr a 0) σ = Ok tt (mkState (objs σ) (delete a (heap σ)) (trace σ)).
Proof. intros Ha. unfold Deallocate, operator_delete. simpl. by rewrite Ha. Qed.

Lemma get_obj_ok σ this v : objs σ !! this = Some v → get_obj this σ = Ok v σ.
Proof. intros Hv. unfold get_obj. by rewrite Hv. Qed.

Lemma new_obj_ok σ this v :
  objs σ !! this = None →
  new_obj this v σ = Ok tt (mkState (<[this := v]> (objs σ)) (heap σ) (trace σ)).
Proof. intros Hv. unfold new_obj. by rewrite Hv. Qed.

Lemma set_data_ok σ this v d :
  objs σ !! this = Some v →
  set_data this d σ =
    Ok tt (mkState (<[this := mkVector d (size_ v)]> (objs σ)) (heap σ) (trace σ)).
Proof.
  intros Hv. unfold set_data. by rewrite (bind_ok _ _ _ _ _ (get_obj_ok _ _ _ Hv)).
Qed.

Lemma set_size_ok σ this v (sz : Z) :
  objs σ !! this = Some v →
  set_size this sz σ =
    Ok tt (mkState (<[this := mkVector (data_ v) sz]> (objs σ)) (heap σ) (trace σ)).
Proof.
  intros Hv. unfold set_size. by rewrite (bind_ok _ _ _ _ _ (get_obj_ok _ _ _ Hv)).
Qed.

(** ** Relocation *)

Lemma MoveElements_ok vs σ a i b j blkA blkB :
  a ≠ b → heap σ !! a = Some blkA → heap σ !! b = Some blkB →
  (∀ k v, vs !! k = Some v → blkA !! (i + k)%nat = Some (Obj v)) →
  (j + length vs ≤ length blkB)%nat →
  MoveElements (slot_ptr a i) (Z.of_nat (length vs)) (slot_ptr b j) σ =
    Ok tt (mkState (objs σ)
             (<[a := list_inserts i (replicate (length vs) Raw) blkA]>
                (<[b := list_inserts j (Obj <$> vs) blkB]> (heap σ)))
             (trace σ
                ++ relocate_events relocation (slot_ptr a i) (length vs) (slot_ptr b j)
                ++ destroy_events (slot_ptr a i) (length vs))).
Proof.
  intros Hab Ha Hb Hsrc Hlen. unfold MoveElements, relocation.
  rewrite Nat2Z.id.
  destruct (is_nothrow_move_constructible || negb is_copy_constructible).
  - rewrite (bind_ok _ _ _ _ _
               (uninitialized_move_n_ok vs σ a i b j blkA blkB Hab Ha Hb Hsrc Hlen)).
    rewrite (destroy_n_ok _ _ a i (list_inserts i (Obj <$> (moved_from <$> vs)) blkA));
      simpl.
    + rewrite (insert_insert_ne _ a b) by done.
      rewrite insert_insert_eq.
      rewrite list_inserts_overwrite
        by (by rewrite length_replicate, !length_fmap).
      rewrite (insert_insert_ne _ a b) by done.
      by rewrite <- app_assoc.
    + rewrite lookup_insert_ne by done. by rewrite lookup_insert_eq.
    + intros k Hk. destruct (lookup_lt_is_Some_2 vs k Hk) as [v Hv].
      exists (moved_from v).
      rewrite list_lookup_inserts.
      * replace (i + k - i)%nat with k by lia.
        by rewrite !list_lookup_fmap, Hv.
      * rewrite !length_fmap. lia.
      * pose proof (lookup_lt_Some _ _ _ (Hsrc k v Hv)). lia.
  - rewrite (bind_ok _ _ _ _ _
               (uninitialized_copy_n_ok vs σ a i b j blkA blkB Hab Ha Hb Hsrc Hlen)).
    rewrite (destroy_n_ok _ _ a i blkA); simpl.
    + by rewrite <- app_assoc.
    + by rewrite lookup_insert_ne.
    + intros k Hk. destruct (lookup_lt_is_Some_2 vs k Hk) as [v Hv].
      exists v. by apply Hsrc.
Qed.

(** Relocating no element touches nothing, whatever the pointers are. *)
Lemma MoveElements_zero σ p q : MoveElements p 0 q σ = Ok tt σ.
Proof.
  unfold MoveElements. simpl.
  by destruct (is_nothrow_move_constructible || negb is_copy_constructible).
Qed.

(** ** Reading a vector *)

Lemma RawMemory_new_ok σ (sz : Z) :
  0 < sz ≤ PTRDIFF_MAX →
  RawMemory_new sz σ =
    Ok (mkRawMemory (slot_ptr (fresh (dom (heap σ))) 0) sz)
       (mkState (objs σ)
          (<[fresh (dom (heap σ)) := replicate (Z.to_nat sz) Raw]> (heap σ))
          (trace σ)).
Proof.
  intros Hn. unfold RawMemory_new.
  by rewrite (bind_ok _ _ _ _ _ (Allocate_ok _ _ Hn)).
Qed.

Lemma vector_at_nil_inv σ this buf vs :
  vector_at σ this buf vs 0 → vs = [] ∧ buf = nullptr.
Proof.
  intros (_ & Hcap & Hown). unfold owns in Hown. simpl in Hown.
  split; [|done]. destruct vs; [done|]. simpl in Hcap. lia.
Qed.

Lemma vector_at_block σ this buf vs (cap : Z) :
  vector_at σ this buf vs cap → cap ≠ 0 →
  ∃ a, buf = slot_ptr a 0 ∧ heap σ !! a = Some (block_of vs cap).
Proof.
  intros (_ & _ & Hown) Hne. unfold owns in Hown.
  by rewrite decide_False in Hown.
Qed.

Lemma Size_ok σ this vs (cap : Z) :
  is_vector σ this vs cap → Size this σ = Ok (Z.of_nat (length vs)) σ.
Proof.
  intros (buf & Hobj & _). unfold Size.
  by rewrite (bind_ok _ _ _ _ _ (get_obj_ok _ _ _ Hobj)).
Qed.

Lemma Capacity_ok σ this vs (cap : Z) :
  is_vector σ this vs cap → Capacity this σ = Ok cap σ.
Proof.
  intros (buf & Hobj & _). unfold Capacity.
  by rewrite (bind_ok _ _ _ _ _ (get_obj_ok _ _ _ Hobj)).
Qed.

Lemma at_ok σ this vs (cap : Z) i v :
  is_vector σ this vs cap → vs !! i = Some v →
  at_ this (Z.of_nat i) σ = Ok v σ.
Proof.
  intros (buf & Hv) Hi. pose proof Hv as (Hobj & Hcap & _).
  pose proof (lookup_lt_Some _ _ _ Hi) as Hlt.
  destruct (vector_at_block _ _ _ _ _ Hv ltac:(lia)) as (a & -> & Ha).
  unfold at_. rewrite (bind_ok _ _ _ _ _ (get_obj_ok _ _ _ Hobj)). simpl.
  rewrite bool_decide_true by lia. unfold assert, RawMemory_index. simpl.
  rewrite bool_decide_true by lia. simpl.
  unfold bind at 1 2 3. simpl.
  rewrite ptr_add_slot_ptr_nat. simpl.
  apply (read_obj_ok _ _ _ _ _ Ha). by apply block_of_lookup_obj.
Qed.

(** A successful read through [operator[]] of a valid vector returns the
    element of that index. *)
Lemma at_inv σ this vs (cap : Z) i v σ' :
  is_vector σ this vs cap → at_ this (Z.of_nat i) σ = Ok v σ' → vs !! i = Some v.
Proof.
  intros Hv Hat. pose proof Hv as (buf & Hobj & _).
  destruct (vs !! i) as [w|] eqn:Hi.
  - rewrite (at_ok _ _ _ _ _ _ Hv Hi) in Hat. by inversion Hat.
  - apply lookup_ge_None in Hi. unfold at_ in Hat.
    rewrite (bind_ok _ _ _ _ _ (get_obj_ok _ _ _ Hobj)) in Hat. simpl in Hat.
    rewrite bool_decide_false in Hat by lia. done.
Qed.

(** ** Reserve *)

Lemma data_Swap_ok σ this v d :
  objs σ !! this = Some v →
  data_Swap this d σ =
    Ok (mkRawMemory (buffer_ (data_ v)) (capacity_ (data_ v)))
       (mkState (<[this := mkVector (mkRawMemory (buffer_ d) (capacity_ d)) (size_ v)]>
                   (objs σ))
                (heap σ) (trace σ)).
Proof.
  intros Hv. unfold data_Swap.
  rewrite (bind_ok _ _ _ _ _ (get_obj_ok _ _ _ Hv)). simpl.
  by rewrite (bind_ok _ _ _ _ _ (set_data_ok _ _ _ _ Hv)).
Qed.

Lemma Reserve_ok σ this buf vs (cap new_capacity : Z) :
  vector_at σ this buf vs cap → new_capacity ≤ PTRDIFF_MAX →
  ∃ σ' buf', Reserve this new_capacity σ = Ok tt σ'
             ∧ vector_at σ' this buf' vs (Z.max cap new_capacity)
             ∧ (new_capacity ≤ cap → σ' = σ).
Proof.
  intros Hv Hmax. pose proof Hv as (Hobj & Hcap & Hown).
  unfold Reserve. rewrite (bind_ok _ _ _ _ _ (get_obj_ok _ _ _ Hobj)). simpl.
  destruct (decide (new_capacity ≤ cap)) as [Hle|Hgt].
  { exists σ, buf. rewrite Z.max_l by lia. done. }
  rewrite Z.max_r by lia.
  rewrite (bind_ok _ _ _ _ _ (RawMemory_new_ok σ new_capacity ltac:(lia))).
  set (b := fresh (dom (heap σ))).
  destruct (decide (cap = 0)) as [->|Hne].
  - destruct (vector_at_nil_inv _ _ _ _ Hv) as [-> ->]. simpl.
    rewrite (bind_ok _ _ _ _ _ (MoveElements_zero _ _ _)).
    erewrite bind_ok; last by apply data_Swap_ok.
    simpl. unfold RawMemory_dtor. simpl. rewrite Deallocate_null.
    eexists _, _. split; [done|]. split; [|lia].
    repeat split; simpl; try lia.
    + by rewrite lookup_insert_eq.
    + unfold owns. rewrite decide_False by lia.
      exists b. split; [done|]. simpl. rewrite lookup_insert_eq.
      by rewrite <- block_of_nil, Z2Nat.id by lia.
  - destruct (vector_at_block _ _ _ _ _ Hv Hne) as (a & -> & Ha). simpl.
    assert (b ≠ a) as Hba by (by eapply fresh_block_ne).
    unfold GetAddress. simpl.
    erewrite bind_ok;
      last (apply (MoveElements_ok vs _ a 0 b 0 (block_of vs cap)
                     (replicate (Z.to_nat new_capacity) Raw));
            simpl; [done | by rewrite lookup_insert_ne | by rewrite lookup_insert_eq
                   | by intros; apply block_of_lookup_obj
                   | rewrite length_replicate; lia]).
    erewrite bind_ok; last by apply data_Swap_ok.
    simpl. unfold RawMemory_dtor. simpl.
    erewrite Deallocate_ok; last (simpl; by rewrite lookup_insert_eq).
    eexists _, _. split; [done|]. split; [|lia].
    repeat split; simpl; try lia.
    + by rewrite lookup_insert_eq.
    + unfold owns. rewrite decide_False by lia.
      exists b. split; [done|]. simpl.
      rewrite delete_insert_eq, lookup_delete_ne, lookup_insert_eq by done.
      rewrite relocated_block by lia. by rewrite Z2Nat.id by lia.
Qed.

(** ** Resize, growing *)

Lemma size_t_small (z : Z) : 0 ≤ z ≤ PTRDIFF_MAX → size_t z = z.
Proof.
  intros Hz. unfold size_t. apply Z.mod_small.
  unfold PTRDIFF_MAX, SIZE_MODULUS in *. lia.
Qed.

Lemma size_t_double (z : Z) : 0 ≤ z ≤ PTRDIFF_MAX → size_t (z * 2) = 2 * z.
Proof.
  intros Hz. unfold size_t. rewrite Z.mod_small; [lia|].
  unfold PTRDIFF_MAX, SIZE_MODULUS in *. lia.
Qed.

(** Constructing elements right after the live ones extends the vector. *)
Lemma extended_block vs ws (cap : Z) :
  Z.of_nat (length vs + length ws) ≤ cap →
  list_inserts (length vs) (Obj <$> ws) (block_of vs cap) = block_of (vs ++ ws) cap.
Proof.
  intros Hcap. unfold block_of.
  replace (length vs) with (length (Obj <$> vs) + 0)%nat at 1
    by (rewrite length_fmap; lia).
  rewrite list_inserts_app_r.
  rewrite relocated_block by lia.
  unfold block_of. rewrite fmap_app, <- app_assoc, length_app.
  do 3 f_equal. lia.
Qed.

Lemma Resize_grow_ok σ this buf vs (cap new_size : Z) :
  vector_at σ this buf vs cap →
  Z.of_nat (length vs) < new_size ≤ PTRDIFF_MAX →
  ∃ σ' buf', Resize this new_size σ = Ok tt σ'
    ∧ vector_at σ' this buf'
        (vs ++ replicate (Z.to_nat new_size - length vs) value_init)
        (Z.max cap new_size).
Proof.
  intros Hv Hn. pose proof Hv as (Hobj & Hcap & _).
  unfold Resize. rewrite (bind_ok _ _ _ _ _ (get_obj_ok _ _ _ Hobj)). simpl.
  rewrite decide_False by lia. rewrite decide_True by lia.
  destruct (Reserve_ok _ _ _ _ _ new_size Hv ltac:(lia)) as (σ1 & buf1 & HR & Hv1 & _).
  rewrite bind_bind, (bind_ok _ _ _ _ _ HR).
  pose proof Hv1 as (Hobj1 & Hcap1 & _).
  destruct (vector_at_block _ _ _ _ _ Hv1 ltac:(lia)) as (a & -> & Ha).
  rewrite bind_bind, (bind_ok _ _ _ _ _ (get_obj_ok _ _ _ Hobj1)). simpl.
  unfold GetAddress. simpl.
  rewrite ptr_add_slot_ptr_nat, size_t_small by lia. simpl.
  set (cnt := Z.to_nat (new_size - Z.of_nat (length vs))).
  erewrite bind_ok;
    last (apply (uninitialized_value_construct_n_ok cnt _ a (length vs) _ Ha);
          rewrite block_of_length by lia; lia).
  erewrite set_size_ok; last done.
  eexists _, _. split; [done|].
  repeat split; simpl; try lia.
  - rewrite lookup_insert_eq. do 2 f_equal.
    rewrite length_app, length_replicate. lia.
  - rewrite length_app, length_replicate. lia.
  - unfold owns. rewrite decide_False by lia.
    exists a. split; [done|]. simpl. rewrite lookup_insert_eq.
    rewrite <- fmap_replicate.
    rewrite extended_block by (rewrite length_replicate; lia).
    do 4 f_equal. lia.
Qed.

(** ** Insertion into a full vector *)

(** The new block after [EmplaceWithReallocation]: the new element is
    constructed at its final slot, then the prefix and the suffix are
    relocated around it. *)
Lemma emplaced_block vs p (x : T) n :
  (p ≤ length vs)%nat → (length vs < n)%nat →
  list_inserts (S p) (Obj <$> drop p vs)
    (list_inserts 0 (Obj <$> take p vs) (<[p := Obj x]> (replicate n Raw)))
  = block_of (take p vs ++ x :: drop p vs) (Z.of_nat n).
Proof.
  intros Hp Hn.
  assert (length (take p vs) = p) as Htake by (rewrite length_take; lia).
  assert (length (drop p vs) = (length vs - p)%nat) as Hdrop by apply length_drop.
  replace n with (p + S (n - S p))%nat at 1 by lia.
  rewrite replicate_add. simpl.
  rewrite insert_app_r_alt by (rewrite length_replicate; lia).
  rewrite length_replicate, Nat.sub_diag. simpl.
  rewrite list_inserts_0_r by (by rewrite length_fmap, length_replicate).
  replace (S p) with (length (Obj <$> take p vs) + 1)%nat at 1
    by (rewrite length_fmap; lia).
  rewrite list_inserts_app_r, list_inserts_cons.
  rewrite relocated_block by lia.
  unfold block_of.
  rewrite fmap_app, fmap_cons, <- app_assoc. simpl.
  rewrite length_app. simpl. rewrite Htake, Hdrop.
  do 4 f_equal. lia.
Qed.

Lemma grown_gt (z : Z) : 0 ≤ z → z < grown z.
Proof. intros. unfold grown. case_decide; lia. Qed.

Lemma ret_bind {A B} (x : A) (f : A → M B) σ : bind (ret x) f σ = f x σ.
Proof. done. Qed.

Lemma assert_true_bind {B} (b : bool) (f : unit → M B) σ :
  b = true → bind (assert b) f σ = f tt σ.
Proof. by intros ->. Qed.

Lemma EmplaceWithReallocation_ok σ this buf vs p (x : T) :
  vector_at σ this buf vs (Z.of_nat (length vs)) →
  (p ≤ length vs)%nat →
  grown (Z.of_nat (length vs)) ≤ PTRDIFF_MAX →
  ∃ σ' b,
    EmplaceWithReallocation this (ptr_add buf (Z.of_nat p)) x σ = Ok (slot_ptr b p) σ'
    ∧ vector_at σ' this (slot_ptr b 0) (take p vs ++ x :: drop p vs)
        (grown (Z.of_nat (length vs))).
Proof.
  intros Hv Hp Hg. pose proof Hv as (Hobj & Hcap & _).
  pose proof (grown_gt (Z.of_nat (length vs)) ltac:(lia)) as Hgt.
  unfold EmplaceWithReallocation.
  rewrite (bind_ok _ _ _ _ _ (get_obj_ok _ _ _ Hobj)). simpl.
  unfold ptr_diff, begin_, GetAddress. simpl.
  rewrite decide_True by done. rewrite ret_bind.
  replace (off buf + Z.of_nat p - off buf) with (Z.of_nat p) by lia.
  rewrite (size_t_small (Z.of_nat p)) by lia.
  replace (if decide (Z.of_nat (length vs) = 0) then 1
           else size_t (Z.of_nat (length vs) * 2))
    with (grown (Z.of_nat (length vs)))
    by (unfold grown; case_decide; [done | by rewrite size_t_double by lia]).
  rewrite (bind_ok _ _ _ _ _
             (RawMemory_new_ok σ (grown (Z.of_nat (length vs))) ltac:(lia))).
  set (b := fresh (dom (heap σ))).
  set (n := Z.to_nat (grown (Z.of_nat (length vs)))).
  unfold RawMemory_plus. simpl.
  rewrite bind_bind, assert_true_bind by (apply bool_decide_eq_true; lia).
  rewrite ret_bind. rewrite ptr_add_slot_ptr_nat. simpl.
  erewrite bind_ok;
    last (apply (construct_at_ok _ b p (replicate n Raw));
          simpl; [by rewrite lookup_insert_eq | rewrite length_replicate; lia]).
  simpl. rewrite insert_insert_eq.
  assert (length (take p vs) = p) as Htake by (rewrite length_take; lia).
  assert (length (drop p vs) = (length vs - p)%nat) as Hdrop by apply length_drop.
  destruct (decide (Z.of_nat (length vs) > 0)) as [Hpos|Hzero].
  - destruct (vector_at_block _ _ _ _ _ Hv ltac:(lia)) as (a & -> & Ha).
    assert (b ≠ a) as Hba by (by eapply fresh_block_ne).
    rewrite ptr_add_slot_ptr_nat, ptr_add_slot_ptr. simpl.
    rewrite size_t_small by lia.
    replace (Z.of_nat (length vs) - Z.of_nat p) with (Z.of_nat (length (drop p vs)))
      by lia.
    set (blkA := block_of vs (Z.of_nat (length vs))) in *.
    pose proof (MoveElements_ok (take p vs)
                  (mkState (objs σ) (<[b:=<[p:=Obj x]> (replicate n Raw)]> (heap σ))
                           (trace σ ++ [Construct (slot_ptr b p) x]))
                  a 0 b 0 blkA (<[p:=Obj x]> (replicate n Raw))) as HM1.
    rewrite Htake in HM1. simpl in HM1.
    rewrite bind_bind.
    rewrite (bind_ok _ _ _ _ _ (HM1 ltac:(done)
               ltac:(by rewrite lookup_insert_ne) ltac:(by rewrite lookup_insert_eq)
               ltac:(intros k v Hk; apply block_of_lookup_obj;
                     by apply lookup_take_Some in Hk as [? _])
               ltac:(rewrite length_insert, length_replicate; lia))).
    clear HM1. rewrite insert_insert_eq.
    erewrite bind_ok;
      last (apply (MoveElements_ok (drop p vs) _ a p b (S p)
                     (list_inserts 0 (replicate p Raw) blkA)
                     (list_inserts 0 (Obj <$> take p vs)
                        (<[p:=Obj x]> (replicate n Raw))));
            simpl;
            [ done
            | by rewrite lookup_insert_eq
            | rewrite lookup_insert_ne by done; by rewrite lookup_insert_eq
            | intros k v Hk; rewrite list_lookup_inserts_ge
                by (rewrite length_replicate; lia);
              apply block_of_lookup_obj; by rewrite lookup_drop in Hk
            | rewrite length_inserts, length_insert, length_replicate; lia ]).
    simpl.
    erewrite bind_ok; last by apply data_Swap_ok.
    simpl.
    erewrite bind_ok; last (apply get_obj_ok; simpl; apply lookup_insert_eq).
    simpl.
    erewrite bind_ok; last (eapply set_size_ok; simpl; apply lookup_insert_eq).
    simpl. unfold RawMemory_dtor. simpl.
    erewrite bind_ok; last (eapply Deallocate_ok; simpl; apply lookup_insert_eq).
    rewrite size_t_small by lia.
    eexists _, b. split; [done|].
    repeat split; simpl.
    + rewrite insert_insert_eq, lookup_insert_eq. do 2 f_equal.
      rewrite length_app. simpl. lia.
    + rewrite length_app. simpl. lia.
    + done.
    + unfold owns. rewrite decide_False by lia.
      exists b. split; [done|]. simpl.
      map_lookup.
      rewrite emplaced_block by lia. unfold n. by rewrite Z2Nat.id by lia.
  - assert (vs = []) as -> by (destruct vs; [done | simpl in Hzero; lia]).
    destruct (vector_at_nil_inv _ _ _ _ Hv) as [_ ->].
    assert (p = 0)%nat as -> by (simpl in Hp; lia).
    rewrite ret_bind.
    erewrite bind_ok; last by apply data_Swap_ok.
    simpl.
    erewrite bind_ok; last (apply get_obj_ok; simpl; apply lookup_insert_eq).
    simpl.
    erewrite bind_ok; last (eapply set_size_ok; simpl; apply lookup_insert_eq).
    simpl. unfold RawMemory_dtor. simpl.
    rewrite (bind_ok _ _ _ _ _ (Deallocate_null _)).
    eexists _, b. split; [done|].
    repeat split; simpl; try done.
    + by rewrite insert_insert_eq, lookup_insert_eq.
    + unfold owns. simpl. exists b. split; [done|]. simpl.
      by rewrite lookup_insert_eq.
Qed.

Lemma Emplace_full_ok σ this buf vs (cap : Z) p (x : T) :
  vector_at σ this buf vs cap → Z.of_nat (length vs) = cap →
  (p ≤ length vs)%nat → 2 * cap ≤ PTRDIFF_MAX →
  ∃ σ' b,
    Emplace this (ptr_add buf (Z.of_nat p)) x σ = Ok (slot_ptr b p) σ'
    ∧ vector_at σ' this (slot_ptr b 0) (take p vs ++ x :: drop p vs) (grown cap).
Proof.
  intros Hv <- Hp Hmax. pose proof Hv as (Hobj & _).
  unfold Emplace. rewrite (bind_ok _ _ _ _ _ (get_obj_ok _ _ _ Hobj)). simpl.
  rewrite decide_True by done.
  apply EmplaceWithReallocation_ok; [done..|].
  unfold grown. case_decide; unfold PTRDIFF_MAX in *; lia.
Qed.

Lemma iter_ok σ this buf vs (cap z : Z) :
  vector_at σ this buf vs cap → iter this z σ = Ok (ptr_add buf z) σ.
Proof.
  intros (Hobj & _). unfold iter.
  by rewrite (bind_ok _ _ _ _ _ (get_obj_ok _ _ _ Hobj)).
Qed.

Lemma EmplaceBack_full_ok σ this buf vs (cap : Z) (x : T) :
  vector_at σ this buf vs cap → Z.of_nat (length vs) = cap →
  2 * cap ≤ PTRDIFF_MAX →
  ∃ σ' b,
    EmplaceBack this x σ = Ok (slot_ptr b (length vs)) σ'
    ∧ vector_at σ' this (slot_ptr b 0) (vs ++ [x]) (grown cap).
Proof.
  intros Hv Hfull Hmax. pose proof Hv as (Hobj & _).
  destruct (Emplace_full_ok _ _ _ _ _ (length vs) x Hv Hfull ltac:(lia) Hmax)
    as (σ' & b & HE & Hv').
  rewrite take_ge, drop_ge in Hv' by lia.
  exists σ', b. split; [|done].
  unfold EmplaceBack. rewrite (bind_ok _ _ _ _ _ (get_obj_ok _ _ _ Hobj)).
  unfold end_, GetAddress. simpl. done.
Qed.

(** ** Copy construction, Swap and destruction *)

(** Assigning over the first live elements. *)
Lemma assigned_block us vs (cap : Z) :
  (length us ≤ length vs)%nat →
  list_inserts 0 (Obj <$> us) (block_of vs cap)
  = block_of (us ++ drop (length us) vs) cap.
Proof.
  intros Hlen. unfold block_of.
  rewrite <- (take_drop (length us) vs) at 1.
  rewrite !fmap_app, <- !app_assoc.
  rewrite list_inserts_0_r by (rewrite !length_fmap, length_take; lia).
  rewrite length_app, length_drop.
  do 3 f_equal. lia.
Qed.

(** Destroying the live elements from index [m] on. *)
Lemma truncated_block vs (cap : Z) m :
  (m ≤ length vs)%nat → Z.of_nat (length vs) ≤ cap →
  list_inserts m (replicate (length vs - m) Raw) (block_of vs cap)
  = block_of (take m vs) cap.
Proof.
  intros Hm Hcap. unfold block_of.
  assert (Obj <$> vs = (Obj <$> take m vs) ++ (Obj <$> drop m vs)) as ->
    by (by rewrite <- fmap_app, take_drop).
  rewrite <- app_assoc.
  replace m with (length (Obj <$> take m vs) + 0)%nat at 1
    by (rewrite length_fmap, length_take; lia).
  rewrite list_inserts_app_r.
  rewrite list_inserts_0_r
    by (by rewrite length_replicate, length_fmap, length_drop).
  rewrite <- replicate_add, length_take.
  do 2 f_equal. lia.
Qed.

Lemma vector_at_frame σ σ' this buf vs (cap : Z) :
  vector_at σ this buf vs cap →
  objs σ' !! this = objs σ !! this →
  (∀ a, base buf = Some a → heap σ' !! a = heap σ !! a) →
  vector_at σ' this buf vs cap.
Proof.
  intros (Hobj & Hcap & Hown) Ho Hh.
  split; [by rewrite Ho | split; [done|]].
  unfold owns in *. case_decide; [done|].
  destruct Hown as (a & -> & Ha). exists a. split; [done|].
  by rewrite Hh.
Qed.

Lemma Vector_copy_ok σ this other rbuf ws (rcap : Z) :
  objs σ !! this = None → vector_at σ other rbuf ws rcap →
  ∃ σ' buf',
    Vector_copy this other σ = Ok tt σ'
    ∧ vector_at σ' this buf' ws (Z.of_nat (length ws))
    ∧ (∀ a, base buf' = Some a → heap σ !! a = None)
    ∧ (∀ o, o ≠ this → objs σ' !! o = objs σ !! o)
    ∧ (∀ a blk, heap σ !! a = Some blk → heap σ' !! a = Some blk)
    ∧ trace σ' = trace σ ++ relocate_events CopyConstruct rbuf (length ws) buf'.
Proof.
  intros Hnew Hv. pose proof Hv as (Hobj & Hcap & _).
  unfold Vector_copy. rewrite (bind_ok _ _ _ _ _ (get_obj_ok _ _ _ Hobj)). simpl.
  destruct ws as [|w ws'] eqn:Hws.
  - simpl. unfold RawMemory_new. rewrite bind_bind, (bind_ok _ _ _ _ _ (Allocate_zero _)).
    rewrite ret_bind.
    rewrite (bind_ok _ _ _ _ _ (new_obj_ok _ _ _ Hnew)).
    eexists _, nullptr. split; [done|]. simpl.
    split; [|split; [done|split; [|split; [done|by rewrite app_nil_r]]]].
    + repeat split; simpl; try done; try lia.
      by rewrite lookup_insert_eq.
    + intros o Ho. by rewrite lookup_insert_ne.
  - rewrite <- Hws in *. assert (0 < Z.of_nat (length ws)) as Hpos by (subst; simpl; lia).
    destruct (vector_at_block _ _ _ _ _ Hv ltac:(lia)) as (ra & -> & Hra).
    rewrite (bind_ok _ _ _ _ _
               (RawMemory_new_ok σ (Z.of_nat (length ws)) ltac:(lia))).
    set (b := fresh (dom (heap σ))).
    assert (b ≠ ra) as Hbra by (by eapply fresh_block_ne).
    erewrite bind_ok; last by apply new_obj_ok.
    unfold GetAddress. simpl. rewrite Nat2Z.id.
    erewrite (uninitialized_copy_n_ok ws _ ra 0 b 0 (block_of ws rcap)
                (replicate (length ws) Raw));
      simpl; [ | done | by rewrite lookup_insert_ne | by rewrite lookup_insert_eq
             | by intros; apply block_of_lookup_obj
             | by rewrite length_replicate ].
    eexists _, (slot_ptr b 0). split; [done|]. simpl.
    split; [|split; [|split; [|split; [|done]]]].
    + repeat split; simpl; try lia.
      * by rewrite lookup_insert_eq.
      * unfold owns. rewrite decide_False by lia. exists b. split; [done|].
        simpl. map_lookup. by rewrite relocated_block by lia.
    + intros a [= <-]. apply fresh_block.
    + intros o Ho. by rewrite lookup_insert_ne.
    + intros a blk Ha. map_lookup.
      rewrite lookup_insert_ne; [done|]. by eapply fresh_block_ne.
Qed.

Lemma Swap_ok σ this other (b1 b2 : ptr) (c1 c2 s1 s2 : Z) :
  this ≠ other →
  objs σ !! this = Some (mkVector (mkRawMemory b1 c1) s1) →
  objs σ !! other = Some (mkVector (mkRawMemory b2 c2) s2) →
  Swap this other σ =
    Ok tt (mkState (<[other := mkVector (mkRawMemory b1 c1) s1]>
                      (<[this := mkVector (mkRawMemory b2 c2) s2]> (objs σ)))
                   (heap σ) (trace σ)).
Proof.
  intros Hne H1 H2. unfold Swap.
  rewrite (bind_ok _ _ _ _ _ (get_obj_ok _ _ _ H1)).
  rewrite (bind_ok _ _ _ _ _ (get_obj_ok _ _ _ H2)). simpl.
  rewrite (bind_ok _ _ _ _ _ (set_data_ok _ _ _ _ H1)).
  erewrite bind_ok; last (eapply set_data_ok; simpl; by rewrite lookup_insert_ne).
  erewrite bind_ok;
    last (eapply get_obj_ok; simpl; rewrite lookup_insert_ne by done;
          apply lookup_insert_eq).
  erewrite bind_ok; last (eapply get_obj_ok; simpl; apply lookup_insert_eq).
  erewrite bind_ok;
    last (eapply set_size_ok; simpl; rewrite lookup_insert_ne by done;
          apply lookup_insert_eq).
  erewrite set_size_ok; last (simpl; rewrite lookup_insert_ne by done;
                              apply lookup_insert_eq).
  simpl. do 2 f_equal.
  apply map_eq. intros o.
  destruct (decide (o = other)) as [->|]; [by map_lookup|].
  destruct (decide (o = this)) as [->|]; by map_lookup.
Qed.

Lemma Vector_dtor_ok σ this buf vs (cap : Z) :
  vector_at σ this buf vs cap →
  ∃ σ', Vector_dtor this σ = Ok tt σ'
        ∧ objs σ' = delete this (objs σ)
        ∧ (∀ a, base buf ≠ Some a → heap σ' !! a = heap σ !! a)
        ∧ trace σ' = trace σ ++ destroy_events buf (length vs).
Proof.
  intros Hv. pose proof Hv as (Hobj & Hcap & _).
  unfold Vector_dtor. rewrite (bind_ok _ _ _ _ _ (get_obj_ok _ _ _ Hobj)).
  unfold GetAddress, RawMemory_dtor, delete_obj. simpl.
  destruct (decide (cap = 0)) as [->|Hne].
  - destruct (vector_at_nil_inv _ _ _ _ Hv) as [-> ->].
    rewrite decide_False by (by intros []). rewrite ret_bind.
    rewrite (bind_ok _ _ _ _ _ (Deallocate_null _)).
    rewrite (bind_ok _ _ _ _ _ (get_obj_ok _ _ _ Hobj)).
    eexists. split; [done|]. simpl. by rewrite app_nil_r.
  - destruct (vector_at_block _ _ _ _ _ Hv Hne) as (a & -> & Ha).
    rewrite decide_True by done. rewrite Nat2Z.id.
    erewrite bind_ok;
      last (apply (destroy_n_ok (length vs) _ a 0 _ Ha);
            intros k Hk; destruct (lookup_lt_is_Some_2 vs k Hk) as [v Hk'];
            exists v; by apply block_of_lookup_obj).
    erewrite bind_ok; last (eapply Deallocate_ok; simpl; apply lookup_insert_eq).
    erewrite bind_ok; last by apply get_obj_ok.
    eexists. split; [done|]. simpl. split; [done|]. split; [|done].
    intros a' Ha'. rewrite lookup_delete_ne, lookup_insert_ne; [done|..];
      intros ->; by apply Ha'.
Qed.

(** ** Copy assignment *)

Lemma fresh_object σ : objs σ !! fresh (dom (objs σ)) = None.
Proof. apply not_elem_of_dom, is_fresh. Qed.

Lemma fresh_object_ne σ o v : objs σ !! o = Some v → o ≠ fresh (dom (objs σ)).
Proof. intros Ho Heq. rewrite Heq, fresh_object in Ho. done. Qed.

Lemma owns_frame h h' buf (cap : Z) blk :
  owns h buf cap blk →
  (∀ a, base buf = Some a → h' !! a = h !! a) →
  owns h' buf cap blk.
Proof.
  unfold owns. case_decide; [done|].
  intros (a & -> & Ha) Hh. exists a. split; [done|]. by rewrite Hh.
Qed.

Lemma owns_lookup h buf (cap : Z) blk a :
  owns h buf cap blk → base buf = Some a → h !! a = Some blk.
Proof.
  unfold owns. case_decide; [by intros ->|].
  intros (a' & -> & Ha) [= <-]. done.
Qed.

(** Copy assignment when the source does not fit: copy, swap, destroy. *)
Lemma copy_assign_regrow σ this rhs buf rbuf vs ws (cap rcap : Z) :
  this ≠ rhs →
  vector_at σ this buf vs cap → vector_at σ rhs rbuf ws rcap →
  separate buf rbuf → cap < Z.of_nat (length ws) →
  ∃ σ' buf',
    copy_assign this rhs σ = Ok tt σ'
    ∧ vector_at σ' this buf' ws (Z.of_nat (length ws))
    ∧ vector_at σ' rhs rbuf ws rcap.
Proof.
  intros Hne Hv Hr Hsep Hgt.
  pose proof Hv as (Hobj & Hcap & Hown). pose proof Hr as (Hrobj & Hrcap & Hrown).
  unfold copy_assign. rewrite decide_True by done.
  rewrite (bind_ok _ _ _ _ _ (get_obj_ok _ _ _ Hobj)).
  rewrite (bind_ok _ _ _ _ _ (get_obj_ok _ _ _ Hrobj)). simpl.
  rewrite decide_True by lia.
  unfold bind at 1.
  set (tmp := fresh (dom (objs σ))).
  assert (this ≠ tmp) as Htmp1 by (by eapply fresh_object_ne).
  assert (rhs ≠ tmp) as Htmp2 by (by eapply fresh_object_ne).
  destruct (Vector_copy_ok σ tmp rhs rbuf ws rcap (fresh_object σ) Hr)
    as (σ1 & buf1 & HC & Hv1 & Hfresh & Hobjs1 & Hheap1 & _).
  rewrite (bind_ok _ _ _ _ _ HC).
  pose proof Hv1 as (Hobj1 & Hcap1 & Hown1).
  erewrite bind_ok;
    last (eapply Swap_ok; [done | by rewrite Hobjs1 | done]).
  set (σ2 := mkState _ _ _).
  assert (∀ a, base buf = Some a → heap σ1 !! a = heap σ !! a) as Hbuf.
  { intros a Ha. rewrite (owns_lookup _ _ _ _ _ Hown Ha).
    apply Hheap1. by eapply owns_lookup. }
  assert (vector_at σ2 tmp buf vs cap) as Hv2.
  { split; [|split; [done|]].
    - unfold σ2. simpl. by map_lookup.
    - unfold σ2. simpl. by eapply owns_frame. }
  destruct (Vector_dtor_ok σ2 tmp buf vs cap Hv2) as (σ3 & HD & Hobjs3 & Hheap3 & _).
  rewrite HD. exists σ3, buf1. split; [done|].
  assert (∀ a, base buf1 = Some a → base buf ≠ Some a) as Hb1.
  { intros a Hb1 Hb. specialize (Hfresh a Hb1).
    by rewrite (owns_lookup _ _ _ _ _ Hown Hb) in Hfresh. }
  split.
  - split; [|split; [lia|]].
    + rewrite Hobjs3. unfold σ2. simpl. by map_lookup.
    + eapply owns_frame; [exact Hown1|].
      intros a Ha. rewrite Hheap3 by (by apply Hb1). done.
  - split; [|split; [done|]].
    + rewrite Hobjs3. unfold σ2. simpl. map_lookup. by rewrite Hobjs1.
    + eapply owns_frame; [exact Hrown|].
      intros ra Hra. rewrite Hheap3.
      * unfold σ2. simpl. rewrite (owns_lookup _ _ _ _ _ Hrown Hra).
        apply Hheap1. by eapply owns_lookup.
      * intros Hb. unfold separate in Hsep.
        rewrite Hb, Hra in Hsep. by specialize (Hsep eq_refl).
Qed.

Lemma std_copy_unfold (first d_first : ptr) (z : Z) σ :
  0 ≤ z →
  std_copy first (ptr_add first z) d_first σ = copy_loop first (Z.to_nat z) d_first σ.
Proof.
  intros Hz. unfold std_copy, distance, ptr_diff. simpl.
  rewrite decide_True by done.
  rewrite bind_bind, !ret_bind.
  replace (off first + z - off first) with z by lia.
  by rewrite decide_True by lia.
Qed.

(** Copy assignment when the source fits: assign, then construct or
    destroy the difference. *)
Lemma copy_assign_reuse σ this rhs buf rbuf vs ws (cap rcap : Z) :
  this ≠ rhs →
  vector_at σ this buf vs cap → vector_at σ rhs rbuf ws rcap →
  separate buf rbuf → Z.of_nat (length ws) ≤ cap →
  ∃ σ',
    copy_assign this rhs σ = Ok tt σ'
    ∧ vector_at σ' this buf ws cap
    ∧ vector_at σ' rhs rbuf ws rcap
    ∧ dom (heap σ') = dom (heap σ).
Proof.
  intros Hne Hv Hr Hsep Hfit.
  pose proof Hv as (Hobj & Hcap & Hown). pose proof Hr as (Hrobj & Hrcap & Hrown).
  unfold copy_assign. rewrite decide_True by done.
  rewrite (bind_ok _ _ _ _ _ (get_obj_ok _ _ _ Hobj)).
  rewrite (bind_ok _ _ _ _ _ (get_obj_ok _ _ _ Hrobj)). simpl.
  rewrite decide_False by lia.
  unfold GetAddress. simpl.
  rewrite (bind_eq _ _ _ _
             (std_copy_unfold rbuf buf
                (Z.of_nat (length vs) `min` Z.of_nat (length ws)) σ ltac:(lia))).
  rewrite <- Nat2Z.inj_min, Nat2Z.id.
  destruct (decide (length ws = 0)%nat) as [Hnil|Hcons].
  - (* the source is empty: every element of the target is destroyed *)
    destruct ws; [clear Hnil | done]. simpl.
    rewrite Nat.min_0_r. simpl. rewrite ret_bind.
    rewrite decide_False by lia.
    rewrite Z.sub_0_r, size_t_small, Nat2Z.id by lia.
    destruct (decide (cap = 0)) as [->|Hcapne].
    + destruct (vector_at_nil_inv _ _ _ _ Hv) as [-> ->]. simpl. rewrite ret_bind.
      rewrite (set_size_ok _ _ _ _ Hobj). simpl.
      rewrite insert_id by done. rewrite state_eta. by exists σ.
    + destruct (vector_at_block _ _ _ _ _ Hv Hcapne) as (a & -> & Ha).
      rewrite ptr_add_slot_ptr_nat with (k := 0%nat). simpl.
      erewrite bind_ok;
        last (apply (destroy_n_ok (length vs) _ a 0 _ Ha);
              intros k Hk; destruct (lookup_lt_is_Some_2 vs k Hk) as [v Hk'];
              exists v; by apply block_of_lookup_obj).
      erewrite set_size_ok; last done.
      eexists. split; [done|]. simpl. split; [|split].
      * split; [simpl; by map_lookup | split; [simpl; simpl; lia|]].
        unfold owns. rewrite decide_False by done.
        exists a. split; [done|]. simpl. map_lookup.
        replace (length vs) with (length vs - 0)%nat at 1 by lia.
        by rewrite truncated_block by lia.
      * split; [simpl; by map_lookup | split; [simpl; done|]].
        eapply owns_frame; [exact Hrown|].
        intros ra Hra. simpl. rewrite lookup_insert_ne; [done|].
        intros ->. unfold separate in Hsep. rewrite Hra in Hsep.
        by specialize (Hsep eq_refl).
      * by rewrite dom_insert_lookup_L.
  - (* both vectors own a block *)
    destruct (vector_at_block _ _ _ _ _ Hv ltac:(lia)) as (a & -> & Ha).
    destruct (vector_at_block _ _ _ _ _ Hr ltac:(lia)) as (ra & -> & Hra).
    assert (a ≠ ra) as Hara.
    { intros ->. by specialize (Hsep eq_refl). }
    set (m := (length vs `min` length ws)%nat).
    assert (length (take m ws) = m) as Htake by (rewrite length_take; lia).
    pose proof (copy_loop_ok (take m ws) σ ra 0 a 0 _ _ ltac:(done) Hra Ha) as HC.
    rewrite Htake in HC.
    rewrite (bind_ok _ _ _ _ _ (HC
      ltac:(intros k v Hk; apply block_of_lookup_obj;
            by apply lookup_take_Some in Hk as [? _])
      ltac:(intros k Hk; destruct (lookup_lt_is_Some_2 vs k ltac:(lia)) as [v Hk'];
            exists v; by apply block_of_lookup_obj))).
    clear HC. rewrite assigned_block by lia. rewrite Htake.
    rewrite !ptr_add_slot_ptr_nat. simpl.
    destruct (decide (Z.of_nat (length ws) > Z.of_nat (length vs))) as [Hmore|Hless].
    + assert (m = length vs) as Hm by lia. rewrite Hm in *.
      rewrite drop_all, app_nil_r.
      rewrite size_t_small by lia.
      replace (Z.to_nat (Z.of_nat (length ws) - Z.of_nat (length vs)))
        with (length (drop (length vs) ws)) by (rewrite length_drop; lia).
      erewrite bind_ok;
        last (apply (uninitialized_copy_n_ok (drop (length vs) ws) _ ra (length vs)
                       a (length vs) (block_of ws rcap)
                       (block_of (take (length vs) ws) cap));
              simpl;
              [ done
              | by rewrite lookup_insert_ne
              | by rewrite lookup_insert_eq
              | intros k v Hk; apply block_of_lookup_obj; by rewrite lookup_drop in Hk
              | rewrite block_of_length, length_drop by lia; lia ]).
      erewrite set_size_ok; last done.
      eexists. split; [done|]. simpl. split; [|split].
      * split; [simpl; by map_lookup | split; [simpl; lia|]].
        unfold owns. rewrite decide_False by lia.
        exists a. split; [done|]. simpl. map_lookup.
        rewrite <- Htake at 1.
        rewrite extended_block by (rewrite length_take, length_drop; lia).
        by rewrite take_drop.
      * split; [simpl; by map_lookup | split; [simpl; done|]].
        eapply owns_frame; [exact Hrown|].
        intros ? [= <-]. simpl. by map_lookup.
      * rewrite !dom_insert_lookup_L; [done | done |].
        rewrite lookup_insert_eq. done.
    + assert (m = length ws) as Hm by lia. rewrite Hm in *.
      rewrite firstn_all.
      rewrite size_t_small by lia.
      replace (Z.to_nat (Z.of_nat (length vs) - Z.of_nat (length ws)))
        with (length vs - length ws)%nat by lia.
      erewrite bind_ok;
        last (apply (destroy_n_ok (length vs - length ws) _ a (length ws)
                       (block_of (ws ++ drop (length ws) vs) cap));
              simpl;
              [ by rewrite lookup_insert_eq
              | intros k Hk;
                destruct (lookup_lt_is_Some_2 vs (length ws + k) ltac:(lia))
                  as [v Hk'];
                exists v; apply block_of_lookup_obj;
                rewrite lookup_app_r by lia; rewrite lookup_drop;
                rewrite <- Hk'; f_equal; lia ]).
      erewrite set_size_ok; last done.
      eexists. split; [done|]. simpl. split; [|split].
      * split; [simpl; by map_lookup | split; [simpl; lia|]].
        unfold owns. rewrite decide_False by lia.
        exists a. split; [done|]. simpl. map_lookup.
        replace (length vs) with (length (ws ++ drop (length ws) vs)) at 1
          by (rewrite length_app, length_drop; lia).
        rewrite truncated_block
          by (rewrite ?length_app, ?length_drop; lia).
        by rewrite take_app_length.
      * split; [simpl; by map_lookup | split; [simpl; done|]].
        eapply owns_frame; [exact Hrown|].
        intros ? [= <-]. simpl. by map_lookup.
      * rewrite !dom_insert_lookup_L; [done | done |].
        rewrite lookup_insert_eq. done.
Qed.

(** ** Order of the element operations *)

Lemma ptr_add_0 (p : ptr) : ptr_add p 0 = p.
Proof. destruct p. unfold ptr_add. simpl. f_equal. lia. Qed.

Lemma ptr_add_succ (p : ptr) k : ptr_add (ptr_add p 1) (Z.of_nat k) = ptr_add p (Z.of_nat (S k)).
Proof. unfold ptr_add. simpl. f_equal. lia. Qed.

Lemma relocate_events_lookup (mk : ptr → ptr → @event T) n : ∀ (first d_first : ptr) k,
  (k < n)%nat →
  relocate_events mk first n d_first !! k
  = Some (mk (ptr_add d_first (Z.of_nat k)) (ptr_add first (Z.of_nat k))).
Proof.
  induction n as [|n IH]; intros first d_first k Hk; [lia|].
  destruct k as [|k]; simpl.
  - by rewrite !ptr_add_0.
  - rewrite IH by lia. by rewrite !ptr_add_succ.
Qed.

Lemma relocate_events_length (mk : ptr → ptr → @event T) n : ∀ (first d_first : ptr),
  length (relocate_events mk first n d_first) = n.
Proof. induction n as [|n IH]; intros; simpl; [done|]. by rewrite IH. Qed.

Lemma destroy_events_lookup n : ∀ (first : ptr) k,
  (k < n)%nat →
  @destroy_events T first n !! k = Some (Destroy (ptr_add first (Z.of_nat k))).
Proof.
  induction n as [|n IH]; intros first k Hk; [lia|].
  destruct k as [|k]; simpl.
  - by rewrite ptr_add_0.
  - rewrite IH by lia. by rewrite ptr_add_succ.
Qed.

Lemma destroy_events_length n : ∀ (first : ptr),
  length (@destroy_events T first n) = n.
Proof. induction n as [|n IH]; intros; simpl; [done|]. by rewrite IH. Qed.

(** ** Reading elements *)

Lemma element_at_lookup σ this vs (cap : Z) i v :
  is_vector σ this vs cap → element_at σ this i v ↔ vs !! i = Some v.
Proof.
  intros Hv. unfold element_at. split.
  - by apply at_inv with (cap := cap).
  - by apply at_ok with (cap := cap).
Qed.

Lemma lookup_emplaced vs p (x : T) i v :
  (p ≤ length vs)%nat → vs !! i = Some v →
  (take p vs ++ x :: drop p vs) !! (if decide (i < p)%nat then i else S i) = Some v.
Proof.
  intros Hp Hi.
  assert (length (take p vs) = p) as Htake by (rewrite length_take; lia).
  case_decide.
  - rewrite lookup_app_l by lia. by rewrite lookup_take_lt.
  - rewrite lookup_app_r by lia. rewrite Htake.
    replace (S i - p)%nat with (S (i - p)) by lia. simpl.
    rewrite lookup_drop. rewrite <- Hi. f_equal. lia.
Qed.

(** ** Construction, PopBack and appending below capacity *)

Lemma Vector_default_ok σ this :
  objs σ !! this = None →
  ∃ σ', Vector_default this σ = Ok tt σ' ∧ vector_at σ' this nullptr [] 0.
Proof.
  intros Hnew. unfold Vector_default, RawMemory_new.
  rewrite bind_bind, (bind_ok _ _ _ _ _ (Allocate_zero _)), ret_bind.
  rewrite (new_obj_ok _ _ _ Hnew).
  eexists. split; [done|].
  split; [simpl; by map_lookup | split; [simpl; unfold PTRDIFF_MAX; lia | done]].
Qed.

Lemma Vector_sized_ok σ this (size : Z) :
  objs σ !! this = None → 0 ≤ size ≤ PTRDIFF_MAX →
  ∃ σ' buf, Vector_sized this size σ = Ok tt σ'
            ∧ vector_at σ' this buf (replicate (Z.to_nat size) value_init) size.
Proof.
  intros Hnew Hsize. unfold Vector_sized.
  destruct (decide (size = 0)) as [->|Hne].
  - unfold RawMemory_new.
    rewrite bind_bind, (bind_ok _ _ _ _ _ (Allocate_zero _)), ret_bind.
    rewrite (bind_ok _ _ _ _ _ (new_obj_ok _ _ _ Hnew)).
    eexists _, nullptr. split; [done|].
    split; [simpl; by map_lookup | split; [simpl; unfold PTRDIFF_MAX; lia | done]].
  - rewrite (bind_ok _ _ _ _ _ (RawMemory_new_ok σ size ltac:(lia))).
    set (b := fresh (dom (heap σ))).
    erewrite bind_ok; last by apply new_obj_ok.
    unfold GetAddress. simpl.
    erewrite (uninitialized_value_construct_n_ok (Z.to_nat size) _ b 0
                (replicate (Z.to_nat size) Raw));
      [ | simpl; by map_lookup | rewrite length_replicate; lia ].
    eexists _, (slot_ptr b 0). split; [done|].
    split; [|split].
    + simpl. map_lookup. rewrite length_replicate. do 3 f_equal. lia.
    + rewrite length_replicate. lia.
    + unfold owns. rewrite decide_False by done. exists b. split; [done|].
      simpl. map_lookup. rewrite <- fmap_replicate.
      rewrite relocated_block by (by rewrite length_replicate).
      by rewrite Z2Nat.id by lia.
Qed.

Lemma PopBack_ok σ this buf vs (x : T) (cap : Z) :
  vector_at σ this buf (vs ++ [x]) cap →
  ∃ σ', PopBack this σ = Ok tt σ' ∧ vector_at σ' this buf vs cap.
Proof.
  intros Hv. pose proof Hv as (Hobj & Hcap & _).
  rewrite length_app in *. simpl in *.
  destruct (vector_at_block _ _ _ _ _ Hv ltac:(lia)) as (a & -> & Ha).
  unfold PopBack. rewrite (bind_ok _ _ _ _ _ (get_obj_ok _ _ _ Hobj)).
  unfold GetAddress. simpl.
  replace (ptr_add (ptr_add (slot_ptr a 0) (Z.of_nat (length vs + 1))) (-1))
    with (slot_ptr a (length vs))
    by (unfold ptr_add, slot_ptr; simpl; f_equal; lia).
  erewrite bind_ok;
    last (apply (destroy_at_ok _ a (length vs) _ x Ha);
          apply block_of_lookup_obj; by rewrite lookup_app_r, Nat.sub_diag).
  erewrite bind_ok; last (apply get_obj_ok; simpl; exact Hobj).
  erewrite set_size_ok; last (simpl; exact Hobj).
  simpl. rewrite size_t_small by lia.
  eexists. split; [done|].
  split; [|split].
  - simpl. map_lookup. do 3 f_equal. lia.
  - lia.
  - unfold owns. rewrite decide_False by lia. exists a. split; [done|].
    simpl. map_lookup.
    pose proof (truncated_block (vs ++ [x]) cap (length vs)) as Htr.
    rewrite length_app in Htr. simpl in Htr.
    replace (length vs + 1 - length vs)%nat with 1%nat in Htr by lia.
    simpl in Htr. rewrite Htr by lia.
    by rewrite take_app_length.
Qed.

Lemma Emplace_end_room_ok σ this buf vs (cap : Z) (x : T) :
  vector_at σ this buf vs cap → Z.of_nat (length vs) < cap →
  ∃ σ', Emplace this (ptr_add buf (Z.of_nat (length vs))) x σ
        = Ok (ptr_add buf (Z.of_nat (length vs))) σ'
        ∧ vector_at σ' this buf (vs ++ [x]) cap.
Proof.
  intros Hv Hroom. pose proof Hv as (Hobj & Hcap & _).
  destruct (vector_at_block _ _ _ _ _ Hv ltac:(lia)) as (a & -> & Ha).
  unfold Emplace. rewrite (bind_ok _ _ _ _ _ (get_obj_ok _ _ _ Hobj)). simpl.
  rewrite decide_False by lia.
  unfold EmplaceWithoutReallocation.
  rewrite (bind_ok _ _ _ _ _ (get_obj_ok _ _ _ Hobj)).
  unfold ptr_diff, begin_, end_, GetAddress. simpl.
  rewrite decide_True by done. rewrite ret_bind.
  replace (Z.of_nat 0 + Z.of_nat (length vs) - Z.of_nat 0)
    with (Z.of_nat (length vs)) by lia.
  rewrite size_t_small by lia.
  match goal with
  | |- context [if decide ?P then (if decide ?Q then ?X else _) else _] =>
      replace (if decide P then (if decide Q then X else ret tt) else ret tt)
        with (@ret T unit tt) by (repeat case_decide; done)
  end.
  rewrite ret_bind.
  unfold RawMemory_plus. simpl.
  rewrite bind_bind, assert_true_bind by (apply bool_decide_eq_true; lia).
  rewrite ret_bind, ptr_add_slot_ptr_nat. simpl.
  erewrite bind_ok;
    last (apply (construct_at_ok _ a (length vs) _ x Ha);
          rewrite block_of_length by lia; lia).
  erewrite bind_ok; last (apply get_obj_ok; simpl; exact Hobj).
  erewrite bind_ok; last (eapply set_size_ok; simpl; exact Hobj).
  simpl. rewrite size_t_small by lia.
  eexists. split; [done|].
  split; [|split].
  - simpl. map_lookup. rewrite length_app. simpl. do 3 f_equal. lia.
  - rewrite length_app. simpl. lia.
  - unfold owns. rewrite decide_False by lia. exists a. split; [done|].
    simpl. map_lookup.
    pose proof (extended_block vs [x] cap) as Hext. simpl in Hext.
    by rewrite Hext by lia.
Qed.

Lemma EmplaceBack_room_ok σ this buf vs (cap : Z) (x : T) :
  vector_at σ this buf vs cap → Z.of_nat (length vs) < cap →
  ∃ σ', EmplaceBack this x σ = Ok (ptr_add buf (Z.of_nat (length vs))) σ'
        ∧ vector_at σ' this buf (vs ++ [x]) cap.
Proof.
  intros Hv Hroom. pose proof Hv as (Hobj & _).
  unfold EmplaceBack. rewrite (bind_ok _ _ _ _ _ (get_obj_ok _ _ _ Hobj)).
  by apply Emplace_end_room_ok.
Qed.

(** ** Resize, shrinking *)

Lemma Resize_shrink_ok σ this buf vs (cap new_size : Z) :
  vector_at σ this buf vs cap → 0 ≤ new_size ≤ Z.of_nat (length vs) →
  ∃ σ', Resize this new_size σ = Ok tt σ'
        ∧ vector_at σ' this buf (take (Z.to_nat new_size) vs) cap.
Proof.
  intros Hv Hn. pose proof Hv as (Hobj & Hcap & Hown).
  assert (length (take (Z.to_nat new_size) vs) = Z.to_nat new_size) as Htake
    by (rewrite length_take; lia).
  unfold Resize. rewrite (bind_ok _ _ _ _ _ (get_obj_ok _ _ _ Hobj)). simpl.
  destruct (decide (new_size < Z.of_nat (length vs))) as [Hlt|Hge].
  - destruct (vector_at_block _ _ _ _ _ Hv ltac:(lia)) as (a & -> & Ha).
    unfold GetAddress. simpl. rewrite size_t_small by lia.
    replace (ptr_add (slot_ptr a 0) new_size) with (slot_ptr a (Z.to_nat new_size))
      by (unfold ptr_add, slot_ptr; simpl; f_equal; lia).
    replace (Z.to_nat (Z.of_nat (length vs) - new_size))
      with (length vs - Z.to_nat new_size)%nat by lia.
    erewrite bind_ok;
      last (apply (destroy_n_ok _ _ a (Z.to_nat new_size) _ Ha);
            intros k Hk;
            destruct (lookup_lt_is_Some_2 vs (Z.to_nat new_size + k) ltac:(lia))
              as [v Hk'];
            exists v; by apply block_of_lookup_obj).
    erewrite set_size_ok; last (simpl; exact Hobj).
    eexists. split; [done|].
    split; [|split].
    + simpl. map_lookup. rewrite Htake. do 3 f_equal. lia.
    + lia.
    + unfold owns. rewrite decide_False by lia. exists a. split; [done|].
      simpl. map_lookup. by rewrite truncated_block by lia.
  - rewrite decide_False by lia. rewrite ret_bind.
    rewrite (set_size_ok _ _ _ _ Hobj). simpl.
    assert (new_size = Z.of_nat (length vs)) as -> by lia.
    rewrite insert_id by done. rewrite state_eta.
    exists σ. split; [done|].
    by rewrite Nat2Z.id, firstn_all.
Qed.

(** ** Erase *)

Lemma move_assign_at_same σ a i j blk (v w : T) :
  i ≠ j → heap σ !! a = Some blk →
  blk !! i = Some (Obj v) → blk !! j = Some (Obj w) →
  move_assign_at (slot_ptr a j) (slot_ptr a i) σ =
    Ok tt (mkState (objs σ)
             (<[a := <[j := Obj v]> (<[i := Obj (moved_from v)]> blk)]> (heap σ))
             (trace σ ++ [MoveAssign (slot_ptr a j) (slot_ptr a i)])).
Proof.
  intros Hij Ha Hi Hj. unfold move_assign_at.
  rewrite (bind_ok _ _ _ _ _ (read_obj_ok _ _ _ _ _ Ha Hi)).
  rewrite (bind_ok _ _ _ _ _ (read_obj_ok _ _ _ _ _ Ha Hj)).
  rewrite (bind_ok _ _ _ _ _ (write_slot_ok _ _ _ _ _ Ha (lookup_lt_Some _ _ _ Hi))).
  erewrite bind_ok;
    last (eapply write_slot_ok; simpl;
          [ apply lookup_insert_eq
          | rewrite length_insert; by eapply lookup_lt_Some ]).
  simpl. by rewrite insert_insert_eq.
Qed.

(** The loop of [std::move] from [first + 1] down to [first] inside a
    block: the values [ws] that followed slot [i] end one slot lower,
    and the slot after them still holds an object. *)
Lemma move_loop_down_ok ws : ∀ σ a i blk (v0 : T),
  heap σ !! a = Some blk → blk !! i = Some (Obj v0) →
  (∀ k w, ws !! k = Some w → blk !! (S i + k)%nat = Some (Obj w)) →
  ∃ blk',
    move_loop (slot_ptr a (S i)) (length ws) (slot_ptr a i) σ =
      Ok tt (mkState (objs σ) (<[a := blk']> (heap σ))
               (trace σ ++ relocate_events MoveAssign
                             (slot_ptr a (S i)) (length ws) (slot_ptr a i)))
    ∧ length blk' = length blk
    ∧ (∀ k w, ws !! k = Some w → blk' !! (i + k)%nat = Some (Obj w))
    ∧ (∃ u, blk' !! (i + length ws)%nat = Some (Obj u))
    ∧ (∀ k, (k < i ∨ i + length ws < k)%nat → blk' !! k = blk !! k).
Proof.
  induction ws as [|w0 ws IH]; intros σ a i blk v0 Ha Hi Hsrc; simpl.
  - exists blk. unfold ret. rewrite insert_id, app_nil_r, state_eta by done.
    split; [done|]. split; [done|]. split; [done|].
    split; [|done]. exists v0. by rewrite Nat.add_0_r.
  - assert (blk !! S i = Some (Obj w0)) as Hsi.
    { rewrite <- (Hsrc 0%nat w0 eq_refl). f_equal. lia. }
    rewrite (bind_ok _ _ _ _ _
               (move_assign_at_same _ a (S i) i blk w0 v0 ltac:(lia) Ha Hsi Hi)).
    rewrite !ptr_add_slot_ptr.
    set (blk1 := <[i := Obj w0]> (<[S i := Obj (moved_from w0)]> blk)).
    destruct (IH (mkState (objs σ) (<[a := blk1]> (heap σ))
                    (trace σ ++ [MoveAssign (slot_ptr a i) (slot_ptr a (S i))]))
                 a (S i) blk1 (moved_from w0)) as (blk' & HM & Hlen & Hws & Hlast & Hout).
    + simpl. apply lookup_insert_eq.
    + unfold blk1. rewrite list_lookup_insert_ne by lia.
      rewrite list_lookup_insert_eq; [done|]. by eapply lookup_lt_Some.
    + intros k w Hk. unfold blk1.
      rewrite !list_lookup_insert_ne by lia.
      rewrite <- (Hsrc (S k) w Hk). f_equal. lia.
    + exists blk'. rewrite HM. simpl.
      rewrite insert_insert_eq, <- app_assoc.
      split; [done|].
      split; [by rewrite Hlen; unfold blk1; rewrite !length_insert|].
      split; [|split].
      * intros [|k] w Hk; simpl in Hk.
        -- injection Hk as ->. rewrite Nat.add_0_r, Hout by lia.
           unfold blk1. rewrite list_lookup_insert_eq; [done|].
           rewrite length_insert. by eapply lookup_lt_Some.
        -- rewrite <- (Hws k w Hk). f_equal. lia.
      * destruct Hlast as [u Hu]. exists u. rewrite <- Hu. f_equal. lia.
      * intros k Hk. rewrite Hout by lia. unfold blk1.
        by rewrite !list_lookup_insert_ne by lia.
Qed.

Lemma std_move_unfold (first d_first : ptr) (z z' : Z) σ :
  0 ≤ z' - z →
  std_move (ptr_add first z) (ptr_add first z') d_first σ
  = move_loop (ptr_add first z) (Z.to_nat (z' - z)) d_first σ.
Proof.
  intros Hz. unfold std_move, distance, ptr_diff. simpl.
  rewrite decide_True by done.
  rewrite bind_bind, !ret_bind.
  replace (off first + z' - (off first + z)) with (z' - z) by lia.
  by rewrite decide_True by lia.
Qed.

(** The block of a vector after the elements behind index [p] have moved
    one slot down and the last slot has been destroyed. *)
Lemma erased_block vs (cap : Z) p (blk' : list (@slot T)) :
  (p < length vs)%nat → Z.of_nat (length vs) ≤ cap →
  length blk' = length (block_of vs cap) →
  (∀ k w, drop (S p) vs !! k = Some w → blk' !! (p + k)%nat = Some (Obj w)) →
  (∀ k, (k < p ∨ p + length (drop (S p) vs) < k)%nat →
        blk' !! k = block_of vs cap !! k) →
  <[(length vs - 1)%nat := Raw]> blk' = block_of (take p vs ++ drop (S p) vs) cap.
Proof.
  intros Hp Hcap Hlen Hws Hout.
  assert (length (take p vs) = p) as Htake by (rewrite length_take; lia).
  assert (length (drop (S p) vs) = (length vs - S p)%nat) as Hdrop
    by apply length_drop.
  rewrite block_of_length in Hlen by lia.
  apply list_eq. intros k.
  destruct (decide (k = length vs - 1)%nat) as [->|Hk].
  { rewrite list_lookup_insert_eq by lia.
    symmetry. apply block_of_lookup_raw; [|lia].
    rewrite length_app, Htake, Hdrop. lia. }
  rewrite list_lookup_insert_ne by lia.
  destruct (decide (k < p)%nat).
  { rewrite Hout by lia.
    destruct (lookup_lt_is_Some_2 vs k ltac:(lia)) as [w Hw].
    rewrite (block_of_lookup_obj _ _ _ _ Hw).
    symmetry. apply block_of_lookup_obj.
    rewrite lookup_app_l by lia. by rewrite lookup_take_lt. }
  destruct (decide (k < length vs - 1)%nat).
  { destruct (lookup_lt_is_Some_2 (drop (S p) vs) (k - p) ltac:(lia)) as [w Hw].
    replace k with (p + (k - p))%nat at 1 by lia.
    rewrite (Hws _ _ Hw).
    symmetry. apply block_of_lookup_obj.
    rewrite lookup_app_r by lia. by rewrite Htake. }
  rewrite Hout by lia.
  destruct (decide (Z.of_nat k < cap)).
  - rewrite block_of_lookup_raw by lia.
    symmetry. apply block_of_lookup_raw; [|lia].
    rewrite length_app, Htake, Hdrop. lia.
  - rewrite !lookup_ge_None_2; [done|..].
    + rewrite block_of_length; [lia|].
      rewrite length_app, Htake, Hdrop. lia.
    + rewrite block_of_length by lia. lia.
Qed.

Lemma Erase_ok σ this buf vs (cap : Z) p :
  vector_at σ this buf vs cap → (p < length vs)%nat →
  ∃ σ', Erase this (ptr_add buf (Z.of_nat p)) σ = Ok (ptr_add buf (Z.of_nat p)) σ'
        ∧ vector_at σ' this buf (take p vs ++ drop (S p) vs) cap.
Proof.
  intros Hv Hp. pose proof Hv as (Hobj & Hcap & _).
  destruct (vector_at_block _ _ _ _ _ Hv ltac:(lia)) as (a & -> & Ha).
  destruct (lookup_lt_is_Some_2 vs p Hp) as [x Hx].
  assert (length (drop (S p) vs) = (length vs - S p)%nat) as Hdrop
    by apply length_drop.
  unfold Erase. rewrite (bind_ok _ _ _ _ _ (get_obj_ok _ _ _ Hobj)).
  unfold ptr_diff, begin_, end_, GetAddress. simpl.
  rewrite decide_True by done. rewrite ret_bind.
  replace (Z.of_nat 0 + Z.of_nat p - Z.of_nat 0) with (Z.of_nat p) by lia.
  replace (ptr_add (ptr_add (slot_ptr a 0) (Z.of_nat p)) 1)
    with (ptr_add (slot_ptr a 0) (Z.of_nat p + 1))
    by (unfold ptr_add; simpl; f_equal; lia).
  rewrite (bind_eq _ _ _ _
             (std_move_unfold (slot_ptr a 0) (ptr_add (slot_ptr a 0) (Z.of_nat p))
                (Z.of_nat p + 1) (Z.of_nat (length vs)) σ ltac:(lia))).
  replace (ptr_add (slot_ptr a 0) (Z.of_nat p + 1)) with (slot_ptr a (S p))
    by (unfold ptr_add, slot_ptr; simpl; f_equal; lia).
  rewrite ptr_add_slot_ptr_nat. simpl.
  replace (Z.to_nat (Z.of_nat (length vs) - (Z.of_nat p + 1)))
    with (length (drop (S p) vs)) by lia.
  destruct (move_loop_down_ok (drop (S p) vs) σ a p (block_of vs cap) x Ha)
    as (blk' & HM & Hlen & Hws & (u & Hu) & Hout).
  { by apply block_of_lookup_obj. }
  { intros k w Hk. apply block_of_lookup_obj. by rewrite lookup_drop in Hk. }
  rewrite (bind_ok _ _ _ _ _ HM).
  unfold PopBack.
  rewrite bind_bind.
  erewrite bind_ok; last (apply get_obj_ok; simpl; exact Hobj).
  unfold GetAddress. simpl. rewrite bind_bind.
  replace (ptr_add (ptr_add (slot_ptr a 0) (Z.of_nat (length vs))) (-1))
    with (slot_ptr a (length vs - 1))
    by (unfold ptr_add, slot_ptr; simpl; f_equal; lia).
  erewrite bind_ok;
    last (apply (destroy_at_ok _ a (length vs - 1) blk' u);
          simpl; [apply lookup_insert_eq|];
          rewrite <- Hu; f_equal; lia).
  rewrite bind_bind.
  erewrite bind_ok; last (apply get_obj_ok; simpl; exact Hobj).
  erewrite bind_ok; last (eapply set_size_ok; simpl; exact Hobj).
  simpl. rewrite size_t_small by lia. unfold ret.
  eexists. split; [done|].
  assert (length (take p vs ++ drop (S p) vs) = (length vs - 1)%nat) as Hnew
    by (rewrite length_app, length_take, Hdrop; lia).
  split; [|split].
  - simpl. map_lookup. rewrite Hnew. do 3 f_equal. lia.
  - rewrite Hnew. lia.
  - unfold owns. rewrite decide_False by lia. exists a. split; [done|].
    simpl. map_lookup. f_equal. apply erased_block; [done | lia | done..].
Qed.

(** [Insert] then [Erase] at the same position restores the sequence
    when the insertion reallocates, and when it appends below capacity. *)
Lemma Insert_Erase_restores σ this buf vs (cap : Z) p (x : T) :
  vector_at σ this buf vs cap → (p ≤ length vs)%nat →
  (Z.of_nat (length vs) = cap ∧ 2 * cap ≤ PTRDIFF_MAX)
  ∨ (p = length vs ∧ Z.of_nat (length vs) < cap) →
  ∃ q σ' (cap' : Z),
    (pos ← iter this (Z.of_nat p); _ ← Insert this pos x;
     pos ← iter this (Z.of_nat p); Erase this pos) σ = Ok q σ'
    ∧ is_vector σ' this vs cap'.
Proof.
  intros Hv Hp Hcase.
  assert (length (take p vs) = p) as Htake by (rewrite length_take; lia).
  rewrite (bind_ok _ _ _ _ _ (iter_ok _ _ _ _ _ _ Hv)).
  unfold Insert.
  destruct Hcase as [[Hfull Hmax] | [-> Hroom]].
  - destruct (Emplace_full_ok _ _ _ _ _ p x Hv Hfull Hp Hmax) as (σ1 & b & HE & Hv1).
    rewrite (bind_ok _ _ _ _ _ HE).
    rewrite (bind_ok _ _ _ _ _ (iter_ok _ _ _ _ _ _ Hv1)).
    destruct (Erase_ok _ _ _ _ _ p Hv1) as (σ' & HR & Hv').
    { rewrite length_app. simpl. lia. }
    rewrite take_app_length' in Hv' by done.
    rewrite (cons_middle x), app_assoc in Hv'.
    rewrite drop_app_length' in Hv' by (rewrite length_app; simpl; lia).
    rewrite take_drop in Hv'.
    eexists _, σ', _. split; [exact HR|]. by eexists.
  - destruct (Emplace_end_room_ok _ _ _ _ _ x Hv Hroom) as (σ1 & HE & Hv1).
    rewrite (bind_ok _ _ _ _ _ HE).
    rewrite (bind_ok _ _ _ _ _ (iter_ok _ _ _ _ _ _ Hv1)).
    destruct (Erase_ok _ _ _ _ _ (length vs) Hv1) as (σ' & HR & Hv').
    { rewrite length_app. simpl. lia. }
    rewrite take_app_length in Hv'.
    rewrite drop_ge, app_nil_r in Hv' by (rewrite length_app; simpl; lia).
    eexists _, σ', _. split; [exact HR|]. by eexists.
Qed.

(** ** Insertion below capacity, before the end *)

Lemma move_construct_at_same σ a i j blk (v : T) :
  i ≠ j → heap σ !! a = Some blk →
  blk !! i = Some (Obj v) → (j < length blk)%nat →
  move_construct_at (slot_ptr a j) (slot_ptr a i) σ =
    Ok tt (mkState (objs σ)
             (<[a := <[j := Obj v]> (<[i := Obj (moved_from v)]> blk)]> (heap σ))
             (trace σ ++ [MoveConstruct (slot_ptr a j) (slot_ptr a i)])).
Proof.
  intros Hij Ha Hi Hj. unfold move_construct_at.
  rewrite (bind_ok _ _ _ _ _ (read_obj_ok _ _ _ _ _ Ha Hi)).
  rewrite (bind_ok _ _ _ _ _ (write_slot_ok _ _ _ _ _ Ha (lookup_lt_Some _ _ _ Hi))).
  erewrite bind_ok;
    last (eapply write_slot_ok; simpl;
          [ apply lookup_insert_eq | by rewrite length_insert ]).
  simpl. by rewrite insert_insert_eq.
Qed.

Lemma ptr_sub_slot_ptr a i : ptr_add (slot_ptr a (S i)) (-1) = slot_ptr a i.
Proof. unfold ptr_add, slot_ptr. simpl. f_equal. lia. Qed.

(** The loop of [std::move_backward] inside a block, on the sources
    [ws] at slots [i .. i + length ws - 1] and with an object in the slot
    after them: the values end one slot higher, and slot [i] is left
    moved from. *)
Lemma move_backward_loop_ok ws : ∀ σ a i blk (u : T),
  heap σ !! a = Some blk →
  (∀ k w, ws !! k = Some w → blk !! (i + k)%nat = Some (Obj w)) →
  blk !! (i + length ws)%nat = Some (Obj u) →
  ∃ blk' evs,
    move_backward_loop (slot_ptr a (i + length ws)) (length ws)
                       (slot_ptr a (S (i + length ws))) σ =
      Ok tt (mkState (objs σ) (<[a := blk']> (heap σ)) (trace σ ++ evs))
    ∧ length blk' = length blk
    ∧ (∀ k w, ws !! k = Some w → blk' !! (S i + k)%nat = Some (Obj w))
    ∧ (∀ w, ws !! 0%nat = Some w → blk' !! i = Some (Obj (moved_from w)))
    ∧ (∀ k, (k < i ∨ i + length ws < k)%nat → blk' !! k = blk !! k)
    ∧ (ws = [] → blk' = blk).
Proof.
  induction ws as [|w ws IH] using rev_ind; intros σ a i blk u Ha Hsrc Htop.
  - exists blk, []. simpl. unfold ret.
    rewrite insert_id, app_nil_r, state_eta by done. done.
  - rewrite length_app in *. simpl in *.
    rewrite Nat.add_1_r in *.
    replace (i + S (length ws))%nat with (S (i + length ws)) in * by lia.
    simpl. rewrite !ptr_sub_slot_ptr.
    assert (blk !! (i + length ws)%nat = Some (Obj w)) as Hw.
    { apply Hsrc. by rewrite lookup_app_r, Nat.sub_diag. }
    rewrite (bind_ok _ _ _ _ _
               (move_assign_at_same _ a (i + length ws) (S (i + length ws)) blk w u
                  ltac:(lia) Ha Hw Htop)).
    set (blk1 := <[S (i + length ws) := Obj w]>
                   (<[(i + length ws)%nat := Obj (moved_from w)]> blk)).
    destruct (IH (mkState (objs σ) (<[a := blk1]> (heap σ))
                    (trace σ ++ [MoveAssign (slot_ptr a (S (i + length ws)))
                                            (slot_ptr a (i + length ws))]))
                 a i blk1 (moved_from w)) as (blk' & evs & HL & Hlen & Hws & Hfst & Hout & Hnil).
    + simpl. apply lookup_insert_eq.
    + intros k w' Hk. pose proof (lookup_lt_Some _ _ _ Hk).
      unfold blk1. rewrite !list_lookup_insert_ne by lia.
      apply Hsrc. by rewrite lookup_app_l.
    + unfold blk1. rewrite list_lookup_insert_ne by lia.
      rewrite list_lookup_insert_eq; [done|]. by eapply lookup_lt_Some.
    + exists blk', ([MoveAssign (slot_ptr a (S (i + length ws)))
                                (slot_ptr a (i + length ws))] ++ evs).
      rewrite HL. simpl. rewrite insert_insert_eq, <- app_assoc.
      split; [done|].
      split; [by rewrite Hlen; unfold blk1; rewrite !length_insert|].
      split; [|split; [|split]].
      * intros k w' Hk.
        destruct (decide (k < length ws)%nat).
        -- apply Hws. by rewrite lookup_app_l in Hk.
        -- rewrite lookup_app_r in Hk by lia.
           assert (k = length ws) as ->.
           { apply lookup_lt_Some in Hk. simpl in Hk. lia. }
           rewrite Nat.sub_diag in Hk. injection Hk as <-.
           rewrite Hout by lia. unfold blk1.
           replace (S i + length ws)%nat with (S (i + length ws)) by lia.
           rewrite list_lookup_insert_eq; [done|].
           rewrite length_insert. by eapply lookup_lt_Some.
      * intros w' Hw'. destruct ws as [|w0 ws'].
        -- simpl in *. injection Hw' as <-.
           rewrite (Hnil eq_refl). unfold blk1.
           rewrite Nat.add_0_r in *.
           rewrite list_lookup_insert_ne by lia.
           rewrite list_lookup_insert_eq; [done|]. by eapply lookup_lt_Some.
        -- by apply Hfst.
      * intros k Hk. rewrite Hout by lia. unfold blk1.
        by rewrite !list_lookup_insert_ne by lia.
      * intros Heq. by destruct ws.
Qed.

Lemma std_move_backward_unfold (p : ptr) (z z' : Z) σ :
  0 ≤ z' - z →
  std_move_backward (ptr_add p z) (ptr_add p z') (ptr_add p (z' + 1)) σ
  = move_backward_loop (ptr_add p z') (Z.to_nat (z' - z)) (ptr_add p (z' + 1)) σ.
Proof.
  intros Hz. unfold std_move_backward, distance, ptr_diff. simpl.
  rewrite decide_True by done.
  rewrite bind_bind, !ret_bind.
  replace (off p + z' - (off p + z)) with (z' - z) by lia.
  by rewrite decide_True by lia.
Qed.

Lemma move_backward_loop_split n : ∀ m (last d_last : ptr) σ,
  @move_backward_loop T _ last (n + m) d_last σ
  = bind (move_backward_loop last n d_last)
      (λ _, move_backward_loop (ptr_add last (- Z.of_nat n)) m
                               (ptr_add d_last (- Z.of_nat n))) σ.
Proof.
  induction n as [|n IH]; intros m last d_last σ.
  - simpl. by rewrite ret_bind, !ptr_add_0.
  - simpl. rewrite bind_bind. apply bind_eq_fun. intros [] σ'.
    rewrite IH. apply bind_eq_fun. intros [] σ''.
    f_equal; unfold ptr_add; simpl; f_equal; lia.
Qed.

(** The block after the backward shift from slot [q], the destruction
    of slot [q + 1] and the construction of [x] there. *)
Lemma shifted_block vs (cap : Z) q (m vlast x : T) (blk' : list (@slot T)) :
  vs !! q = Some m → (S q < length vs)%nat → Z.of_nat (length vs) < cap →
  vs !! (length vs - 1)%nat = Some vlast →
  length blk' = length (block_of vs cap) →
  (∀ k w, take (length vs - S q) (drop q vs) !! k = Some w →
          blk' !! (S q + k)%nat = Some (Obj w)) →
  blk' !! q = Some (Obj (moved_from m)) →
  blk' !! length vs = Some (Obj vlast) →
  (∀ k, (k < q ∨ length vs < k)%nat → blk' !! k = block_of vs cap !! k) →
  <[S q := Obj x]> blk'
  = block_of (take q vs ++ moved_from m :: x :: drop (S q) vs) cap.
Proof.
  intros Hm Hq Hcap Hlast Hlen Hws Hfst Htop Hout.
  assert (length (take q vs) = q) as Htake by (rewrite length_take; lia).
  assert (length (drop (S q) vs) = (length vs - S q)%nat) as Hdrop
    by apply length_drop.
  assert (length (take q vs ++ moved_from m :: x :: drop (S q) vs)
          = S (length vs)) as Hnew
    by (rewrite length_app; simpl; rewrite Htake, Hdrop; lia).
  rewrite block_of_length in Hlen by lia.
  apply list_eq. intros k.
  destruct (decide (k = S q)) as [->|Hk].
  { rewrite list_lookup_insert_eq by lia.
    symmetry. apply block_of_lookup_obj.
    rewrite lookup_app_r by lia. rewrite Htake.
    by replace (S q - q)%nat with 1%nat by lia. }
  rewrite list_lookup_insert_ne by lia.
  destruct (decide (k < q)%nat).
  { rewrite Hout by lia.
    destruct (lookup_lt_is_Some_2 vs k ltac:(lia)) as [w Hw].
    rewrite (block_of_lookup_obj _ _ _ _ Hw).
    symmetry. apply block_of_lookup_obj.
    rewrite lookup_app_l by lia. by rewrite lookup_take_lt. }
  destruct (decide (k = q)) as [->|Hkq].
  { rewrite Hfst. symmetry. apply block_of_lookup_obj.
    rewrite lookup_app_r by lia. by rewrite Htake, Nat.sub_diag. }
  destruct (decide (k ≤ length vs)%nat).
  { (* slots q + 2 .. size hold what slots q + 1 .. size - 1 held *)
    destruct (lookup_lt_is_Some_2 vs (k - 1) ltac:(lia)) as [w Hw].
    assert (blk' !! k = Some (Obj w)) as ->.
    { destruct (decide (k = length vs)) as [->|].
      - rewrite Htop. rewrite Hlast in Hw. by injection Hw as ->.
      - replace k with (S q + (k - S q))%nat by lia. apply Hws.
        rewrite lookup_take_lt by lia. rewrite lookup_drop.
        rewrite <- Hw. f_equal. lia. }
    symmetry. apply block_of_lookup_obj.
    rewrite lookup_app_r by lia. rewrite Htake.
    replace (k - q)%nat with (S (S (k - q - 2))) by lia. simpl.
    rewrite lookup_drop. rewrite <- Hw. f_equal. lia. }
  rewrite Hout by lia.
  destruct (decide (Z.of_nat k < cap)).
  - rewrite block_of_lookup_raw by lia.
    symmetry. apply block_of_lookup_raw; lia.
  - rewrite !lookup_ge_None_2; [done|..].
    + rewrite block_of_length by lia. lia.
    + rewrite block_of_length by lia. lia.
Qed.

Lemma std_move_backward_slots a (z : Z) n σ :
  z ≤ Z.of_nat n →
  @std_move_backward T _ (Ptr (Some a) z) (slot_ptr a n) (slot_ptr a (S n)) σ
  = move_backward_loop (slot_ptr a n) (Z.to_nat (Z.of_nat n - z)) (slot_ptr a (S n)) σ.
Proof.
  intros Hz. unfold std_move_backward, distance, ptr_diff. simpl.
  rewrite decide_True by done.
  rewrite bind_bind, !ret_bind.
  by rewrite decide_True by lia.
Qed.

(** The first statements of [EmplaceWithoutReallocation] before the end
    of a valid vector of [n + 1] elements with room: the last element is
    move-constructed into the slot after it, and the backward shift is
    entered with [n + 1 - p] steps to run. *)
Lemma EmplaceWithoutReallocation_enter σ this a vs (cap : Z) p n (x vlast : T) :
  vector_at σ this (slot_ptr a 0) vs cap →
  length vs = S n → (p ≤ n)%nat → Z.of_nat (S n) < cap →
  vs !! n = Some vlast →
  EmplaceWithoutReallocation this (ptr_add (slot_ptr a 0) (Z.of_nat p)) x σ
  = bind (move_backward_loop (slot_ptr a n) (S n - p) (slot_ptr a (S n)))
      (λ _, p' ← RawMemory_plus (mkRawMemory (slot_ptr a 0) cap) (Z.of_nat p);
            destroy_at p';;
            new_elem ← RawMemory_plus (mkRawMemory (slot_ptr a 0) cap) (Z.of_nat p);
            construct_at new_elem x;;
            v ← get_obj this;
            set_size this (size_t (size_ v + 1));;
            ret new_elem)
      (mkState (objs σ)
         (<[a := <[S n := Obj vlast]>
                   (<[n := Obj (moved_from vlast)]> (block_of vs cap))]> (heap σ))
         (trace σ ++ [MoveConstruct (slot_ptr a (S n)) (slot_ptr a n)])).
Proof.
  intros Hv Hlen Hp Hroom Hlast. pose proof Hv as (Hobj & Hcap & _).
  destruct (vector_at_block _ _ _ _ _ Hv ltac:(lia)) as (a' & [= <-] & Ha).
  rewrite Hlen in Hobj, Hcap.
  unfold EmplaceWithoutReallocation.
  rewrite (bind_ok _ _ _ _ _ (get_obj_ok _ _ _ Hobj)).
  unfold ptr_diff, begin_, end_, GetAddress. simpl size_. simpl data_.
  simpl buffer_. simpl base.
  rewrite decide_True by done. rewrite ret_bind.
  replace (off (ptr_add (slot_ptr a 0) (Z.of_nat p)) - off (slot_ptr a 0))
    with (Z.of_nat p) by (simpl; lia).
  rewrite (size_t_small (Z.of_nat p)) by lia.
  rewrite decide_True by lia. rewrite decide_True by lia.
  rewrite !bind_bind.
  unfold RawMemory_plus at 1. simpl capacity_. simpl buffer_.
  rewrite !bind_bind, assert_true_bind by (apply bool_decide_eq_true; lia).
  rewrite ret_bind.
  unfold RawMemory_index. simpl capacity_. simpl buffer_.
  rewrite size_t_small by lia.
  rewrite !bind_bind, assert_true_bind by (apply bool_decide_eq_true; lia).
  rewrite ret_bind.
  replace (ptr_add (slot_ptr a 0) (Z.of_nat (S n) - 1)) with (slot_ptr a n)
    by (unfold ptr_add, slot_ptr; simpl; f_equal; lia).
  replace (ptr_add (slot_ptr a 0) (Z.of_nat (S n))) with (slot_ptr a (S n))
    by (unfold ptr_add, slot_ptr; simpl; f_equal; lia).
  rewrite !bind_bind.
  erewrite bind_ok;
    last (apply (move_construct_at_same _ a n (S n) (block_of vs cap) vlast);
          [ lia | done | by apply block_of_lookup_obj
          | rewrite block_of_length by lia; lia ]).
  replace (ptr_add (ptr_add (slot_ptr a 0) (Z.of_nat p)) (-1))
    with (Ptr (Some a) (Z.of_nat p - 1))
    by (unfold ptr_add, slot_ptr; simpl; f_equal; lia).
  rewrite ptr_sub_slot_ptr.
  rewrite !bind_bind.
  rewrite (bind_eq _ _ _ _
             (std_move_backward_slots a (Z.of_nat p - 1) n _ ltac:(lia))).
  replace (Z.to_nat (Z.of_nat n - (Z.of_nat p - 1))) with (S n - p)%nat by lia.
  apply bind_eq_fun. intros [] σ'. by rewrite bind_bind.
Qed.

(** Below capacity, an insertion at [begin()] of a non-empty valid
    vector runs the backward shift down to the slot before the buffer. *)
Lemma Emplace_front_room_undefined σ this buf vs (cap : Z) (x : T) :
  vector_at σ this buf vs cap →
  (0 < length vs)%nat → Z.of_nat (length vs) < cap →
  Emplace this (ptr_add buf (Z.of_nat 0)) x σ = Err UndefinedBehaviour.
Proof.
  intros Hv Hpos Hroom. pose proof Hv as (Hobj & Hcap & _).
  destruct (vector_at_block _ _ _ _ _ Hv ltac:(lia)) as (a & -> & Ha).
  destruct (length vs) as [|n] eqn:Hlen; [lia|].
  destruct (lookup_lt_is_Some_2 vs n ltac:(lia)) as [vlast Hlast].
  unfold Emplace. rewrite (bind_ok _ _ _ _ _ (get_obj_ok _ _ _ Hobj)). simpl.
  rewrite decide_False by lia.
  rewrite (EmplaceWithoutReallocation_enter σ this a vs cap 0 n x vlast)
    by (done || lia).
  set (blk1 := <[S n := Obj vlast]> (<[n := Obj (moved_from vlast)]> (block_of vs cap))).
  set (σ1 := mkState _ _ _).
  replace (S n - 0)%nat with (n + 1)%nat by lia.
  rewrite (bind_eq _ _ _ _ (move_backward_loop_split n 1 _ _ σ1)).
  rewrite bind_bind.
  assert (length (block_of vs cap) = Z.to_nat cap) as Hblk
    by (apply block_of_length; lia).
  pose proof (move_backward_loop_ok (take n vs) σ1 a 0 blk1 (moved_from vlast)) as HL.
  rewrite length_take_le in HL by lia. simpl in HL.
  destruct HL as (blk' & evs & HL & _).
  { apply lookup_insert_eq. }
  { intros k w Hk. apply lookup_take_Some in Hk as [Hk Hkn].
    unfold blk1. rewrite !list_lookup_insert_ne by lia.
    by apply block_of_lookup_obj. }
  { unfold blk1. rewrite list_lookup_insert_ne by lia.
    apply list_lookup_insert_eq. lia. }
  rewrite (bind_ok _ _ _ _ _ HL).
  simpl.
  unfold bind at 1 2. unfold move_assign_at, bind at 1. unfold read_obj, bind at 1.
  unfold read_slot, load. simpl. rewrite lookup_insert_eq.
  by rewrite decide_False by lia.
Qed.

(** Below capacity, an insertion at [begin() + q + 1] before the end of
    a valid vector succeeds, and leaves the element at index [q] moved
    from. *)
Lemma Emplace_room_before_end σ this buf vs (cap : Z) q (m x : T) :
  vector_at σ this buf vs cap →
  vs !! q = Some m → (S q < length vs)%nat → Z.of_nat (length vs) < cap →
  ∃ σ', Emplace this (ptr_add buf (Z.of_nat (S q))) x σ
        = Ok (ptr_add buf (Z.of_nat (S q))) σ'
        ∧ vector_at σ' this buf
            (take q vs ++ moved_from m :: x :: drop (S q) vs) cap.
Proof.
  intros Hv Hm Hq Hroom. pose proof Hv as (Hobj & Hcap & _).
  destruct (vector_at_block _ _ _ _ _ Hv ltac:(lia)) as (a & -> & Ha).
  destruct (length vs) as [|n] eqn:Hlen; [lia|].
  destruct (lookup_lt_is_Some_2 vs n ltac:(lia)) as [vlast Hlast].
  assert (length (block_of vs cap) = Z.to_nat cap) as Hblk
    by (apply block_of_length; lia).
  unfold Emplace. rewrite (bind_ok _ _ _ _ _ (get_obj_ok _ _ _ Hobj)). cbn [size_ data_ capacity_].
  rewrite decide_False by lia.
  rewrite (EmplaceWithoutReallocation_enter σ this a vs cap (S q) n x vlast)
    by (done || lia).
  set (blk1 := <[S n := Obj vlast]> (<[n := Obj (moved_from vlast)]> (block_of vs cap))).
  set (σ1 := mkState _ _ _).
  set (ws := take (n - q) (drop q vs)).
  assert (length ws = (n - q)%nat) as Hws
    by (unfold ws; rewrite length_take, length_drop; lia).
  pose proof (move_backward_loop_ok ws σ1 a q blk1 (moved_from vlast)) as HL.
  rewrite Hws in HL. replace (q + (n - q))%nat with n in HL by lia.
  destruct HL as (blk' & evs & HL & Hlen' & Hup & Hfst & Hout & _).
  { apply lookup_insert_eq. }
  { intros k w Hk. apply lookup_take_Some in Hk as [Hk Hkn].
    rewrite lookup_drop in Hk.
    unfold blk1. rewrite !list_lookup_insert_ne by lia.
    by apply block_of_lookup_obj. }
  { unfold blk1. rewrite list_lookup_insert_ne by lia.
    apply list_lookup_insert_eq. lia. }
  replace (S n - S q)%nat with (n - q)%nat by lia.
  rewrite (bind_ok _ _ _ _ _ HL).
  assert (ws !! 0%nat = Some m) as Hw0.
  { unfold ws. rewrite lookup_take_lt by lia. rewrite lookup_drop.
    by rewrite Nat.add_0_r. }
  assert (length blk1 = Z.to_nat cap) as Hblk1
    by (unfold blk1; by rewrite !length_insert).
  unfold RawMemory_plus. cbn [capacity_ buffer_].
  rewrite !bind_bind, assert_true_bind by (apply bool_decide_eq_true; lia).
  rewrite ret_bind, ptr_add_slot_ptr_nat. simpl Nat.add.
  erewrite bind_ok;
    last (apply (destroy_at_ok _ a (S q) blk' m);
          [ simpl; apply lookup_insert_eq
          | rewrite <- (Nat.add_0_r (S q)); by apply Hup ]).
  rewrite !bind_bind, assert_true_bind by (apply bool_decide_eq_true; lia).
  rewrite ret_bind. simpl.
  erewrite bind_ok;
    last (apply (construct_at_ok _ a (S q) (<[S q := Raw]> blk'));
          [ simpl; apply lookup_insert_eq
          | rewrite length_insert; lia ]).
  erewrite bind_ok; last (apply get_obj_ok; simpl; exact Hobj).
  erewrite bind_ok; last (eapply set_size_ok; simpl; exact Hobj).
  simpl. rewrite size_t_small by lia. unfold ret.
  eexists. split; [done|].
  assert (length (take q vs ++ moved_from m :: x :: drop (S q) vs) = S (S n)) as Hnew.
  { rewrite length_app. simpl. rewrite length_take, length_drop. lia. }
  split; [|split].
  - simpl. map_lookup. rewrite Hnew. do 3 f_equal. lia.
  - rewrite Hnew. lia.
  - unfold owns. rewrite decide_False by lia. exists a. split; [done|].
    simpl. map_lookup. f_equal. rewrite list_insert_insert_eq.
    apply (shifted_block vs cap q m vlast x blk'); rewrite ?Hlen.
    + done.
    + lia.
    + lia.
    + by replace (S n - 1)%nat with n by lia.
    + rewrite Hlen', Hblk1. by rewrite Hblk.
    + replace (S n - S q)%nat with (n - q)%nat by lia. exact Hup.
    + by apply Hfst.
    + rewrite Hout by lia. unfold blk1. apply list_lookup_insert_eq.
      rewrite length_insert. lia.
    + intros k Hk. rewrite Hout by lia. unfold blk1.
      rewrite !list_lookup_insert_ne by lia. done.
Qed.

(** ** Growth: the states and the element operations *)

(** A count of elements whose byte size fits is itself within bounds. *)
Lemma count_fits (z : Z) : 0 ≤ z → z * sizeof_T ≤ PTRDIFF_MAX → z ≤ PTRDIFF_MAX.
Proof. intros Hz Hb. pose proof sizeof_T_pos. nia. Qed.



(** [Reserve] beyond the capacity.  When the elements are copied, the
    run splits after the copies: the vector is then still what it was,
    and the destruction of the old elements follows. *)
Lemma Reserve_grow_run σ this buf vs (cap new_capacity : Z) :
  vector_at σ this buf vs cap → cap < new_capacity ≤ PTRDIFF_MAX →
  ∃ σ' b,
    Reserve this new_capacity σ = Ok tt σ'
    ∧ vector_at σ' this (slot_ptr b 0) vs new_capacity
    ∧ heap σ !! b = None
    ∧ (∀ a, base buf = Some a → heap σ' !! a = None)
    ∧ (∀ a, a ≠ b → base buf ≠ Some a → heap σ' !! a = heap σ !! a)
    ∧ (∀ o, o ≠ this → objs σ' !! o = objs σ !! o)
    ∧ trace σ' = trace σ
                 ++ relocate_events relocation buf (length vs) (slot_ptr b 0)
                 ++ destroy_events buf (length vs)
    ∧ (relocation = CopyConstruct →
       ∃ σ1 nd,
         (new_data ← RawMemory_new new_capacity;
          uninitialized_copy_n buf (length vs) (GetAddress new_data);;
          ret new_data) σ = Ok nd σ1
         ∧ vector_at σ1 this buf vs cap
         ∧ (destroy_n buf (length vs);;
            old ← data_Swap this nd; RawMemory_dtor old) σ1 = Ok tt σ').
Proof.
  intros Hv Hn. pose proof Hv as (Hobj & Hcap & Hown).
  unfold Reserve. rewrite (bind_ok _ _ _ _ _ (get_obj_ok _ _ _ Hobj)). simpl.
  rewrite decide_False by lia.
  rewrite (bind_ok _ _ _ _ _ (RawMemory_new_ok σ new_capacity ltac:(lia))).
  set (b := fresh (dom (heap σ))).
  assert (heap σ !! b = None) as Hb by apply fresh_block.
  destruct (decide (cap = 0)) as [->|Hne].
  - destruct (vector_at_nil_inv _ _ _ _ Hv) as [-> ->]. simpl.
    rewrite (bind_ok _ _ _ _ _ (MoveElements_zero _ _ _)).
    erewrite bind_ok; last by apply data_Swap_ok.
    simpl. unfold RawMemory_dtor. simpl. rewrite Deallocate_null.
    eexists _, b. split; [done|]. simpl.
    split; [|split; [done|split; [done|split; [|split; [|split]]]]].
    + split; [simpl; by map_lookup | split; [simpl; lia|]].
      unfold owns. rewrite decide_False by lia.
      exists b. split; [done|]. simpl. rewrite lookup_insert_eq.
      by rewrite <- block_of_nil, Z2Nat.id by lia.
    + intros a Hab _. by rewrite lookup_insert_ne.
    + intros o Ho. by rewrite lookup_insert_ne.
    + by rewrite app_nil_r.
    + intros _.
      rewrite (bind_ok _ _ _ _ _ (RawMemory_new_ok σ new_capacity ltac:(lia))).
      simpl. eexists _, _. split; [done|]. split.
      * split; [exact Hobj | split; [done | done]].
      * rewrite ret_bind.
        erewrite bind_ok; last by apply data_Swap_ok.
        simpl. unfold RawMemory_dtor. simpl. by rewrite Deallocate_null.
  - destruct (vector_at_block _ _ _ _ _ Hv Hne) as (a & -> & Ha). simpl.
    assert (b ≠ a) as Hba by (by eapply fresh_block_ne).
    unfold GetAddress. simpl.
    erewrite bind_ok;
      last (apply (MoveElements_ok vs _ a 0 b 0 (block_of vs cap)
                     (replicate (Z.to_nat new_capacity) Raw));
            simpl; [done | by rewrite lookup_insert_ne | by rewrite lookup_insert_eq
                   | by intros; apply block_of_lookup_obj
                   | rewrite length_replicate; lia]).
    erewrite bind_ok; last by apply data_Swap_ok.
    simpl. unfold RawMemory_dtor. simpl.
    erewrite Deallocate_ok; last (simpl; by rewrite lookup_insert_eq).
    eexists _, b. split; [done|]. simpl.
    split; [|split; [done|split; [|split; [|split; [|split; [done|]]]]]].
    + split; [simpl; by map_lookup | split; [simpl; lia|]].
      unfold owns. rewrite decide_False by lia.
      exists b. split; [done|]. simpl.
      rewrite delete_insert_eq, lookup_delete_ne, lookup_insert_eq by done.
      rewrite relocated_block by lia. by rewrite Z2Nat.id by lia.
    + intros a' [= <-]. by rewrite lookup_delete_eq.
    + intros a' Hab Haa.
      assert (a ≠ a') as Hne' by (intros ->; by apply Haa).
      by rewrite lookup_delete_ne, !lookup_insert_ne.
    + intros o Ho. by rewrite lookup_insert_ne.
    + intros Hcopy.
      rewrite (bind_ok _ _ _ _ _ (RawMemory_new_ok σ new_capacity ltac:(lia))).
      fold b. unfold GetAddress. simpl.
      erewrite bind_ok;
        last (apply (uninitialized_copy_n_ok vs _ a 0 b 0 (block_of vs cap)
                       (replicate (Z.to_nat new_capacity) Raw));
              simpl; [done | by rewrite lookup_insert_ne | by rewrite lookup_insert_eq
                     | by intros; apply block_of_lookup_obj
                     | rewrite length_replicate; lia]).
      eexists _, _. split; [done|]. split.
      * split; [exact Hobj | split; [done|]].
        unfold owns. rewrite decide_False by done.
        exists a. split; [done|]. simpl. by rewrite !lookup_insert_ne.
      * erewrite bind_ok;
          last (apply (destroy_n_ok (length vs) _ a 0 (block_of vs cap));
                [ simpl; by rewrite !lookup_insert_ne
                | intros k Hk; destruct (lookup_lt_is_Some_2 vs k Hk) as [v Hk'];
                  exists v; by apply block_of_lookup_obj ]).
        erewrite bind_ok; last by apply data_Swap_ok.
        simpl. unfold RawMemory_dtor. simpl.
        erewrite Deallocate_ok; last (simpl; by rewrite lookup_insert_eq).
        simpl. rewrite Hcopy. by rewrite <- app_assoc.
Qed.



(** * The claims *)

(** C1.  What the two move operations do to a valid source holding
    [vs] with capacity [cap]: the destination becomes a valid vector
    with the source's buffer, elements and capacity, and the source is
    left with a null buffer of capacity 0, but with [Size()] still
    [length vs], not 0.  Nothing is allocated, released or destroyed. *)
Theorem C1_move_keeps_source_size σ this other buf vs (cap : Z) :
  vector_at σ other buf vs cap →
  (objs σ !! this = None →
   ∃ σ', Vector_move this other σ = Ok tt σ'
         ∧ vector_at σ' this buf vs cap
         ∧ Size other σ' = Ok (Z.of_nat (length vs)) σ'
         ∧ Capacity other σ' = Ok 0 σ'
         ∧ heap σ' = heap σ ∧ trace σ' = trace σ)
  ∧ (∀ v, this ≠ other → objs σ !! this = Some v →
     ∃ σ', move_assign this other σ = Ok tt σ'
           ∧ vector_at σ' this buf vs cap
           ∧ Size other σ' = Ok (Z.of_nat (length vs)) σ'
           ∧ Capacity other σ' = Ok 0 σ'
           ∧ heap σ' = heap σ ∧ trace σ' = trace σ).
Proof.
  intros Hv. pose proof Hv as (Hobj & Hcap & Hown). split.
  - intros Hnew.
    assert (this ≠ other) as Hne by (intros ->; by rewrite Hnew in Hobj).
    unfold Vector_move.
    rewrite (bind_ok _ _ _ _ _ (get_obj_ok _ _ _ Hobj)). simpl.
    rewrite (bind_ok _ _ _ _ _ (new_obj_ok _ _ _ Hnew)).
    erewrite bind_ok; last (apply get_obj_ok; simpl; apply lookup_insert_eq).
    erewrite bind_ok;
      last (apply get_obj_ok; simpl; by rewrite lookup_insert_ne).
    simpl.
    erewrite bind_ok; last (eapply set_data_ok; simpl; apply lookup_insert_eq).
    erewrite set_data_ok; last (simpl; by map_lookup).
    simpl. eexists. split; [done|].
    split; [|split; [|split; [|done]]].
    + split; [simpl; by map_lookup | done].
    + unfold Size. erewrite bind_ok; last (apply get_obj_ok; simpl; by map_lookup).
      done.
    + unfold Capacity.
      erewrite bind_ok; last (apply get_obj_ok; simpl; by map_lookup).
      done.
  - intros [[b c] sz] Hne Hthis.
    unfold move_assign.
    rewrite (bind_ok _ _ _ _ _ (get_obj_ok _ _ _ Hobj)). simpl.
    rewrite (bind_ok _ _ _ _ _ (set_data_ok _ _ _ _ Hobj)). simpl.
    erewrite bind_ok; last (apply get_obj_ok; simpl; apply lookup_insert_eq).
    simpl.
    erewrite bind_ok; last (eapply set_data_ok; simpl; apply lookup_insert_eq).
    simpl.
    erewrite bind_ok; last (apply get_obj_ok; simpl; by map_lookup).
    simpl.
    erewrite bind_ok; last (eapply set_data_ok; simpl; by map_lookup).
    simpl. unfold RawMemory_dtor. simpl.
    rewrite !(bind_ok _ _ _ _ _ (Deallocate_null _)).
    erewrite bind_ok; last (apply get_obj_ok; simpl; by map_lookup).
    simpl.
    erewrite set_size_ok; last (simpl; apply lookup_insert_eq).
    simpl. eexists. split; [done|].
    split; [|split; [|split; [|done]]].
    + split; [simpl; by map_lookup | done].
    + unfold Size. erewrite bind_ok; last (apply get_obj_ok; simpl; by map_lookup).
      done.
    + unfold Capacity.
      erewrite bind_ok; last (apply get_obj_ok; simpl; by map_lookup).
      done.
Qed.

(** C4, amended.  [PopBack] on a valid empty vector evaluates no
    assertion: it calls [std::destroy_at] on the address one slot before
    the buffer, which is undefined behaviour. *)
Theorem C4_PopBack_empty_unchecked σ this (cap : Z) :
  is_vector σ this [] cap → PopBack this σ = Err UndefinedBehaviour.
Proof.
  intros (buf & Hv). pose proof Hv as (Hobj & _).
  unfold PopBack. rewrite (bind_ok _ _ _ _ _ (get_obj_ok _ _ _ Hobj)).
  unfold GetAddress. simpl.
  destruct (decide (cap = 0)) as [->|Hne].
  - by destruct (vector_at_nil_inv _ _ _ _ Hv) as [_ ->].
  - destruct (vector_at_block _ _ _ _ _ Hv Hne) as (a & -> & Ha).
    unfold bind, destroy_at, bind, read_obj, bind, read_slot, load. simpl.
    by rewrite Ha.
Qed.

(** C5.  An insertion into a valid vector whose size equals its
    capacity [cap], at any position [p] in [0, size], through [Emplace],
    [Insert], [EmplaceBack] or [PushBack], succeeds whenever the free
    store grants the request, and leaves the capacity at exactly 1 when
    [cap] is 0 and at exactly [2 * cap] otherwise. *)
Theorem C5_growth_doubles σ this buf vs (cap : Z) p (x : T) :
  vector_at σ this buf vs cap → Z.of_nat (length vs) = cap →
  (p ≤ length vs)%nat → 2 * cap ≤ PTRDIFF_MAX →
  (∃ q σ', (pos ← iter this (Z.of_nat p); Emplace this pos x) σ = Ok q σ'
           ∧ Capacity this σ' = Ok (if decide (cap = 0) then 1 else 2 * cap) σ')
  ∧ (∃ q σ', (pos ← iter this (Z.of_nat p); Insert this pos x) σ = Ok q σ'
             ∧ Capacity this σ' = Ok (if decide (cap = 0) then 1 else 2 * cap) σ')
  ∧ (∃ q σ', EmplaceBack this x σ = Ok q σ'
             ∧ Capacity this σ' = Ok (if decide (cap = 0) then 1 else 2 * cap) σ')
  ∧ (∃ σ', PushBack this x σ = Ok tt σ'
           ∧ Capacity this σ' = Ok (if decide (cap = 0) then 1 else 2 * cap) σ').
Proof.
  intros Hv Hfull Hp Hmax.
  destruct (Emplace_full_ok _ _ _ _ _ p x Hv Hfull Hp Hmax) as (σ1 & b1 & HE & Hv1).
  destruct (EmplaceBack_full_ok _ _ _ _ _ x Hv Hfull Hmax) as (σ2 & b2 & HB & Hv2).
  assert (is_vector σ1 this (take p vs ++ x :: drop p vs) (grown cap)) as Hi1
    by (by eexists).
  assert (is_vector σ2 this (vs ++ [x]) (grown cap)) as Hi2 by (by eexists).
  repeat split.
  - exists (slot_ptr b1 p), σ1.
    rewrite (bind_ok _ _ _ _ _ (iter_ok _ _ _ _ _ _ Hv)).
    split; [done|]. apply (Capacity_ok _ _ _ _ Hi1).
  - exists (slot_ptr b1 p), σ1.
    rewrite (bind_ok _ _ _ _ _ (iter_ok _ _ _ _ _ _ Hv)).
    split; [done|]. apply (Capacity_ok _ _ _ _ Hi1).
  - exists (slot_ptr b2 (length vs)), σ2.
    split; [done|]. apply (Capacity_ok _ _ _ _ Hi2).
  - exists σ2. unfold PushBack. rewrite (bind_ok _ _ _ _ _ HB).
    split; [done|]. apply (Capacity_ok _ _ _ _ Hi2).
Qed.


(** C8, amended.  On a valid vector, [Reserve] beyond the capacity, a
    growing [Resize] and an append that reallocates all succeed and leave
    every element that was at an index in [0, size) at the same index
    with the same value, provided the storage asked for fits: for a
    count [n] that the caller chooses, [n * sizeof(T)] is at most
    [PTRDIFF_MAX], so that the [size_t] product of [Allocate] does not
    wrap.  An insertion at position [p] that reallocates leaves the
    elements that were at indices in [0, p) at the same index and those
    that were at indices in [p, size) one index higher, with the same
    values; none is discarded. *)
Theorem C8_growth_keeps_elements σ this buf vs (cap : Z) :
  vector_at σ this buf vs cap →
  (∀ n : Z, cap < n → n * sizeof_T ≤ PTRDIFF_MAX →
     ∃ σ', Reserve this n σ = Ok tt σ'
           ∧ Capacity this σ' = Ok n σ'
           ∧ Size this σ' = Ok (Z.of_nat (length vs)) σ'
           ∧ ∀ i v, element_at σ this i v → element_at σ' this i v)
  ∧ (∀ n : Z, Z.of_nat (length vs) < n →
     (cap < n → n * sizeof_T ≤ PTRDIFF_MAX) →
     ∃ σ', Resize this n σ = Ok tt σ'
           ∧ Size this σ' = Ok n σ'
           ∧ ∀ i v, element_at σ this i v → element_at σ' this i v)
  ∧ (Z.of_nat (length vs) = cap → 2 * cap ≤ PTRDIFF_MAX → ∀ x : T,
     (∃ σ', PushBack this x σ = Ok tt σ'
            ∧ Size this σ' = Ok (Z.of_nat (length vs) + 1) σ'
            ∧ ∀ i v, element_at σ this i v → element_at σ' this i v)
     ∧ (∀ p, (p ≤ length vs)%nat →
        ∃ q σ', (pos ← iter this (Z.of_nat p); Insert this pos x) σ = Ok q σ'
                ∧ Size this σ' = Ok (Z.of_nat (length vs) + 1) σ'
                ∧ ∀ i v, element_at σ this i v →
                         element_at σ' this (if decide (i < p)%nat then i else S i) v)).
Proof.
  intros Hv. assert (is_vector σ this vs cap) as Hi by (by eexists).
  pose proof Hv as (_ & Hcap & _).
  split; [|split].
  - intros n Hn Hfit.
    assert (n ≤ PTRDIFF_MAX) as Hmax by (apply count_fits; [lia | done]).
    destruct (Reserve_ok _ _ _ _ _ n Hv Hmax) as (σ' & buf' & HR & Hv' & _).
    rewrite Z.max_r in Hv' by lia.
    assert (is_vector σ' this vs n) as Hi' by (by eexists).
    exists σ'. split; [done|].
    split; [by eapply Capacity_ok|]. split; [by eapply Size_ok|].
    intros i v Hel. apply (element_at_lookup _ _ _ _ _ _ Hi').
    by apply (element_at_lookup _ _ _ _ _ _ Hi).
  - intros n Hn Hfit.
    assert (n ≤ PTRDIFF_MAX) as Hmax.
    { destruct (decide (cap < n)) as [Hgt|Hle]; [|lia].
      apply count_fits; [lia | by apply Hfit]. }
    destruct (Resize_grow_ok _ _ _ _ _ n Hv ltac:(lia)) as (σ' & buf' & HR & Hv').
    set (vs' := vs ++ _) in Hv'.
    assert (is_vector σ' this vs' (Z.max cap n)) as Hi' by (by eexists).
    exists σ'. split; [done|]. split.
    + rewrite (Size_ok _ _ _ _ Hi'). do 2 f_equal.
      unfold vs'. rewrite length_app, length_replicate. lia.
    + intros i v Hel. apply (element_at_lookup _ _ _ _ _ _ Hi').
      apply lookup_app_l_Some. by apply (element_at_lookup _ _ _ _ _ _ Hi).
  - intros Hfull Hmax x. split.
    + destruct (EmplaceBack_full_ok _ _ _ _ _ x Hv Hfull Hmax) as (σ' & b & HB & Hv').
      assert (is_vector σ' this (vs ++ [x]) (grown cap)) as Hi' by (by eexists).
      exists σ'. unfold PushBack. rewrite (bind_ok _ _ _ _ _ HB).
      split; [done|]. split.
      * rewrite (Size_ok _ _ _ _ Hi'). do 2 f_equal.
        rewrite length_app. simpl. lia.
      * intros i v Hel. apply (element_at_lookup _ _ _ _ _ _ Hi').
        apply lookup_app_l_Some. by apply (element_at_lookup _ _ _ _ _ _ Hi).
    + intros p Hp.
      destruct (Emplace_full_ok _ _ _ _ _ p x Hv Hfull Hp Hmax) as (σ' & b & HE & Hv').
      assert (is_vector σ' this (take p vs ++ x :: drop p vs) (grown cap)) as Hi'
        by (by eexists).
      exists (slot_ptr b p), σ'.
      rewrite (bind_ok _ _ _ _ _ (iter_ok _ _ _ _ _ _ Hv)).
      split; [done|]. split.
      * rewrite (Size_ok _ _ _ _ Hi'). do 2 f_equal.
        rewrite length_app. simpl. rewrite length_take, length_drop. lia.
      * intros i v Hel. apply (element_at_lookup _ _ _ _ _ _ Hi').
        apply lookup_emplaced; [done|].
        by apply (element_at_lookup _ _ _ _ _ _ Hi).
Qed.

(** C9.  Move-assigning a vector to itself leaves the whole state as it
    was: the object (its size, its capacity, its buffer), the free store
    (hence every element) and the trace of element operations.  The
    temporaries of [std::exchange] carry the buffer out of [rhs.data_]
    and back into [data_]. *)
Theorem C9_move_assign_self σ this v :
  objs σ !! this = Some v → move_assign this this σ = Ok tt σ.
Proof.
  intros Hv. destruct v as [[b c] sz]. unfold move_assign.
  rewrite (bind_ok _ _ _ _ _ (get_obj_ok _ _ _ Hv)). simpl.
  rewrite (bind_ok _ _ _ _ _ (set_data_ok _ _ _ _ Hv)). simpl.
  erewrite bind_ok; last (apply get_obj_ok; simpl; apply lookup_insert_eq).
  simpl.
  erewrite bind_ok; last (eapply set_data_ok; simpl; apply lookup_insert_eq).
  simpl.
  erewrite bind_ok; last (apply get_obj_ok; simpl; apply lookup_insert_eq).
  simpl.
  erewrite bind_ok; last (eapply set_data_ok; simpl; apply lookup_insert_eq).
  simpl. unfold RawMemory_dtor. simpl.
  rewrite !(bind_ok _ _ _ _ _ (Deallocate_null _)).
  erewrite bind_ok; last (apply get_obj_ok; simpl; apply lookup_insert_eq).
  simpl.
  erewrite set_size_ok; last (simpl; apply lookup_insert_eq).
  simpl. rewrite !insert_insert_eq, insert_id by done.
  by rewrite state_eta.
Qed.

(** C10.  Copy assignment [v = rhs] between valid vectors (the same
    object, or two objects that own distinct blocks) succeeds.  When
    [rhs.Size() <= v.Capacity()] the capacity of [v] is unchanged, its
    buffer is the one it had and the free store holds the same blocks as
    before: storage is reused and nothing is allocated.  When
    [rhs.Size() > v.Capacity()] the capacity of [v] becomes exactly
    [rhs.Size()]. *)
Theorem C10_copy_assign_capacity σ this rhs buf rbuf vs ws (cap rcap : Z) :
  vector_at σ this buf vs cap → vector_at σ rhs rbuf ws rcap →
  (this ≠ rhs → separate buf rbuf) →
  ∃ σ', copy_assign this rhs σ = Ok tt σ'
    ∧ (Z.of_nat (length ws) ≤ cap →
         Capacity this σ' = Ok cap σ'
         ∧ vector_at σ' this buf ws cap
         ∧ dom (heap σ') = dom (heap σ))
    ∧ (Z.of_nat (length ws) > cap →
         Capacity this σ' = Ok (Z.of_nat (length ws)) σ').
Proof.
  intros Hv Hr Hsep.
  destruct (decide (this = rhs)) as [<-|Hne].
  - pose proof Hv as (Hobj & _). pose proof Hr as (Hrobj & Hrcap & _).
    rewrite Hobj in Hrobj. injection Hrobj as -> -> _.
    exists σ. split.
    { unfold copy_assign. by rewrite decide_False by (by intros []). }
    split; [|lia].
    intros _. split; [|done]. by eapply Capacity_ok; eexists.
  - specialize (Hsep Hne).
    destruct (decide (Z.of_nat (length ws) ≤ cap)) as [Hfit|Hbig].
    + destruct (copy_assign_reuse _ _ _ _ _ _ _ _ _ Hne Hv Hr Hsep Hfit)
        as (σ' & HA & Hv' & _ & Hdom).
      exists σ'. split; [done|]. split; [|lia].
      intros _. split; [|done]. by eapply Capacity_ok; eexists.
    + destruct (copy_assign_regrow _ _ _ _ _ _ _ _ _ Hne Hv Hr Hsep ltac:(lia))
        as (σ' & buf' & HA & Hv' & _).
      exists σ'. split; [done|]. split; [lia|].
      intros _. by eapply Capacity_ok; eexists.
Qed.

(** * Further properties of the operations *)

(** ** The states that construction, move construction and destruction
    end in *)

Lemma Vector_sized_zero σ this :
  objs σ !! this = None →
  Vector_sized this 0 σ =
    Ok tt (mkState (<[this := mkVector (mkRawMemory nullptr 0) 0]> (objs σ))
             (heap σ) (trace σ)).
Proof.
  intros Hnew. unfold Vector_sized, RawMemory_new.
  rewrite bind_bind, (bind_ok _ _ _ _ _ (Allocate_zero _)), ret_bind.
  by rewrite (bind_ok _ _ _ _ _ (new_obj_ok _ _ _ Hnew)).
Qed.

Lemma Vector_sized_block σ this (size : Z) :
  objs σ !! this = None → 0 < size ≤ PTRDIFF_MAX →
  Vector_sized this size σ =
    Ok tt (mkState
             (<[this := mkVector (mkRawMemory (slot_ptr (fresh (dom (heap σ))) 0) size)
                          size]> (objs σ))
             (<[fresh (dom (heap σ)) :=
                  block_of (replicate (Z.to_nat size) value_init) size]> (heap σ))
             (trace σ ++ value_construct_events (slot_ptr (fresh (dom (heap σ))) 0)
                           (Z.to_nat size))).
Proof.
  intros Hnew Hsize. unfold Vector_sized.
  rewrite (bind_ok _ _ _ _ _ (RawMemory_new_ok σ size ltac:(lia))).
  set (b := fresh (dom (heap σ))).
  erewrite bind_ok; last by apply new_obj_ok.
  unfold GetAddress. simpl.
  erewrite (uninitialized_value_construct_n_ok (Z.to_nat size) _ b 0
              (replicate (Z.to_nat size) Raw));
    [ | simpl; by map_lookup | rewrite length_replicate; lia ].
  simpl. rewrite insert_insert_eq. do 3 f_equal.
  rewrite <- fmap_replicate.
  rewrite relocated_block by (by rewrite length_replicate).
  by rewrite Z2Nat.id by lia.
Qed.

Lemma Vector_move_run σ this other (b : ptr) (c sz : Z) :
  objs σ !! this = None →
  objs σ !! other = Some (mkVector (mkRawMemory b c) sz) →
  Vector_move this other σ =
    Ok tt (mkState (<[other := mkVector (mkRawMemory nullptr 0) sz]>
                      (<[this := mkVector (mkRawMemory b c) sz]> (objs σ)))
                   (heap σ) (trace σ)).
Proof.
  intros Hnew Hobj.
  assert (this ≠ other) as Hne by (intros ->; by rewrite Hnew in Hobj).
  unfold Vector_move.
  rewrite (bind_ok _ _ _ _ _ (get_obj_ok _ _ _ Hobj)). simpl.
  rewrite (bind_ok _ _ _ _ _ (new_obj_ok _ _ _ Hnew)).
  erewrite bind_ok; last (apply get_obj_ok; simpl; apply lookup_insert_eq).
  erewrite bind_ok;
    last (apply get_obj_ok; simpl; by rewrite lookup_insert_ne).
  simpl.
  erewrite bind_ok; last (eapply set_data_ok; simpl; apply lookup_insert_eq).
  erewrite set_data_ok; last (simpl; by map_lookup).
  simpl. by rewrite insert_insert_eq.
Qed.

(** The destructor of a vector whose buffer is null: the guard skips the
    destruction of elements, whatever [size_] says. *)
Lemma Vector_dtor_null σ this (sz : Z) :
  objs σ !! this = Some (mkVector (mkRawMemory nullptr 0) sz) →
  Vector_dtor this σ = Ok tt (mkState (delete this (objs σ)) (heap σ) (trace σ)).
Proof.
  intros Hobj. unfold Vector_dtor.
  rewrite (bind_ok _ _ _ _ _ (get_obj_ok _ _ _ Hobj)).
  unfold GetAddress, RawMemory_dtor, delete_obj. simpl.
  rewrite ret_bind.
  rewrite (bind_ok _ _ _ _ _ (Deallocate_null _)).
  by rewrite (bind_ok _ _ _ _ _ (get_obj_ok _ _ _ Hobj)).
Qed.

Lemma Vector_dtor_block σ this a vs (cap : Z) :
  vector_at σ this (slot_ptr a 0) vs cap → cap ≠ 0 →
  Vector_dtor this σ =
    Ok tt (mkState (delete this (objs σ)) (delete a (heap σ))
             (trace σ ++ destroy_events (slot_ptr a 0) (length vs))).
Proof.
  intros Hv Hne. pose proof Hv as (Hobj & Hcap & _).
  destruct (vector_at_block _ _ _ _ _ Hv Hne) as (a' & [= <-] & Ha).
  unfold Vector_dtor. rewrite (bind_ok _ _ _ _ _ (get_obj_ok _ _ _ Hobj)).
  unfold GetAddress, RawMemory_dtor, delete_obj. simpl.
  rewrite Nat2Z.id.
  erewrite bind_ok;
    last (apply (destroy_n_ok (length vs) _ a 0 _ Ha);
          intros k Hk; destruct (lookup_lt_is_Some_2 vs k Hk) as [v Hk'];
          exists v; by apply block_of_lookup_obj).
  erewrite bind_ok; last (eapply Deallocate_ok; simpl; apply lookup_insert_eq).
  erewrite bind_ok; last by apply get_obj_ok.
  simpl. by rewrite delete_insert_eq.
Qed.

(** ** Element access *)

(** X1.  [operator[]] on a valid vector: an index below [Size()] yields
    the element of that index and changes nothing; any other index fails
    the assertion [index < size_], also when it is below [Capacity()]. *)
Theorem X1_index_checked σ this vs (cap index : Z) :
  is_vector σ this vs cap → 0 ≤ index →
  at_ this index σ = match vs !! Z.to_nat index with
                     | Some v => Ok v σ
                     | None => Err AssertionFailed
                     end.
Proof.
  intros Hv Hidx. destruct (vs !! Z.to_nat index) as [v|] eqn:Hi.
  - rewrite <- (Z2Nat.id index) by done. by eapply at_ok.
  - apply lookup_ge_None in Hi. destruct Hv as (buf & Hobj & _).
    unfold at_. rewrite (bind_ok _ _ _ _ _ (get_obj_ok _ _ _ Hobj)). simpl.
    by rewrite bool_decide_false by lia.
Qed.

(** ** Constructors and destructor *)

(** X2.  [Vector(size)] on storage that holds no object, for a [size]
    whose storage fits ([size * sizeof(T)] at most [PTRDIFF_MAX]), builds
    a valid vector of [size] value-initialised elements whose capacity
    is exactly [size].  Its buffer is a block that was not allocated
    before (null when [size] is 0), every other block and object is left
    as it was, and the element type sees exactly [size]
    value-initialisations, in index order. *)
Theorem X2_sized_constructor σ this (size : Z) :
  objs σ !! this = None → 0 ≤ size → size * sizeof_T ≤ PTRDIFF_MAX →
  ∃ σ' buf,
    Vector_sized this size σ = Ok tt σ'
    ∧ vector_at σ' this buf (replicate (Z.to_nat size) value_init) size
    ∧ (size = 0 → buf = nullptr ∧ heap σ' = heap σ)
    ∧ (∀ a, base buf = Some a → heap σ !! a = None)
    ∧ (∀ a blk, heap σ !! a = Some blk → heap σ' !! a = Some blk)
    ∧ (∀ o, o ≠ this → objs σ' !! o = objs σ !! o)
    ∧ trace σ' = trace σ ++ value_construct_events buf (Z.to_nat size).
Proof.
  intros Hnew Hpos Hfit.
  assert (0 ≤ size ≤ PTRDIFF_MAX) as Hsize by (split; [done | by apply count_fits]).
  destruct (decide (size = 0)) as [->|Hne].
  - rewrite (Vector_sized_zero _ _ Hnew). eexists _, nullptr. split; [done|].
    simpl. split; [|split; [done|split; [done|split; [done|split]]]].
    + split; [simpl; by map_lookup | split; [simpl; unfold PTRDIFF_MAX; lia | done]].
    + intros o Ho. by rewrite lookup_insert_ne.
    + by rewrite app_nil_r.
  - rewrite (Vector_sized_block _ _ _ Hnew) by lia.
    set (b := fresh (dom (heap σ))).
    eexists _, (slot_ptr b 0). split; [done|]. simpl.
    split; [|split; [done|split; [|split; [|split; [|done]]]]].
    + split; [|split].
      * simpl. map_lookup. rewrite length_replicate. do 3 f_equal. lia.
      * rewrite length_replicate. lia.
      * unfold owns. rewrite decide_False by done. exists b. split; [done|].
        simpl. by map_lookup.
    + intros a [= <-]. apply fresh_block.
    + intros a blk Ha. rewrite lookup_insert_ne; [done|]. by eapply fresh_block_ne.
    + intros o Ho. by rewrite lookup_insert_ne.
Qed.

(** X3.  The copy constructor builds a valid vector with the elements
    of [other] and a capacity equal to [other.Size()], not to
    [other.Capacity()].  The copy owns a block of its own, [other] is
    left as it was, and the element type sees exactly one copy
    construction per element, in index order. *)
Theorem X3_copy_constructor σ this other rbuf ws (rcap : Z) :
  objs σ !! this = None → vector_at σ other rbuf ws rcap →
  ∃ σ' buf',
    Vector_copy this other σ = Ok tt σ'
    ∧ vector_at σ' this buf' ws (Z.of_nat (length ws))
    ∧ vector_at σ' other rbuf ws rcap
    ∧ separate buf' rbuf
    ∧ trace σ' = trace σ ++ relocate_events CopyConstruct rbuf (length ws) buf'.
Proof.
  intros Hnew Hr. pose proof Hr as (Hrobj & _ & Hrown).
  assert (other ≠ this) as Hne by (intros ->; by rewrite Hnew in Hrobj).
  destruct (Vector_copy_ok _ _ _ _ _ _ Hnew Hr)
    as (σ' & buf' & HC & Hv' & Hfresh & Hobjs & Hheap & Htrace).
  exists σ', buf'. split; [done|]. split; [done|]. split; [|split; [|done]].
  - split; [by rewrite Hobjs | split; [by destruct Hr as (_ & ? & _)|]].
    unfold owns in *. case_decide; [done|].
    destruct Hrown as (a & -> & Ha). exists a. split; [done|]. by apply Hheap.
  - intros Hbase. destruct (base buf') as [b|] eqn:Hb; [|done].
    unfold owns in Hrown. case_decide.
    + subst rbuf. discriminate.
    + destruct Hrown as (a & -> & Ha). simpl in Hbase. injection Hbase as ->.
      by rewrite (Hfresh a eq_refl) in Ha.
Qed.

(** X4.  The destructor of a valid vector ends the object's lifetime,
    destroys exactly its [Size()] elements, in index order, and then
    releases its block; no other block is touched. *)
Theorem X4_destructor σ this buf vs (cap : Z) :
  vector_at σ this buf vs cap →
  ∃ σ', Vector_dtor this σ = Ok tt σ'
    ∧ objs σ' = delete this (objs σ)
    ∧ heap σ' = match base buf with
                | Some a => delete a (heap σ)
                | None => heap σ
                end
    ∧ trace σ' = trace σ ++ destroy_events buf (length vs).
Proof.
  intros Hv. destruct (decide (cap = 0)) as [->|Hne].
  - destruct (vector_at_nil_inv _ _ _ _ Hv) as [-> ->].
    destruct Hv as (Hobj & _).
    rewrite (Vector_dtor_null _ _ _ Hobj). eexists. split; [done|]. simpl.
    by rewrite app_nil_r.
  - destruct (vector_at_block _ _ _ _ _ Hv Hne) as (a & -> & Ha).
    rewrite (Vector_dtor_block _ _ _ _ _ Hv Hne). by eexists.
Qed.

(** X5.  Destroying the source of a move construction is safe although
    its [size_] is stale: the destructor finds the null buffer, destroys
    no element and releases nothing.  The destination still owns the
    buffer with every element. *)
Theorem X5_destructor_after_move σ this other buf vs (cap : Z) :
  vector_at σ other buf vs cap → objs σ !! this = None →
  ∃ σ', (Vector_move this other;; Vector_dtor other) σ = Ok tt σ'
    ∧ vector_at σ' this buf vs cap
    ∧ objs σ' !! other = None
    ∧ heap σ' = heap σ ∧ trace σ' = trace σ.
Proof.
  intros Hv Hnew. pose proof Hv as (Hobj & Hcap & Hown).
  assert (this ≠ other) as Hne by (intros ->; by rewrite Hnew in Hobj).
  rewrite (bind_ok _ _ _ _ _ (Vector_move_run _ _ _ _ _ _ Hnew Hobj)).
  erewrite Vector_dtor_null; last (simpl; apply lookup_insert_eq).
  eexists. split; [done|]. simpl.
  split; [|split; [|done]].
  - split; [simpl; by map_lookup | done].
  - by rewrite lookup_delete_eq.
Qed.

(** ** Copy assignment and Swap *)

(** X6.  Copy assignment [v = rhs] between valid vectors (the same
    object, or two objects that own distinct blocks) leaves [v] a valid
    vector holding the elements of [rhs], with the larger of its old
    capacity and [rhs.Size()] as capacity; [rhs] is left as it was, and
    self-assignment changes nothing at all. *)
Theorem X6_copy_assign_elements σ this rhs buf rbuf vs ws (cap rcap : Z) :
  vector_at σ this buf vs cap → vector_at σ rhs rbuf ws rcap →
  (this ≠ rhs → separate buf rbuf) →
  ∃ σ', copy_assign this rhs σ = Ok tt σ'
    ∧ is_vector σ' this ws (Z.max cap (Z.of_nat (length ws)))
    ∧ vector_at σ' rhs rbuf ws rcap
    ∧ (this = rhs → σ' = σ).
Proof.
  intros Hv Hr Hsep.
  destruct (decide (this = rhs)) as [<-|Hne].
  - pose proof Hv as (Hobj & _). pose proof Hr as (Hrobj & Hrcap & _).
    rewrite Hobj in Hrobj. injection Hrobj as -> -> _.
    exists σ. split.
    { unfold copy_assign. by rewrite decide_False by (by intros []). }
    split; [|done]. rewrite Z.max_l by lia. by eexists.
  - specialize (Hsep Hne).
    destruct (decide (Z.of_nat (length ws) ≤ cap)) as [Hfit|Hbig].
    + destruct (copy_assign_reuse _ _ _ _ _ _ _ _ _ Hne Hv Hr Hsep Hfit)
        as (σ' & HA & Hv' & Hr' & _).
      exists σ'. split; [done|]. rewrite Z.max_l by lia.
      split; [by exists buf|]. split; [done|]. intros ->. done.
    + destruct (copy_assign_regrow _ _ _ _ _ _ _ _ _ Hne Hv Hr Hsep ltac:(lia))
        as (σ' & buf' & HA & Hv' & Hr').
      exists σ'. split; [done|]. rewrite Z.max_r by lia.
      split; [by exists buf'|]. split; [done|]. intros ->. done.
Qed.

(** X7.  [Swap] between two distinct valid vectors exchanges their
    buffers, sizes and capacities, hence their elements, without
    allocating and without calling any operation of the element type;
    swapping again restores the state.  Swapping a vector with itself
    changes nothing. *)
Theorem X7_Swap_exchanges σ this other (buf1 buf2 : ptr) vs ws (c1 c2 : Z) :
  vector_at σ this buf1 vs c1 → vector_at σ other buf2 ws c2 →
  (this ≠ other →
   ∃ σ', Swap this other σ = Ok tt σ'
     ∧ vector_at σ' this buf2 ws c2 ∧ vector_at σ' other buf1 vs c1
     ∧ heap σ' = heap σ ∧ trace σ' = trace σ
     ∧ Swap this other σ' = Ok tt σ)
  ∧ (this = other → Swap this other σ = Ok tt σ).
Proof.
  intros Hv Ho. pose proof Hv as (Hobj & Hcap & Hown).
  pose proof Ho as (Hoobj & Hocap & Hoown). split.
  - intros Hne. rewrite (Swap_ok _ _ _ _ _ _ _ _ _ Hne Hobj Hoobj).
    eexists. split; [done|]. simpl.
    split; [|split; [|split; [done|split; [done|]]]].
    + split; [simpl; by map_lookup | done].
    + split; [simpl; by map_lookup | done].
    + erewrite Swap_ok; [|done|simpl; by map_lookup|simpl; by map_lookup].
      simpl. rewrite <- (state_eta σ) at 4. do 2 f_equal.
      apply map_eq. intros o.
      destruct (decide (o = other)) as [->|]; [by map_lookup|].
      destruct (decide (o = this)) as [->|]; by map_lookup.
  - intros <-. unfold Swap.
    rewrite !(bind_ok _ _ _ _ _ (get_obj_ok _ _ _ Hobj)). simpl.
    rewrite (bind_ok _ _ _ _ _ (set_data_ok _ _ _ _ Hobj)). simpl.
    erewrite bind_ok; last (eapply set_data_ok; simpl; apply lookup_insert_eq).
    simpl.
    erewrite bind_ok; last (apply get_obj_ok; simpl; apply lookup_insert_eq).
    erewrite bind_ok; last (apply get_obj_ok; simpl; apply lookup_insert_eq).
    erewrite bind_ok; last (eapply set_size_ok; simpl; apply lookup_insert_eq).
    erewrite set_size_ok; last (simpl; apply lookup_insert_eq).
    simpl. rewrite !insert_insert_eq, insert_id by done.
    by rewrite state_eta.
Qed.

(** ** Reserve and Resize *)

(** X8.  [Reserve(n)] on a valid vector does nothing at all when [n] is
    not above the capacity.  Otherwise, for an [n] whose storage fits
    ([n * sizeof(T)] at most [PTRDIFF_MAX]), it moves the elements to a
    block that was not allocated before, of capacity exactly [n], and
    releases the old block: every other block and object is left as it
    was, and the element type sees one relocation per element followed
    by one destruction per element, and nothing else. *)
Theorem X8_Reserve σ this buf vs (cap new_capacity : Z) :
  vector_at σ this buf vs cap →
  (new_capacity ≤ cap → Reserve this new_capacity σ = Ok tt σ)
  ∧ (cap < new_capacity → new_capacity * sizeof_T ≤ PTRDIFF_MAX →
     ∃ σ' b, Reserve this new_capacity σ = Ok tt σ'
       ∧ vector_at σ' this (slot_ptr b 0) vs new_capacity
       ∧ heap σ !! b = None
       ∧ (∀ a, base buf = Some a → heap σ' !! a = None)
       ∧ (∀ a, a ≠ b → base buf ≠ Some a → heap σ' !! a = heap σ !! a)
       ∧ (∀ o, o ≠ this → objs σ' !! o = objs σ !! o)
       ∧ trace σ' = trace σ
                    ++ relocate_events relocation buf (length vs) (slot_ptr b 0)
                    ++ destroy_events buf (length vs)).
Proof.
  intros Hv. pose proof Hv as (Hobj & Hcap & _). split.
  - intros Hn. unfold Reserve.
    rewrite (bind_ok _ _ _ _ _ (get_obj_ok _ _ _ Hobj)). simpl.
    by rewrite decide_True by done.
  - intros Hn Hfit.
    destruct (Reserve_grow_run _ _ _ _ _ new_capacity Hv)
      as (σ' & b & HR & Hv' & Hb & Hold & Hframe & Hobjs & Htr & _).
    { split; [done|]. apply count_fits; [lia | done]. }
    by exists σ', b.
Qed.

(** X9.  [Resize(n)] on a valid vector, for an [n] that is within the
    capacity or whose storage fits ([n * sizeof(T)] at most
    [PTRDIFF_MAX]), leaves it valid with exactly [n] elements: the first
    [n] of the old ones when [n] is not above [Size()], and otherwise
    all the old ones followed by value-initialised elements.  The
    capacity never shrinks; it becomes [n] when [n] is above it.  When
    nothing is added the buffer is the one the vector had. *)
Theorem X9_Resize σ this buf vs (cap new_size : Z) :
  vector_at σ this buf vs cap → 0 ≤ new_size →
  (cap < new_size → new_size * sizeof_T ≤ PTRDIFF_MAX) →
  ∃ σ' buf', Resize this new_size σ = Ok tt σ'
    ∧ vector_at σ' this buf' (resize (Z.to_nat new_size) value_init vs)
        (Z.max cap new_size)
    ∧ (new_size ≤ Z.of_nat (length vs) → buf' = buf).
Proof.
  intros Hv Hpos Hfit. pose proof Hv as (_ & Hcap & _).
  assert (0 ≤ new_size ≤ PTRDIFF_MAX) as Hn.
  { split; [done|]. destruct (decide (cap < new_size)) as [Hgt|Hle]; [|lia].
    apply count_fits; [lia | by apply Hfit]. }
  destruct (decide (new_size ≤ Z.of_nat (length vs))) as [Hle|Hgt].
  - destruct (Resize_shrink_ok _ _ _ _ _ new_size Hv ltac:(lia)) as (σ' & HR & Hv').
    exists σ', buf. split; [done|]. split; [|done].
    rewrite resize_le by lia. by rewrite Z.max_l by lia.
  - destruct (Resize_grow_ok _ _ _ _ _ new_size Hv ltac:(lia))
      as (σ' & buf' & HR & Hv').
    exists σ', buf'. split; [done|]. split; [|lia].
    by rewrite resize_ge by lia.
Qed.

(** X10.  [Resize(n)] followed by [Resize] back to the original size,
    for an [n] that is within the capacity or whose storage fits
    ([n * sizeof(T)] at most [PTRDIFF_MAX]), restores the size, and the
    elements only up to [n]: the elements that [Resize(n)] destroyed
    come back value-initialised.  In particular growing and then
    shrinking back restores every element.  The capacity stays where
    the first call left it. *)
Theorem X10_Resize_back σ this buf vs (cap new_size : Z) :
  vector_at σ this buf vs cap → 0 ≤ new_size →
  (cap < new_size → new_size * sizeof_T ≤ PTRDIFF_MAX) →
  ∃ σ', (Resize this new_size;; Resize this (Z.of_nat (length vs))) σ = Ok tt σ'
    ∧ is_vector σ' this
        (take (Z.to_nat new_size) vs
           ++ replicate (length vs - Z.to_nat new_size) value_init)
        (Z.max cap new_size)
    ∧ (Z.of_nat (length vs) ≤ new_size → is_vector σ' this vs (Z.max cap new_size)).
Proof.
  intros Hv Hpos Hfit. pose proof Hv as (_ & Hcap & _).
  assert (0 ≤ new_size ≤ PTRDIFF_MAX) as Hn.
  { split; [done|]. destruct (decide (cap < new_size)) as [Hgt|Hle]; [|lia].
    apply count_fits; [lia | by apply Hfit]. }
  destruct (decide (Z.of_nat (length vs) < new_size)) as [Hgt|Hle].
  - destruct (Resize_grow_ok _ _ _ _ _ new_size Hv ltac:(lia))
      as (σ1 & buf1 & HR1 & Hv1).
    rewrite (bind_ok _ _ _ _ _ HR1).
    destruct (Resize_shrink_ok _ _ _ _ _ (Z.of_nat (length vs)) Hv1) as (σ' & HR & Hv').
    { rewrite length_app. lia. }
    rewrite Nat2Z.id, take_app_length in Hv'.
    exists σ'. split; [done|].
    rewrite take_ge by lia.
    replace (length vs - Z.to_nat new_size)%nat with 0%nat by lia.
    simpl. rewrite app_nil_r. split; [by exists buf1|]. intros _. by exists buf1.
  - destruct (Resize_shrink_ok _ _ _ _ _ new_size Hv ltac:(lia)) as (σ1 & HR1 & Hv1).
    rewrite (bind_ok _ _ _ _ _ HR1).
    assert (length (take (Z.to_nat new_size) vs) = Z.to_nat new_size) as Htake
      by (rewrite length_take; lia).
    rewrite Z.max_l by lia.
    destruct (decide (new_size = Z.of_nat (length vs))) as [->|Hlt].
    + destruct (Resize_shrink_ok _ _ _ _ _ (Z.of_nat (length vs)) Hv1)
        as (σ' & HR & Hv'); [lia|].
      rewrite Nat2Z.id, !firstn_all in Hv'.
      exists σ'. split; [done|].
      rewrite Nat2Z.id, firstn_all, Nat.sub_diag. simpl. rewrite app_nil_r.
      split; [by exists buf|]. intros _. by exists buf.
    + destruct (Resize_grow_ok _ _ _ _ _ (Z.of_nat (length vs)) Hv1 ltac:(lia))
        as (σ' & buf' & HR & Hv').
      rewrite Htake, Nat2Z.id, Z.max_l in Hv' by lia.
      exists σ'. split; [done|]. split; [by exists buf'|]. lia.
Qed.

(** ** PopBack and appending *)

(** X11.  [PopBack] on a valid non-empty vector removes the last
    element and nothing else: the other elements, the buffer and the
    capacity are unchanged, no block is allocated or released, and the
    element type sees exactly one destruction, of the last element. *)
Theorem X11_PopBack σ this buf vs (x : T) (cap : Z) :
  vector_at σ this buf (vs ++ [x]) cap →
  ∃ σ', PopBack this σ = Ok tt σ'
    ∧ vector_at σ' this buf vs cap
    ∧ dom (heap σ') = dom (heap σ)
    ∧ trace σ' = trace σ ++ [Destroy (ptr_add buf (Z.of_nat (length vs)))].
Proof.
  intros Hv. pose proof Hv as (Hobj & Hcap & _).
  rewrite length_app in *. simpl in *.
  destruct (vector_at_block _ _ _ _ _ Hv ltac:(lia)) as (a & -> & Ha).
  unfold PopBack. rewrite (bind_ok _ _ _ _ _ (get_obj_ok _ _ _ Hobj)).
  unfold GetAddress. simpl.
  replace (ptr_add (ptr_add (slot_ptr a 0) (Z.of_nat (length vs + 1))) (-1))
    with (slot_ptr a (length vs))
    by (unfold ptr_add, slot_ptr; simpl; f_equal; lia).
  erewrite bind_ok;
    last (apply (destroy_at_ok _ a (length vs) _ x Ha);
          apply block_of_lookup_obj; by rewrite lookup_app_r, Nat.sub_diag).
  erewrite bind_ok; last (apply get_obj_ok; simpl; exact Hobj).
  erewrite set_size_ok; last (simpl; exact Hobj).
  simpl. rewrite size_t_small by lia.
  eexists. split; [done|]. simpl.
  split; [|split].
  - split; [|split].
    + simpl. map_lookup. do 3 f_equal. lia.
    + lia.
    + unfold owns. rewrite decide_False by lia. exists a. split; [done|].
      simpl. map_lookup.
      pose proof (truncated_block (vs ++ [x]) cap (length vs)) as Htr.
      rewrite length_app in Htr. simpl in Htr.
      replace (length vs + 1 - length vs)%nat with 1%nat in Htr by lia.
      simpl in Htr. rewrite Htr by lia.
      by rewrite take_app_length.
  - by rewrite dom_insert_lookup_L.
  - by rewrite ptr_add_slot_ptr_nat.
Qed.

(** X12.  [PushBack] and [EmplaceBack] on a valid vector below capacity
    append in place: the buffer, the capacity and the old elements are
    unchanged, no block is allocated or released, and the element type
    sees exactly one construction, of the new element in the slot after
    the last one, whose address [EmplaceBack] returns.  No element is
    moved or copied. *)
Theorem X12_PushBack_in_place σ this buf vs (cap : Z) (x : T) :
  vector_at σ this buf vs cap → Z.of_nat (length vs) < cap →
  ∃ σ', PushBack this x σ = Ok tt σ'
    ∧ EmplaceBack this x σ = Ok (ptr_add buf (Z.of_nat (length vs))) σ'
    ∧ vector_at σ' this buf (vs ++ [x]) cap
    ∧ dom (heap σ') = dom (heap σ)
    ∧ trace σ' = trace σ ++ [Construct (ptr_add buf (Z.of_nat (length vs))) x].
Proof.
  intros Hv Hroom. pose proof Hv as (Hobj & Hcap & _).
  destruct (vector_at_block _ _ _ _ _ Hv ltac:(lia)) as (a & -> & Ha).
  assert (∃ σ', EmplaceBack this x σ = Ok (slot_ptr a (length vs)) σ'
            ∧ vector_at σ' this (slot_ptr a 0) (vs ++ [x]) cap
            ∧ dom (heap σ') = dom (heap σ)
            ∧ trace σ' = trace σ ++ [Construct (slot_ptr a (length vs)) x])
    as (σ' & HE & Hrest).
  { unfold EmplaceBack. rewrite (bind_ok _ _ _ _ _ (get_obj_ok _ _ _ Hobj)).
    unfold Emplace. rewrite (bind_ok _ _ _ _ _ (get_obj_ok _ _ _ Hobj)). simpl.
    rewrite decide_False by lia.
    unfold EmplaceWithoutReallocation.
    rewrite (bind_ok _ _ _ _ _ (get_obj_ok _ _ _ Hobj)).
    unfold ptr_diff, begin_, end_, GetAddress. simpl.
    rewrite decide_True by done. rewrite ret_bind.
    replace (Z.of_nat 0 + Z.of_nat (length vs) - Z.of_nat 0)
      with (Z.of_nat (length vs)) by lia.
    rewrite size_t_small by lia.
    match goal with
    | |- context [if decide ?P then (if decide ?Q then ?X else _) else _] =>
        replace (if decide P then (if decide Q then X else ret tt) else ret tt)
          with (@ret T unit tt) by (repeat case_decide; done)
    end.
    rewrite ret_bind.
    unfold RawMemory_plus. simpl.
    rewrite bind_bind, assert_true_bind by (apply bool_decide_eq_true; lia).
    rewrite ret_bind, ptr_add_slot_ptr_nat. simpl.
    erewrite bind_ok;
      last (apply (construct_at_ok _ a (length vs) _ x Ha);
            rewrite block_of_length by lia; lia).
    erewrite bind_ok; last (apply get_obj_ok; simpl; exact Hobj).
    erewrite bind_ok; last (eapply set_size_ok; simpl; exact Hobj).
    simpl. rewrite size_t_small by lia.
    eexists. split; [done|]. simpl.
    split; [|split; [by rewrite dom_insert_lookup_L | done]].
    split; [|split].
    - simpl. map_lookup. rewrite length_app. simpl. do 3 f_equal. lia.
    - rewrite length_app. simpl. lia.
    - unfold owns. rewrite decide_False by lia. exists a. split; [done|].
      simpl. map_lookup.
      pose proof (extended_block vs [x] cap) as Hext. simpl in Hext.
      by rewrite Hext by lia. }
  exists σ'. rewrite ptr_add_slot_ptr_nat. simpl.
  split; [|done]. unfold PushBack. by rewrite (bind_ok _ _ _ _ _ HE).
Qed.

(** X13.  [PushBack(x)] followed by [PopBack()] on a valid vector
    restores its elements and its size.  The capacity is unchanged when
    there was room, and is the grown one when the append reallocated. *)
Theorem X13_PushBack_PopBack σ this buf vs (cap : Z) (x : T) :
  vector_at σ this buf vs cap → 2 * Z.of_nat (length vs) ≤ PTRDIFF_MAX →
  ∃ σ', (PushBack this x;; PopBack this) σ = Ok tt σ'
    ∧ is_vector σ' this vs
        (if decide (Z.of_nat (length vs) = cap) then grown cap else cap).
Proof.
  intros Hv Hmax. pose proof Hv as (_ & Hcap & _).
  unfold PushBack. rewrite bind_bind. case_decide as Hfull.
  - destruct (EmplaceBack_full_ok _ _ _ _ _ x Hv Hfull ltac:(lia))
      as (σ1 & b & HE & Hv1).
    rewrite (bind_ok _ _ _ _ _ HE), ret_bind.
    destruct (PopBack_ok _ _ _ _ _ _ Hv1) as (σ' & HP & Hv').
    exists σ'. split; [done|]. by eexists.
  - destruct (EmplaceBack_room_ok _ _ _ _ _ x Hv ltac:(lia)) as (σ1 & HE & Hv1).
    rewrite (bind_ok _ _ _ _ _ HE), ret_bind.
    destruct (PopBack_ok _ _ _ _ _ _ Hv1) as (σ' & HP & Hv').
    exists σ'. split; [done|]. by eexists.
Qed.

(** X14.  Appending the values [xs] one by one with [PushBack] to a
    valid vector holding [vs] leaves a valid vector holding [vs ++ xs]:
    the size grows by the number of appends and every value is at its
    index.  The capacity never shrinks, and when it had to grow it ends
    below twice the final size: for a vector that starts empty,
    [Size() <= Capacity() <= 2 * Size() - 1] after any positive number
    of appends. *)
Theorem X14_PushBack_all σ this buf vs (cap : Z) xs :
  vector_at σ this buf vs cap →
  2 * Z.of_nat (length vs + length xs) ≤ PTRDIFF_MAX →
  ∃ σ' (cap' : Z),
    PushBack_all this xs σ = Ok tt σ'
    ∧ is_vector σ' this (vs ++ xs) cap'
    ∧ cap ≤ cap' ≤ Z.max cap (2 * Z.of_nat (length vs + length xs) - 1).
Proof.
  revert σ buf vs cap.
  induction xs as [|x xs IH]; intros σ buf vs cap Hv Hmax;
    pose proof Hv as (_ & Hcap & _).
  - exists σ, cap. rewrite app_nil_r. split; [done|]. split; [by exists buf|]. lia.
  - simpl in Hmax. simpl. unfold PushBack. rewrite bind_bind.
    assert (∃ σ1 buf1 (cap1 : Z),
              EmplaceBack this x σ = Ok buf1 σ1
              ∧ is_vector σ1 this (vs ++ [x]) cap1
              ∧ (cap1 = cap ∨ (Z.of_nat (length vs) = cap ∧ cap1 = grown cap)))
      as (σ1 & q & cap1 & HE & [buf1 Hv1] & Hcap1).
    { destruct (decide (Z.of_nat (length vs) = cap)) as [Hfull|Hroom].
      - destruct (EmplaceBack_full_ok _ _ _ _ _ x Hv Hfull ltac:(lia))
          as (σ1 & b & HE & Hv1).
        eexists σ1, _, _. split; [exact HE|]. split; [by eexists|]. by right.
      - destruct (EmplaceBack_room_ok _ _ _ _ _ x Hv ltac:(lia)) as (σ1 & HE & Hv1).
        eexists σ1, _, _. split; [exact HE|]. split; [by eexists|]. by left. }
    rewrite (bind_ok _ _ _ _ _ HE), ret_bind.
    destruct (IH σ1 buf1 (vs ++ [x]) cap1 Hv1) as (σ' & cap' & HP & Hv' & Hcap').
    { rewrite length_app. simpl. lia. }
    rewrite <- app_assoc in Hv'. simpl in Hv'.
    rewrite length_app in Hcap'. simpl in Hcap'.
    exists σ', cap'. split; [done|]. split; [done|].
    destruct Hcap1 as [-> | [Hfull ->]]; [lia|].
    unfold grown in *. case_decide; lia.
Qed.

(** ** Insert and Erase *)

(** X15.  An insertion of [x] at index [p] into a valid full vector
    leaves exactly the old elements with [x] between those that were
    before index [p] and those that were from [p] on.  The iterator it
    returns is [begin() + p] of the vector after the call, and
    dereferencing it yields [x]. *)
Theorem X15_Insert_full σ this buf vs (cap : Z) p (x : T) :
  vector_at σ this buf vs cap → Z.of_nat (length vs) = cap →
  (p ≤ length vs)%nat → 2 * cap ≤ PTRDIFF_MAX →
  ∃ q σ', (pos ← iter this (Z.of_nat p); Insert this pos x) σ = Ok q σ'
    ∧ is_vector σ' this (take p vs ++ x :: drop p vs) (grown cap)
    ∧ iter this (Z.of_nat p) σ' = Ok q σ'
    ∧ read_obj q σ' = Ok x σ'.
Proof.
  intros Hv Hfull Hp Hmax.
  destruct (Emplace_full_ok _ _ _ _ _ p x Hv Hfull Hp Hmax) as (σ' & b & HE & Hv').
  exists (slot_ptr b p), σ'.
  rewrite (bind_ok _ _ _ _ _ (iter_ok _ _ _ _ _ _ Hv)).
  split; [done|]. split; [by eexists|]. split.
  - rewrite (iter_ok _ _ _ _ _ _ Hv'). by rewrite ptr_add_slot_ptr_nat.
  - destruct (vector_at_block _ _ _ _ _ Hv') as (b' & [= <-] & Hb).
    { unfold grown. case_decide; lia. }
    apply (read_obj_ok _ _ _ _ _ Hb). apply block_of_lookup_obj.
    rewrite lookup_app_r by (rewrite length_take; lia).
    rewrite length_take. by replace (p - p `min` length vs)%nat with 0%nat by lia.
Qed.

(** X16.  [Erase] at an index [p] below [Size()] of a valid vector
    removes the element of that index: the elements before it keep
    their index and those after it move down by one.  The buffer and
    the capacity are unchanged, and the iterator returned is
    [begin() + p]. *)
Theorem X16_Erase σ this buf vs (cap : Z) p :
  vector_at σ this buf vs cap → (p < length vs)%nat →
  ∃ q σ', (pos ← iter this (Z.of_nat p); Erase this pos) σ = Ok q σ'
    ∧ vector_at σ' this buf (delete p vs) cap
    ∧ iter this (Z.of_nat p) σ' = Ok q σ'.
Proof.
  intros Hv Hp.
  destruct (Erase_ok _ _ _ _ _ p Hv Hp) as (σ' & HE & Hv').
  exists (ptr_add buf (Z.of_nat p)), σ'.
  rewrite (bind_ok _ _ _ _ _ (iter_ok _ _ _ _ _ _ Hv)).
  split; [done|]. rewrite delete_take_drop.
  split; [done|]. by rewrite (iter_ok _ _ _ _ _ _ Hv').
Qed.

(** X17.  [Erase(end())] is not checked: on every valid vector, empty
    or not, the range handed to [std::move] starts one slot after its
    end, which is undefined behaviour, and no assertion is evaluated. *)
Theorem X17_Erase_end_unchecked σ this buf vs (cap : Z) :
  vector_at σ this buf vs cap →
  (pos ← iter this (Z.of_nat (length vs)); Erase this pos) σ
  = Err UndefinedBehaviour.
Proof.
  intros Hv. pose proof Hv as (Hobj & _).
  rewrite (bind_ok _ _ _ _ _ (iter_ok _ _ _ _ _ _ Hv)).
  unfold Erase. rewrite (bind_ok _ _ _ _ _ (get_obj_ok _ _ _ Hobj)).
  unfold ptr_diff, begin_, end_, GetAddress. simpl.
  rewrite decide_True by done. rewrite ret_bind.
  unfold std_move, distance, ptr_diff. simpl.
  rewrite !bind_bind. rewrite decide_True by done. rewrite ret_bind.
  rewrite decide_False by lia. done.
Qed.

(** X19.  [Insert(begin() + p, x)] followed by [Erase(begin() + p)]
    restores the elements and the size of a valid vector whenever the
    insertion reallocates (the vector is full) or appends ([p] is
    [Size()]); the capacity is the one the insertion left. *)
Theorem X19_Insert_Erase σ this buf vs (cap : Z) p (x : T) :
  vector_at σ this buf vs cap → (p ≤ length vs)%nat →
  (Z.of_nat (length vs) = cap ∧ 2 * cap ≤ PTRDIFF_MAX)
  ∨ (p = length vs ∧ Z.of_nat (length vs) < cap) →
  ∃ q σ',
    (pos ← iter this (Z.of_nat p); _ ← Insert this pos x;
     pos ← iter this (Z.of_nat p); Erase this pos) σ = Ok q σ'
    ∧ is_vector σ' this vs
        (if decide (Z.of_nat (length vs) = cap) then grown cap else cap)
    ∧ iter this (Z.of_nat p) σ' = Ok q σ'.
Proof.
  intros Hv Hp Hcase.
  assert (length (take p vs) = p) as Htake by (rewrite length_take; lia).
  rewrite (bind_ok _ _ _ _ _ (iter_ok _ _ _ _ _ _ Hv)).
  unfold Insert.
  destruct Hcase as [[Hfull Hmax] | [-> Hroom]].
  - destruct (Emplace_full_ok _ _ _ _ _ p x Hv Hfull Hp Hmax) as (σ1 & b & HE & Hv1).
    rewrite (bind_ok _ _ _ _ _ HE).
    rewrite (bind_ok _ _ _ _ _ (iter_ok _ _ _ _ _ _ Hv1)).
    destruct (Erase_ok _ _ _ _ _ p Hv1) as (σ' & HR & Hv').
    { rewrite length_app. simpl. lia. }
    rewrite take_app_length' in Hv' by done.
    rewrite (cons_middle x), app_assoc in Hv'.
    rewrite drop_app_length' in Hv' by (rewrite length_app; simpl; lia).
    rewrite take_drop in Hv'.
    rewrite decide_True by done.
    eexists _, σ'. split; [exact HR|]. split; [by eexists|].
    by rewrite (iter_ok _ _ _ _ _ _ Hv').
  - destruct (Emplace_end_room_ok _ _ _ _ _ x Hv Hroom) as (σ1 & HE & Hv1).
    rewrite (bind_ok _ _ _ _ _ HE).
    rewrite (bind_ok _ _ _ _ _ (iter_ok _ _ _ _ _ _ Hv1)).
    destruct (Erase_ok _ _ _ _ _ (length vs) Hv1) as (σ' & HR & Hv').
    { rewrite length_app. simpl. lia. }
    rewrite take_app_length in Hv'.
    rewrite drop_ge, app_nil_r in Hv' by (rewrite length_app; simpl; lia).
    rewrite decide_False by lia.
    eexists _, σ'. split; [exact HR|]. split; [by eexists|].
    by rewrite (iter_ok _ _ _ _ _ _ Hv').
Qed.

(** X20.  An insertion into a valid full vector constructs the new
    element first, in its final slot of a block that was not allocated
    before, and only then relocates the old elements around it: those
    before the position, each relocation run followed by the
    destruction of its sources, then those from the position on.  The
    old block is released, and every other block and object is left as
    it was. *)
Theorem X20_Insert_full_order σ this buf vs (cap : Z) p (x : T) :
  vector_at σ this buf vs cap → Z.of_nat (length vs) = cap →
  (p ≤ length vs)%nat → 2 * cap ≤ PTRDIFF_MAX →
  ∃ σ' b,
    (pos ← iter this (Z.of_nat p); Insert this pos x) σ = Ok (slot_ptr b p) σ'
    ∧ heap σ !! b = None
    ∧ (∀ a, base buf = Some a → heap σ' !! a = None)
    ∧ (∀ a, a ≠ b → base buf ≠ Some a → heap σ' !! a = heap σ !! a)
    ∧ (∀ o, o ≠ this → objs σ' !! o = objs σ !! o)
    ∧ trace σ' =
        trace σ ++ [Construct (slot_ptr b p) x]
        ++ relocate_events relocation buf p (slot_ptr b 0)
        ++ destroy_events buf p
        ++ relocate_events relocation (ptr_add buf (Z.of_nat p)) (length vs - p)
             (slot_ptr b (S p))
        ++ destroy_events (ptr_add buf (Z.of_nat p)) (length vs - p).
Proof.
  intros Hv <- Hp Hmax. pose proof Hv as (Hobj & Hcap & _).
  assert (grown (Z.of_nat (length vs)) ≤ PTRDIFF_MAX) as Hg
    by (unfold grown; case_decide; unfold PTRDIFF_MAX in *; lia).
  pose proof (grown_gt (Z.of_nat (length vs)) ltac:(lia)) as Hgt.
  rewrite (bind_ok _ _ _ _ _ (iter_ok _ _ _ _ _ _ Hv)).
  unfold Insert, Emplace.
  rewrite (bind_ok _ _ _ _ _ (get_obj_ok _ _ _ Hobj)). simpl.
  rewrite decide_True by done.
  unfold EmplaceWithReallocation.
  rewrite (bind_ok _ _ _ _ _ (get_obj_ok _ _ _ Hobj)). simpl.
  unfold ptr_diff, begin_, GetAddress. simpl.
  rewrite decide_True by done. rewrite ret_bind.
  replace (off buf + Z.of_nat p - off buf) with (Z.of_nat p) by lia.
  rewrite (size_t_small (Z.of_nat p)) by lia.
  replace (if decide (Z.of_nat (length vs) = 0) then 1
           else size_t (Z.of_nat (length vs) * 2))
    with (grown (Z.of_nat (length vs)))
    by (unfold grown; case_decide; [done | by rewrite size_t_double by lia]).
  rewrite (bind_ok _ _ _ _ _
             (RawMemory_new_ok σ (grown (Z.of_nat (length vs))) ltac:(lia))).
  set (b := fresh (dom (heap σ))).
  assert (heap σ !! b = None) as Hb by apply fresh_block.
  set (n := Z.to_nat (grown (Z.of_nat (length vs)))).
  unfold RawMemory_plus. simpl.
  rewrite bind_bind, assert_true_bind by (apply bool_decide_eq_true; lia).
  rewrite ret_bind. rewrite ptr_add_slot_ptr_nat. simpl.
  erewrite bind_ok;
    last (apply (construct_at_ok _ b p (replicate n Raw));
          simpl; [by rewrite lookup_insert_eq | rewrite length_replicate; lia]).
  simpl. rewrite insert_insert_eq.
  assert (length (take p vs) = p) as Htake by (rewrite length_take; lia).
  assert (length (drop p vs) = (length vs - p)%nat) as Hdrop by apply length_drop.
  destruct (decide (Z.of_nat (length vs) > 0)) as [Hpos|Hzero].
  - destruct (vector_at_block _ _ _ _ _ Hv ltac:(lia)) as (a & -> & Ha).
    assert (b ≠ a) as Hba by (by eapply fresh_block_ne).
    rewrite ptr_add_slot_ptr_nat, ptr_add_slot_ptr. simpl.
    rewrite size_t_small by lia.
    replace (Z.of_nat (length vs) - Z.of_nat p) with (Z.of_nat (length (drop p vs)))
      by lia.
    set (blkA := block_of vs (Z.of_nat (length vs))) in *.
    pose proof (MoveElements_ok (take p vs)
                  (mkState (objs σ) (<[b:=<[p:=Obj x]> (replicate n Raw)]> (heap σ))
                           (trace σ ++ [Construct (slot_ptr b p) x]))
                  a 0 b 0 blkA (<[p:=Obj x]> (replicate n Raw))) as HM1.
    rewrite Htake in HM1. simpl in HM1.
    rewrite bind_bind.
    rewrite (bind_ok _ _ _ _ _ (HM1 ltac:(done)
               ltac:(by rewrite lookup_insert_ne) ltac:(by rewrite lookup_insert_eq)
               ltac:(intros k v Hk; apply block_of_lookup_obj;
                     by apply lookup_take_Some in Hk as [? _])
               ltac:(rewrite length_insert, length_replicate; lia))).
    clear HM1. rewrite insert_insert_eq.
    erewrite bind_ok;
      last (apply (MoveElements_ok (drop p vs) _ a p b (S p)
                     (list_inserts 0 (replicate p Raw) blkA)
                     (list_inserts 0 (Obj <$> take p vs)
                        (<[p:=Obj x]> (replicate n Raw))));
            simpl;
            [ done
            | by rewrite lookup_insert_eq
            | rewrite lookup_insert_ne by done; by rewrite lookup_insert_eq
            | intros k v Hk; rewrite list_lookup_inserts_ge
                by (rewrite length_replicate; lia);
              apply block_of_lookup_obj; by rewrite lookup_drop in Hk
            | rewrite length_inserts, length_insert, length_replicate; lia ]).
    simpl.
    erewrite bind_ok; last by apply data_Swap_ok.
    simpl.
    erewrite bind_ok; last (apply get_obj_ok; simpl; apply lookup_insert_eq).
    simpl.
    erewrite bind_ok; last (eapply set_size_ok; simpl; apply lookup_insert_eq).
    simpl. unfold RawMemory_dtor. simpl.
    erewrite bind_ok; last (eapply Deallocate_ok; simpl; apply lookup_insert_eq).
    eexists _, b. split; [done|]. simpl.
    split; [done|split; [|split; [|split]]].
    + intros a' [= <-]. by rewrite lookup_delete_eq.
    + intros a' Hab Haa.
      assert (a ≠ a') as Hne' by (intros ->; by apply Haa).
      by rewrite lookup_delete_ne, !lookup_insert_ne.
    + intros o Ho. by rewrite !lookup_insert_ne.
    + rewrite Hdrop, <- !app_assoc. done.
  - assert (vs = []) as -> by (destruct vs; [done | simpl in Hzero; lia]).
    destruct (vector_at_nil_inv _ _ _ _ Hv) as [_ ->].
    assert (p = 0)%nat as -> by (simpl in Hp; lia).
    rewrite ret_bind.
    erewrite bind_ok; last by apply data_Swap_ok.
    simpl.
    erewrite bind_ok; last (apply get_obj_ok; simpl; apply lookup_insert_eq).
    simpl.
    erewrite bind_ok; last (eapply set_size_ok; simpl; apply lookup_insert_eq).
    simpl. unfold RawMemory_dtor. simpl.
    rewrite (bind_ok _ _ _ _ _ (Deallocate_null _)).
    eexists _, b. split; [done|]. simpl.
    split; [done|split; [done|split; [|split; [|done]]]].
    + intros a' Hab _. by rewrite lookup_insert_ne.
    + intros o Ho. by rewrite !lookup_insert_ne.
Qed.

(** ** Lifetime *)

(** X21.  Constructing a vector of [size] elements, for a [size] whose
    storage fits ([size * sizeof(T)] at most [PTRDIFF_MAX]), and
    destroying it leaves the object store and the free store exactly as
    they were: the block is released, and every element that was
    value-initialised is destroyed, in the same order. *)
Theorem X21_construct_destroy σ this (size : Z) :
  objs σ !! this = None → 0 ≤ size → size * sizeof_T ≤ PTRDIFF_MAX →
  ∃ σ' buf,
    (Vector_sized this size;; Vector_dtor this) σ = Ok tt σ'
    ∧ objs σ' = objs σ ∧ heap σ' = heap σ
    ∧ trace σ' = trace σ ++ value_construct_events buf (Z.to_nat size)
                         ++ destroy_events buf (Z.to_nat size).
Proof.
  intros Hnew Hpos Hfit.
  assert (0 ≤ size ≤ PTRDIFF_MAX) as Hsize by (split; [done | by apply count_fits]).
  destruct (decide (size = 0)) as [->|Hne].
  - rewrite (bind_ok _ _ _ _ _ (Vector_sized_zero _ _ Hnew)).
    erewrite Vector_dtor_null; last (simpl; apply lookup_insert_eq).
    eexists _, nullptr. split; [done|]. simpl.
    split; [by rewrite delete_insert_id|]. split; [done|]. by rewrite app_nil_r.
  - rewrite (bind_ok _ _ _ _ _ (Vector_sized_block σ this size Hnew ltac:(lia))).
    set (b := fresh (dom (heap σ))).
    erewrite (Vector_dtor_block _ this b (replicate (Z.to_nat size) value_init) size);
      [| |done].
    + eexists _, (slot_ptr b 0). split; [done|]. simpl.
      split; [by rewrite delete_insert_id|].
      split; [by rewrite delete_insert_id by apply fresh_block|].
      by rewrite length_replicate, <- app_assoc.
    + split; [|split].
      * simpl. map_lookup. rewrite length_replicate. do 3 f_equal. lia.
      * rewrite length_replicate. lia.
      * unfold owns. rewrite decide_False by done. exists b. split; [done|].
        simpl. by map_lookup.
Qed.

(** ** Element operations of copy assignment *)

(** X22.  Copy assignment that reuses the storage ([rhs.Size()] not
    above the capacity) copy-assigns over the elements that both vectors
    have, in index order, and then either copy-constructs the remaining
    elements of [rhs] after them or destroys the surplus elements of the
    target; the element type sees nothing else. *)
Theorem X22_copy_assign_reuse_order σ this rhs buf rbuf vs ws (cap rcap : Z) :
  this ≠ rhs →
  vector_at σ this buf vs cap → vector_at σ rhs rbuf ws rcap →
  separate buf rbuf → Z.of_nat (length ws) ≤ cap →
  ∃ σ',
    copy_assign this rhs σ = Ok tt σ'
    ∧ trace σ' =
        trace σ
        ++ relocate_events CopyAssign rbuf (length vs `min` length ws) buf
        ++ relocate_events CopyConstruct (ptr_add rbuf (Z.of_nat (length vs)))
             (length ws - length vs) (ptr_add buf (Z.of_nat (length vs)))
        ++ destroy_events (ptr_add buf (Z.of_nat (length ws)))
             (length vs - length ws).
Proof.
  intros Hne Hv Hr Hsep Hfit.
  pose proof Hv as (Hobj & Hcap & Hown). pose proof Hr as (Hrobj & Hrcap & Hrown).
  unfold copy_assign. rewrite decide_True by done.
  rewrite (bind_ok _ _ _ _ _ (get_obj_ok _ _ _ Hobj)).
  rewrite (bind_ok _ _ _ _ _ (get_obj_ok _ _ _ Hrobj)). simpl.
  rewrite decide_False by lia.
  unfold GetAddress. simpl.
  rewrite (bind_eq _ _ _ _
             (std_copy_unfold rbuf buf
                (Z.of_nat (length vs) `min` Z.of_nat (length ws)) σ ltac:(lia))).
  rewrite <- Nat2Z.inj_min, Nat2Z.id.
  destruct (decide (length ws = 0)%nat) as [Hnil|Hcons].
  - destruct ws; [clear Hnil | done]. simpl.
    rewrite Nat.min_0_r. simpl. rewrite ret_bind.
    rewrite decide_False by lia.
    rewrite Z.sub_0_r, size_t_small, Nat2Z.id by lia.
    destruct (decide (cap = 0)) as [->|Hcapne].
    + destruct (vector_at_nil_inv _ _ _ _ Hv) as [-> ->]. simpl. rewrite ret_bind.
      rewrite (set_size_ok _ _ _ _ Hobj). simpl.
      eexists. split; [done|]. simpl. by rewrite app_nil_r.
    + destruct (vector_at_block _ _ _ _ _ Hv Hcapne) as (a & -> & Ha).
      rewrite ptr_add_slot_ptr_nat with (k := 0%nat). simpl.
      erewrite bind_ok;
        last (apply (destroy_n_ok (length vs) _ a 0 _ Ha);
              intros k Hk; destruct (lookup_lt_is_Some_2 vs k Hk) as [v Hk'];
              exists v; by apply block_of_lookup_obj).
      erewrite set_size_ok; last done.
      eexists. split; [done|]. simpl. by rewrite Nat.sub_0_r.
  - destruct (vector_at_block _ _ _ _ _ Hv ltac:(lia)) as (a & -> & Ha).
    destruct (vector_at_block _ _ _ _ _ Hr ltac:(lia)) as (ra & -> & Hra).
    assert (a ≠ ra) as Hara.
    { intros ->. by specialize (Hsep eq_refl). }
    set (m := (length vs `min` length ws)%nat).
    assert (length (take m ws) = m) as Htake by (rewrite length_take; lia).
    pose proof (copy_loop_ok (take m ws) σ ra 0 a 0 _ _ ltac:(done) Hra Ha) as HC.
    rewrite Htake in HC.
    rewrite (bind_ok _ _ _ _ _ (HC
      ltac:(intros k v Hk; apply block_of_lookup_obj;
            by apply lookup_take_Some in Hk as [? _])
      ltac:(intros k Hk; destruct (lookup_lt_is_Some_2 vs k ltac:(lia)) as [v Hk'];
            exists v; by apply block_of_lookup_obj))).
    clear HC. rewrite assigned_block by lia. rewrite Htake.
    rewrite !ptr_add_slot_ptr_nat. simpl.
    destruct (decide (Z.of_nat (length ws) > Z.of_nat (length vs))) as [Hmore|Hless].
    + assert (m = length vs) as Hm by lia. rewrite Hm in *.
      rewrite drop_all, app_nil_r.
      rewrite size_t_small by lia.
      replace (Z.to_nat (Z.of_nat (length ws) - Z.of_nat (length vs)))
        with (length (drop (length vs) ws)) by (rewrite length_drop; lia).
      erewrite bind_ok;
        last (apply (uninitialized_copy_n_ok (drop (length vs) ws) _ ra (length vs)
                       a (length vs) (block_of ws rcap)
                       (block_of (take (length vs) ws) cap));
              simpl;
              [ done
              | by rewrite lookup_insert_ne
              | by rewrite lookup_insert_eq
              | intros k v Hk; apply block_of_lookup_obj; by rewrite lookup_drop in Hk
              | rewrite block_of_length, length_drop by lia; lia ]).
      erewrite set_size_ok; last done.
      eexists. split; [done|]. simpl.
      replace (length vs - length ws)%nat with 0%nat by lia.
      rewrite length_drop. simpl. by rewrite app_nil_r, <- app_assoc.
    + assert (m = length ws) as Hm by lia. rewrite Hm in *.
      rewrite firstn_all.
      rewrite size_t_small by lia.
      replace (Z.to_nat (Z.of_nat (length vs) - Z.of_nat (length ws)))
        with (length vs - length ws)%nat by lia.
      erewrite bind_ok;
        last (apply (destroy_n_ok (length vs - length ws) _ a (length ws)
                       (block_of (ws ++ drop (length ws) vs) cap));
              simpl;
              [ by rewrite lookup_insert_eq
              | intros k Hk;
                destruct (lookup_lt_is_Some_2 vs (length ws + k) ltac:(lia))
                  as [v Hk'];
                exists v; apply block_of_lookup_obj;
                rewrite lookup_app_r by lia; rewrite lookup_drop;
                rewrite <- Hk'; f_equal; lia ]).
      erewrite set_size_ok; last done.
      eexists. split; [done|]. simpl.
      replace (length ws - length vs)%nat with 0%nat by lia.
      simpl. by rewrite <- app_assoc.
Qed.

(** X23.  Copy assignment that cannot reuse the storage ([rhs.Size()]
    above the capacity) copies [rhs] into a block that was not allocated
    before, with one copy construction per element, and only then
    destroys the old elements of the target and releases its old block.
    The temporary copy is gone afterwards, and every other object is
    left as it was. *)
Theorem X23_copy_assign_regrow_order σ this rhs buf rbuf vs ws (cap rcap : Z) :
  this ≠ rhs →
  vector_at σ this buf vs cap → vector_at σ rhs rbuf ws rcap →
  separate buf rbuf → cap < Z.of_nat (length ws) →
  ∃ σ' buf',
    copy_assign this rhs σ = Ok tt σ'
    ∧ vector_at σ' this buf' ws (Z.of_nat (length ws))
    ∧ (∀ a, base buf' = Some a → heap σ !! a = None)
    ∧ (∀ a, base buf = Some a → heap σ' !! a = None)
    ∧ (∀ o, o ≠ this → objs σ' !! o = objs σ !! o)
    ∧ trace σ' = trace σ
                 ++ relocate_events CopyConstruct rbuf (length ws) buf'
                 ++ destroy_events buf (length vs).
Proof.
  intros Hne Hv Hr Hsep Hgt.
  pose proof Hv as (Hobj & Hcap & Hown). pose proof Hr as (Hrobj & Hrcap & Hrown).
  unfold copy_assign. rewrite decide_True by done.
  rewrite (bind_ok _ _ _ _ _ (get_obj_ok _ _ _ Hobj)).
  rewrite (bind_ok _ _ _ _ _ (get_obj_ok _ _ _ Hrobj)). simpl.
  rewrite decide_True by lia.
  unfold bind at 1.
  set (tmp := fresh (dom (objs σ))).
  assert (this ≠ tmp) as Htmp1 by (by eapply fresh_object_ne).
  assert (rhs ≠ tmp) as Htmp2 by (by eapply fresh_object_ne).
  destruct (Vector_copy_ok σ tmp rhs rbuf ws rcap (fresh_object σ) Hr)
    as (σ1 & buf1 & HC & Hv1 & Hfresh & Hobjs1 & Hheap1 & Htrace1).
  rewrite (bind_ok _ _ _ _ _ HC).
  pose proof Hv1 as (Hobj1 & Hcap1 & Hown1).
  erewrite bind_ok;
    last (eapply Swap_ok; [done | by rewrite Hobjs1 | done]).
  set (σ2 := mkState _ _ _).
  assert (∀ a, base buf = Some a → heap σ1 !! a = heap σ !! a) as Hbuf.
  { intros a Ha. rewrite (owns_lookup _ _ _ _ _ Hown Ha).
    apply Hheap1. by eapply owns_lookup. }
  assert (vector_at σ2 tmp buf vs cap) as Hv2.
  { split; [|split; [done|]].
    - unfold σ2. simpl. by map_lookup.
    - unfold σ2. simpl. by eapply owns_frame. }
  destruct (Vector_dtor_ok σ2 tmp buf vs cap Hv2)
    as (σ3 & HD & Hobjs3 & Hheap3 & Htrace3).
  rewrite HD. exists σ3, buf1. split; [done|].
  assert (∀ a, base buf1 = Some a → base buf ≠ Some a) as Hb1.
  { intros a Hb1 Hb. specialize (Hfresh a Hb1).
    by rewrite (owns_lookup _ _ _ _ _ Hown Hb) in Hfresh. }
  split; [|split; [done|split; [|split]]].
  - split; [|split; [lia|]].
    + rewrite Hobjs3. unfold σ2. simpl. by map_lookup.
    + eapply owns_frame; [exact Hown1|].
      intros a Ha. rewrite Hheap3 by (by apply Hb1). done.
  - intros a Ha.
    assert (cap ≠ 0) as Hcapne.
    { intros ->. destruct (vector_at_nil_inv _ _ _ _ Hv) as [_ ->]. done. }
    destruct (vector_at_block _ _ _ _ _ Hv Hcapne) as (a' & -> & _).
    injection Ha as ->.
    rewrite (Vector_dtor_block _ _ _ _ _ Hv2 Hcapne) in HD.
    injection HD as <-. simpl. by rewrite lookup_delete_eq.
  - intros o Ho. rewrite Hobjs3. unfold σ2. simpl.
    destruct (decide (o = tmp)) as [->|Hotmp].
    + rewrite lookup_delete_eq. symmetry. apply fresh_object.
    + rewrite lookup_delete_ne, !lookup_insert_ne by done. by apply Hobjs1.
  - rewrite Htrace3. unfold σ2. simpl. by rewrite Htrace1, <- app_assoc.
Qed.

End VectorProofs.

(** * The claims on concrete inputs *)

(** Validity of a vector in a closed state, by evaluation. *)
Ltac concrete_vector a :=
  split; [vm_compute; reflexivity|];
  split; [unfold PTRDIFF_MAX; simpl; lia|];
  first [ vm_compute; reflexivity
        | vm_compute; exists a; split; reflexivity ].

Lemma two_ints_valid : vector_at two_ints v1 block2 [1; 2] 2.
Proof. concrete_vector 2%positive. Defined.

Lemma one_int_valid : vector_at one_int v1 block1 [0] 1.
Proof. concrete_vector 1%positive. Defined.

Lemma empty_vector_valid : vector_at empty_vector v1 nullptr [] 0.
Proof. concrete_vector 1%positive. Defined.

Lemma two_vectors_valid :
  vector_at two_vectors v1 block2 [1; 2] 2
  ∧ vector_at two_vectors v2 block3 [0; 0; 0] 3.
Proof. split; [concrete_vector 2%positive | concrete_vector 3%positive]. Defined.


(** The scenario of the specification on [int]: three appends, an
    insertion at index 1, its erasure and a [PopBack]. *)
Example scenario_ints :
  outcome ((Vector_default v1;;
            PushBack v1 1;; PushBack v1 2;; PushBack v1 3;;
            l1 ← first_three; n1 ← Size v1;
            pos ← iter v1 1; _ ← Insert v1 pos 9;
            l2 ← first_three; d ← at_ v1 3; n2 ← Size v1;
            pos ← iter v1 1; _ ← Erase v1 pos;
            l3 ← first_three; n3 ← Size v1;
            PopBack v1;;
            l4 ← first_two; n4 ← Size v1;
            ret ((l1, n1), (l2 ++ [d], n2), (l3, n3), (l4, n4))) empty_state)
  = inl (([1; 2; 3], 3), ([1; 9; 2; 3], 4), ([1; 2; 3], 3), ([1; 2], 2)).
Proof. vm_compute. reflexivity. Qed.

(** C1 at concrete inputs: [Vector<int> v1(1); Vector<int> v2(std::move(v1));]
    leaves [v1.Size() == 1] with [v1.Capacity() == 0], and [v1 = std::move(v2)]
    on [[1; 2]] and [[0; 0; 0]] leaves [v2.Size() == 3] with
    [v2.Capacity() == 0]. *)
Lemma C1_move_keeps_source_size_witness :
  (vector_at one_int v1 block1 [0] 1
   ∧ ∃ σ', Vector_move v2 v1 one_int = Ok tt σ'
           ∧ vector_at σ' v2 block1 [0] 1
           ∧ Size v1 σ' = Ok 1 σ'
           ∧ Capacity v1 σ' = Ok 0 σ'
           ∧ heap σ' = heap one_int ∧ trace σ' = trace one_int)
  ∧ (vector_at two_vectors v2 block3 [0; 0; 0] 3
     ∧ ∃ σ', move_assign v1 v2 two_vectors = Ok tt σ'
             ∧ vector_at σ' v1 block3 [0; 0; 0] 3
             ∧ Size v2 σ' = Ok 3 σ'
             ∧ Capacity v2 σ' = Ok 0 σ'
             ∧ heap σ' = heap two_vectors ∧ trace σ' = trace two_vectors).
Proof.
  split.
  - split; [exact one_int_valid|].
    apply (proj1 (C1_move_keeps_source_size one_int v2 v1 block1 [0] 1
                    one_int_valid)).
    vm_compute. reflexivity.
  - split; [exact (proj2 two_vectors_valid)|].
    apply (proj2 (C1_move_keeps_source_size two_vectors v1 v2 block3 [0; 0; 0] 3
                    (proj2 two_vectors_valid))
             (mkVector (mkRawMemory block2 2) 2)).
    + discriminate.
    + vm_compute. reflexivity.
Defined.

(** C2.  A state reached through the public interface in which
    [Size() <= Capacity()] fails: after
    [Vector<int> v1(1); Vector<int> v2(std::move(v1));] the source has
    size 1 and capacity 0, and [v1[0]] passes the assertion of
    [Vector::operator[]] only to fail the one of [RawMemory::operator[]]. *)
Theorem C2_move_breaks_size_le_capacity :
  ∃ σ, moved_out empty_state = Ok tt σ
       ∧ Size v1 σ = Ok 1 σ
       ∧ Capacity v1 σ = Ok 0 σ
       ∧ outcome (at_ v1 0 σ) = inr AssertionFailed.
Proof.
  exists (final (moved_out empty_state)).
  repeat split; vm_compute; reflexivity.
Qed.

(** C3.  [EmplaceWithoutReallocation] before the end shifts the range
    that starts one slot before [pos].  At [pos == begin()] of
    [[7]] with capacity 2 it reads the slot before the buffer.  At
    [begin() + 1] of two [unique_ptr] with capacity 4 the element at
    index 0 is moved from and left null, and the value it held is
    destroyed at index 1 before the new element is constructed there. *)
Theorem C3_shift_starts_before_pos :
  outcome ((one_of_two;; pos ← iter v1 0; Emplace v1 pos 9) empty_state)
  = inr UndefinedBehaviour
  ∧ outcome ((two_of_four;; pos ← iter v1 1; _ ← Emplace v1 pos (Owner 9);
              first_three) empty_state)
    = inl [Null; Owner 9; Owner 8]
  ∧ drop 2 (trace (final ((two_of_four;; pos ← iter v1 1;
                           Emplace v1 pos (Owner 9)) empty_state)))
    = [ MoveConstruct (ptr_add block1 2) (ptr_add block1 1);
        MoveAssign (ptr_add block1 1) (ptr_add block1 0);
        Destroy (ptr_add block1 1);
        Construct (ptr_add block1 1) (Owner 9) ].
Proof. repeat split; vm_compute; reflexivity. Qed.

(** C4, as stated, fails on a default-constructed vector: its size is 0
    and [PopBack] does not end in a failed assertion. *)
Lemma C4_counterexample :
  Size v1 empty_vector = Ok 0 empty_vector
  ∧ PopBack v1 empty_vector ≠ Err AssertionFailed.
Proof. split; [vm_compute; reflexivity|]. vm_compute. discriminate. Qed.

Lemma C4_PopBack_empty_unchecked_witness :
  is_vector empty_vector v1 [] 0
  ∧ PopBack v1 empty_vector = Err UndefinedBehaviour.
Proof.
  assert (is_vector empty_vector v1 [] 0) as H
    by (exists nullptr; exact empty_vector_valid).
  split; [exact H|]. exact (C4_PopBack_empty_unchecked empty_vector v1 0 H).
Defined.

Lemma C5_growth_doubles_witness :
  (∃ q σ', (pos ← iter v1 1; Emplace v1 pos 9) two_ints = Ok q σ'
           ∧ Capacity v1 σ' = Ok 4 σ')
  ∧ (∃ q σ', (pos ← iter v1 1; Insert v1 pos 9) two_ints = Ok q σ'
             ∧ Capacity v1 σ' = Ok 4 σ')
  ∧ (∃ q σ', EmplaceBack v1 9 two_ints = Ok q σ' ∧ Capacity v1 σ' = Ok 4 σ')
  ∧ (∃ σ', PushBack v1 9 two_ints = Ok tt σ' ∧ Capacity v1 σ' = Ok 4 σ').
Proof.
  apply (C5_growth_doubles two_ints v1 block2 [1; 2] 2 1%nat 9 two_ints_valid).
  - reflexivity.
  - simpl. lia.
  - unfold PTRDIFF_MAX. lia.
Defined.



(** C7.  [Insert] then [Erase] at the same position does not restore the
    sequence below capacity: at [begin()] of [[7]] with capacity 2 the
    insertion reads the slot before the buffer; at [begin() + 1] of two
    [unique_ptr] with capacity 4 the pair leaves a null element at
    index 0. *)
Theorem C7_insert_erase_below_capacity :
  outcome ((one_of_two;; pos ← iter v1 0; _ ← Insert v1 pos 9;
            pos ← iter v1 0; Erase v1 pos) empty_state)
  = inr UndefinedBehaviour
  ∧ outcome ((two_of_four;; before ← first_two;
              pos ← iter v1 1; _ ← Insert v1 pos (Owner 9);
              pos ← iter v1 1; _ ← Erase v1 pos;
              after ← first_two; n ← Size v1; ret (before, after, n)) empty_state)
    = inl ([Owner 7; Owner 8], [Null; Owner 8], 2).
Proof. split; vm_compute; reflexivity. Qed.

(** C8, as stated, fails for an insertion at the front that reallocates:
    [Insert(begin(), 9)] on [[1; 2]] with capacity 2 raises the capacity
    to 4, and index 0, which held 1, no longer does. *)
Lemma C8_counterexample :
  ∃ q σ', (pos ← iter v1 0; Insert v1 pos 9) two_ints = Ok q σ'
          ∧ Capacity v1 two_ints = Ok 2 two_ints
          ∧ Capacity v1 σ' = Ok 4 σ'
          ∧ element_at two_ints v1 0 1
          ∧ ¬ element_at σ' v1 0 1.
Proof.
  exists (outcome_ptr ((pos ← iter v1 0; Insert v1 pos 9) two_ints)),
         (final ((pos ← iter v1 0; Insert v1 pos 9) two_ints)).
  repeat split; try (vm_compute; reflexivity).
  vm_compute. discriminate.
Qed.

Lemma C8_growth_keeps_elements_witness :
  (∀ n : Z, 2 < n → n * 4 ≤ PTRDIFF_MAX →
     ∃ σ', Reserve v1 n two_ints = Ok tt σ'
           ∧ Capacity v1 σ' = Ok n σ'
           ∧ Size v1 σ' = Ok 2 σ'
           ∧ ∀ i v, element_at two_ints v1 i v → element_at σ' v1 i v)
  ∧ (∀ n : Z, 2 < n → (2 < n → n * 4 ≤ PTRDIFF_MAX) →
     ∃ σ', Resize v1 n two_ints = Ok tt σ'
           ∧ Size v1 σ' = Ok n σ'
           ∧ ∀ i v, element_at two_ints v1 i v → element_at σ' v1 i v)
  ∧ (2 = 2 → 2 * 2 ≤ PTRDIFF_MAX → ∀ x : Z,
     (∃ σ', PushBack v1 x two_ints = Ok tt σ'
            ∧ Size v1 σ' = Ok 3 σ'
            ∧ ∀ i v, element_at two_ints v1 i v → element_at σ' v1 i v)
     ∧ (∀ p, (p ≤ 2)%nat →
        ∃ q σ', (pos ← iter v1 (Z.of_nat p); Insert v1 pos x) two_ints = Ok q σ'
                ∧ Size v1 σ' = Ok 3 σ'
                ∧ ∀ i v, element_at two_ints v1 i v →
                         element_at σ' v1 (if decide (i < p)%nat then i else S i) v)).
Proof.
  exact (C8_growth_keeps_elements two_ints v1 block2 [1; 2] 2 two_ints_valid).
Defined.

Lemma C9_move_assign_self_witness :
  move_assign v1 v1 two_ints = Ok tt two_ints.
Proof.
  apply (C9_move_assign_self two_ints v1 (mkVector (mkRawMemory block2 2) 2)).
  vm_compute. reflexivity.
Defined.

Lemma C10_copy_assign_capacity_witness :
  ∃ σ', copy_assign v1 v2 two_vectors = Ok tt σ'
    ∧ (3 ≤ 2 →
         Capacity v1 σ' = Ok 2 σ'
         ∧ vector_at σ' v1 block2 [0; 0; 0] 2
         ∧ dom (heap σ') = dom (heap two_vectors))
    ∧ (3 > 2 → Capacity v1 σ' = Ok 3 σ').
Proof.
  apply (C10_copy_assign_capacity two_vectors v1 v2 block2 block3
           [1; 2] [0; 0; 0] 2 3 (proj1 two_vectors_valid) (proj2 two_vectors_valid)).
  intros _. unfold separate. simpl. discriminate.
Defined.

(** * The further properties on concrete inputs *)

Lemma two_of_four_ints_valid : vector_at two_of_four_ints v1 block1 [7; 8] 4.
Proof. concrete_vector 1%positive. Defined.

Lemma two_ints_is_vector : is_vector two_ints v1 [1; 2] 2.
Proof. exists block2. exact two_ints_valid. Defined.

Lemma X1_index_checked_witness :
  at_ v1 1 two_ints = Ok 2 two_ints
  ∧ at_ v1 2 two_ints = Err AssertionFailed.
Proof.
  split.
  - apply (X1_index_checked two_ints v1 [1; 2] 2 1 two_ints_is_vector). lia.
  - apply (X1_index_checked two_ints v1 [1; 2] 2 2 two_ints_is_vector). lia.
Defined.

Lemma X2_sized_constructor_witness :
  ∃ (σ' : @state Z) buf,
    Vector_sized v1 2 (@empty_state Z) = Ok tt σ'
    ∧ vector_at σ' v1 buf [0; 0] 2
    ∧ (2 = 0 → buf = nullptr ∧ heap σ' = heap (@empty_state Z))
    ∧ (∀ a, base buf = Some a → heap (@empty_state Z) !! a = None)
    ∧ (∀ a blk, heap (@empty_state Z) !! a = Some blk → heap σ' !! a = Some blk)
    ∧ (∀ o, o ≠ v1 → objs σ' !! o = objs (@empty_state Z) !! o)
    ∧ trace σ' = trace (@empty_state Z) ++ value_construct_events buf 2.
Proof.
  refine (X2_sized_constructor empty_state v1 2 _ _ _).
  - vm_compute. reflexivity.
  - lia.
  - unfold PTRDIFF_MAX. simpl. lia.
Defined.

Lemma X3_copy_constructor_witness :
  ∃ σ' buf',
    Vector_copy v2 v1 two_ints = Ok tt σ'
    ∧ vector_at σ' v2 buf' [1; 2] 2
    ∧ vector_at σ' v1 block2 [1; 2] 2
    ∧ separate buf' block2
    ∧ trace σ' = trace two_ints ++ relocate_events CopyConstruct block2 2 buf'.
Proof.
  refine (X3_copy_constructor two_ints v2 v1 block2 [1; 2] 2 _ _).
  - vm_compute. reflexivity.
  - exact two_ints_valid.
Defined.

Lemma X4_destructor_witness :
  ∃ σ', Vector_dtor v1 two_ints = Ok tt σ'
    ∧ objs σ' = delete v1 (objs two_ints)
    ∧ heap σ' = delete 2%positive (heap two_ints)
    ∧ trace σ' = trace two_ints ++ destroy_events block2 2.
Proof. exact (X4_destructor two_ints v1 block2 [1; 2] 2 two_ints_valid). Defined.

Lemma X5_destructor_after_move_witness :
  ∃ σ', (Vector_move v2 v1;; Vector_dtor v1) one_int = Ok tt σ'
    ∧ vector_at σ' v2 block1 [0] 1
    ∧ objs σ' !! v1 = None
    ∧ heap σ' = heap one_int ∧ trace σ' = trace one_int.
Proof.
  refine (X5_destructor_after_move one_int v2 v1 block1 [0] 1 one_int_valid _).
  vm_compute. reflexivity.
Defined.

Lemma X6_copy_assign_elements_witness :
  (∃ σ', copy_assign v1 v2 two_vectors = Ok tt σ'
     ∧ is_vector σ' v1 [0; 0; 0] 3
     ∧ vector_at σ' v2 block3 [0; 0; 0] 3
     ∧ (v1 = v2 → σ' = two_vectors))
  ∧ (∃ σ', copy_assign v2 v1 two_vectors = Ok tt σ'
       ∧ is_vector σ' v2 [1; 2] 3
       ∧ vector_at σ' v1 block2 [1; 2] 2
       ∧ (v2 = v1 → σ' = two_vectors)).
Proof.
  split.
  - refine (X6_copy_assign_elements two_vectors v1 v2 block2 block3
             [1; 2] [0; 0; 0] 2 3 (proj1 two_vectors_valid) (proj2 two_vectors_valid) _).
    intros _. unfold separate. simpl. discriminate.
  - refine (X6_copy_assign_elements two_vectors v2 v1 block3 block2
             [0; 0; 0] [1; 2] 3 2 (proj2 two_vectors_valid) (proj1 two_vectors_valid) _).
    intros _. unfold separate. simpl. discriminate.
Defined.

Lemma X7_Swap_exchanges_witness :
  (∃ σ', Swap v1 v2 two_vectors = Ok tt σ'
     ∧ vector_at σ' v1 block3 [0; 0; 0] 3
     ∧ vector_at σ' v2 block2 [1; 2] 2
     ∧ heap σ' = heap two_vectors ∧ trace σ' = trace two_vectors
     ∧ Swap v1 v2 σ' = Ok tt two_vectors)
  ∧ Swap v1 v1 two_ints = Ok tt two_ints.
Proof.
  split.
  - apply (proj1 (X7_Swap_exchanges two_vectors v1 v2 block2 block3
                    [1; 2] [0; 0; 0] 2 3
                    (proj1 two_vectors_valid) (proj2 two_vectors_valid))).
    discriminate.
  - apply (proj2 (X7_Swap_exchanges two_ints v1 v1 block2 block2
                    [1; 2] [1; 2] 2 2 two_ints_valid two_ints_valid)).
    reflexivity.
Defined.

Lemma X8_Reserve_witness :
  Reserve v1 1 two_ints = Ok tt two_ints
  ∧ ∃ σ' b,
      Reserve v1 5 two_ints = Ok tt σ'
      ∧ vector_at σ' v1 (slot_ptr b 0) [1; 2] 5
      ∧ heap two_ints !! b = None
      ∧ (∀ a, base block2 = Some a → heap σ' !! a = None)
      ∧ (∀ a, a ≠ b → base block2 ≠ Some a → heap σ' !! a = heap two_ints !! a)
      ∧ (∀ o, o ≠ v1 → objs σ' !! o = objs two_ints !! o)
      ∧ trace σ' = trace two_ints
                   ++ relocate_events relocation block2 2 (slot_ptr b 0)
                   ++ destroy_events block2 2.
Proof.
  split.
  - apply (proj1 (X8_Reserve two_ints v1 block2 [1; 2] 2 1 two_ints_valid)).
    lia.
  - apply (proj2 (X8_Reserve two_ints v1 block2 [1; 2] 2 5 two_ints_valid)).
    + lia.
    + unfold PTRDIFF_MAX. simpl. lia.
Defined.

Lemma X9_Resize_witness :
  (∃ σ' buf', Resize v1 3 two_ints = Ok tt σ'
     ∧ vector_at σ' v1 buf' [1; 2; 0] 3
     ∧ (3 ≤ 2 → buf' = block2))
  ∧ (∃ σ' buf', Resize v1 1 two_ints = Ok tt σ'
       ∧ vector_at σ' v1 buf' [1] 2
       ∧ (1 ≤ 2 → buf' = block2)).
Proof.
  split.
  - refine (X9_Resize two_ints v1 block2 [1; 2] 2 3 two_ints_valid _ _).
    + lia.
    + intros _. unfold PTRDIFF_MAX. simpl. lia.
  - refine (X9_Resize two_ints v1 block2 [1; 2] 2 1 two_ints_valid _ _).
    + lia.
    + intros _. unfold PTRDIFF_MAX. simpl. lia.
Defined.

Lemma X10_Resize_back_witness :
  (∃ σ', (Resize v1 3;; Resize v1 2) two_ints = Ok tt σ'
     ∧ is_vector σ' v1 [1; 2] 3
     ∧ (2 ≤ 3 → is_vector σ' v1 [1; 2] 3))
  ∧ (∃ σ', (Resize v1 1;; Resize v1 2) two_ints = Ok tt σ'
       ∧ is_vector σ' v1 [1; 0] 2
       ∧ (2 ≤ 1 → is_vector σ' v1 [1; 2] 2)).
Proof.
  split.
  - refine (X10_Resize_back two_ints v1 block2 [1; 2] 2 3 two_ints_valid _ _).
    + lia.
    + intros _. unfold PTRDIFF_MAX. simpl. lia.
  - refine (X10_Resize_back two_ints v1 block2 [1; 2] 2 1 two_ints_valid _ _).
    + lia.
    + intros _. unfold PTRDIFF_MAX. simpl. lia.
Defined.

Lemma X11_PopBack_witness :
  ∃ σ', PopBack v1 two_ints = Ok tt σ'
    ∧ vector_at σ' v1 block2 [1] 2
    ∧ dom (heap σ') = dom (heap two_ints)
    ∧ trace σ' = trace two_ints ++ [Destroy (ptr_add block2 1)].
Proof. exact (X11_PopBack two_ints v1 block2 [1] 2 2 two_ints_valid). Defined.

Lemma X12_PushBack_in_place_witness :
  ∃ σ', PushBack v1 9 two_of_four_ints = Ok tt σ'
    ∧ EmplaceBack v1 9 two_of_four_ints = Ok (ptr_add block1 2) σ'
    ∧ vector_at σ' v1 block1 [7; 8; 9] 4
    ∧ dom (heap σ') = dom (heap two_of_four_ints)
    ∧ trace σ' = trace two_of_four_ints ++ [Construct (ptr_add block1 2) 9].
Proof.
  refine (X12_PushBack_in_place two_of_four_ints v1 block1 [7; 8] 4 9
           two_of_four_ints_valid _).
  simpl. lia.
Defined.

Lemma X13_PushBack_PopBack_witness :
  (∃ σ', (PushBack v1 9;; PopBack v1) two_ints = Ok tt σ'
     ∧ is_vector σ' v1 [1; 2] 4)
  ∧ (∃ σ', (PushBack v1 9;; PopBack v1) two_of_four_ints = Ok tt σ'
       ∧ is_vector σ' v1 [7; 8] 4).
Proof.
  split.
  - refine (X13_PushBack_PopBack two_ints v1 block2 [1; 2] 2 9 two_ints_valid _).
    unfold PTRDIFF_MAX. simpl. lia.
  - refine (X13_PushBack_PopBack two_of_four_ints v1 block1 [7; 8] 4 9
             two_of_four_ints_valid _).
    unfold PTRDIFF_MAX. simpl. lia.
Defined.

Lemma X14_PushBack_all_witness :
  ∃ σ' (cap' : Z),
    PushBack_all v1 [1; 2; 3] empty_vector = Ok tt σ'
    ∧ is_vector σ' v1 [1; 2; 3] cap'
    ∧ 0 ≤ cap' ≤ 5.
Proof.
  refine (X14_PushBack_all empty_vector v1 nullptr [] 0 [1; 2; 3] empty_vector_valid _).
  unfold PTRDIFF_MAX. simpl. lia.
Defined.

Lemma X15_Insert_full_witness :
  ∃ q σ', (pos ← iter v1 1; Insert v1 pos 9) two_ints = Ok q σ'
    ∧ is_vector σ' v1 [1; 9; 2] 4
    ∧ iter v1 1 σ' = Ok q σ'
    ∧ read_obj q σ' = Ok 9 σ'.
Proof.
  refine (X15_Insert_full two_ints v1 block2 [1; 2] 2 1%nat 9 two_ints_valid _ _ _).
  - reflexivity.
  - simpl. lia.
  - unfold PTRDIFF_MAX. lia.
Defined.

Lemma X16_Erase_witness :
  ∃ q σ', (pos ← iter v1 0; Erase v1 pos) two_ints = Ok q σ'
    ∧ vector_at σ' v1 block2 [2] 2
    ∧ iter v1 0 σ' = Ok q σ'.
Proof.
  refine (X16_Erase two_ints v1 block2 [1; 2] 2 0%nat two_ints_valid _).
  simpl. lia.
Defined.

Lemma X17_Erase_end_unchecked_witness :
  (pos ← iter v1 2; Erase v1 pos) two_ints = Err UndefinedBehaviour
  ∧ (pos ← iter v1 0; Erase v1 pos) empty_vector = Err UndefinedBehaviour.
Proof.
  split.
  - exact (X17_Erase_end_unchecked two_ints v1 block2 [1; 2] 2 two_ints_valid).
  - exact (X17_Erase_end_unchecked empty_vector v1 nullptr [] 0 empty_vector_valid).
Defined.

Lemma X19_Insert_Erase_witness :
  (∃ q σ',
     (pos ← iter v1 1; _ ← Insert v1 pos 9;
      pos ← iter v1 1; Erase v1 pos) two_ints = Ok q σ'
     ∧ is_vector σ' v1 [1; 2] 4
     ∧ iter v1 1 σ' = Ok q σ')
  ∧ (∃ q σ',
       (pos ← iter v1 2; _ ← Insert v1 pos 9;
        pos ← iter v1 2; Erase v1 pos) two_of_four_ints = Ok q σ'
       ∧ is_vector σ' v1 [7; 8] 4
       ∧ iter v1 2 σ' = Ok q σ').
Proof.
  split.
  - refine (X19_Insert_Erase two_ints v1 block2 [1; 2] 2 1%nat 9 two_ints_valid _ _).
    + simpl. lia.
    + left. split; [reflexivity | unfold PTRDIFF_MAX; lia].
  - refine (X19_Insert_Erase two_of_four_ints v1 block1 [7; 8] 4 2%nat 9
             two_of_four_ints_valid _ _).
    + simpl. lia.
    + right. split; [reflexivity | simpl; lia].
Defined.

Lemma X20_Insert_full_order_witness :
  ∃ σ' b,
    (pos ← iter v1 1; Insert v1 pos 9) two_ints = Ok (slot_ptr b 1) σ'
    ∧ heap two_ints !! b = None
    ∧ (∀ a, base block2 = Some a → heap σ' !! a = None)
    ∧ (∀ a, a ≠ b → base block2 ≠ Some a → heap σ' !! a = heap two_ints !! a)
    ∧ (∀ o, o ≠ v1 → objs σ' !! o = objs two_ints !! o)
    ∧ trace σ' =
        trace two_ints ++ [Construct (slot_ptr b 1) 9]
        ++ relocate_events relocation block2 1 (slot_ptr b 0)
        ++ destroy_events block2 1
        ++ relocate_events relocation (ptr_add block2 1) 1 (slot_ptr b 2)
        ++ destroy_events (ptr_add block2 1) 1.
Proof.
  refine (X20_Insert_full_order two_ints v1 block2 [1; 2] 2 1%nat 9 two_ints_valid _ _ _).
  - reflexivity.
  - simpl. lia.
  - unfold PTRDIFF_MAX. lia.
Defined.

Lemma X21_construct_destroy_witness :
  ∃ (σ' : @state Z) buf,
    (Vector_sized v1 2;; Vector_dtor v1) (@empty_state Z) = Ok tt σ'
    ∧ objs σ' = objs (@empty_state Z) ∧ heap σ' = heap (@empty_state Z)
    ∧ trace σ' = trace (@empty_state Z) ++ value_construct_events buf 2
                 ++ destroy_events buf 2.
Proof.
  refine (X21_construct_destroy empty_state v1 2 _ _ _).
  - vm_compute. reflexivity.
  - lia.
  - unfold PTRDIFF_MAX. simpl. lia.
Defined.

Lemma X22_copy_assign_reuse_order_witness :
  ∃ σ',
    copy_assign v2 v1 two_vectors = Ok tt σ'
    ∧ trace σ' =
        trace two_vectors
        ++ relocate_events CopyAssign block2 2 block3
        ++ relocate_events CopyConstruct (ptr_add block2 3) 0 (ptr_add block3 3)
        ++ destroy_events (ptr_add block3 2) 1.
Proof.
  refine (X22_copy_assign_reuse_order two_vectors v2 v1 block3 block2
           [0; 0; 0] [1; 2] 3 2 _ _ _ _ _).
  - discriminate.
  - exact (proj2 two_vectors_valid).
  - exact (proj1 two_vectors_valid).
  - unfold separate. simpl. discriminate.
  - simpl. lia.
Defined.

Lemma X23_copy_assign_regrow_order_witness :
  ∃ σ' buf',
    copy_assign v1 v2 two_vectors = Ok tt σ'
    ∧ vector_at σ' v1 buf' [0; 0; 0] 3
    ∧ (∀ a, base buf' = Some a → heap two_vectors !! a = None)
    ∧ (∀ a, base block2 = Some a → heap σ' !! a = None)
    ∧ (∀ o, o ≠ v1 → objs σ' !! o = objs two_vectors !! o)
    ∧ trace σ' = trace two_vectors
                 ++ relocate_events CopyConstruct block3 3 buf'
                 ++ destroy_events block2 2.
Proof.
  refine (X23_copy_assign_regrow_order two_vectors v1 v2 block2 block3
           [1; 2] [0; 0; 0] 2 3 _ _ _ _ _).
  - discriminate.
  - exact (proj1 two_vectors_valid).
  - exact (proj2 two_vectors_valid).
  - unfold separate. simpl. discriminate.
  - simpl. lia.
Defined.
